(** * CelShooter: weapons, effects and player controller

    A shallow embedding of the simulation core of the game
    (Weapon.js, Effects.js, Player.js) together with the properties the
    specification states about it, and of the parts around it that the
    core calls or is called from (InputController.js, Physics.js,
    GameManager.js, the spawn points of ProceduralLevel.js).

    Modelling conventions.
    - A JavaScript [number] is the rational it stands for ([Q]); NaN,
      the infinities and the sign of zero are not represented.  Where a
      result of the code shows the rounding of binary64 (the damage
      computed from a quotient, the progress counters that add up
      quotients), every operation is followed by [JS.fl], the rounding
      to the nearest double; comparisons, [Math.max], [Math.min],
      [Math.floor] and [Math.round] are exact in binary64 as they are
      here.  A decimal literal that is not a double and enters such
      arithmetic is written [JS.fl] of its fraction.  Counts that the
      code only ever increments or decrements by one (ammunition, effect
      counters, array indexes) are integers ([Z]).
    - A method that mutates [this] is a function from the old object to
      the new one.  What a weapon hands to the outside (the hit callback,
      sounds, impact flashes) is returned as a list of events; what the
      player writes to the console and the page is appended to its
      [output].  Timers ([setTimeout]) are not modelled, but for the
      one of the input controller, which is counted.
    - Objects that are told apart by identity (physics bodies, enemies,
      projectiles) are named by numbers; [Math.random()] is an explicit
      argument, one per reading.
    - [performance.now() / 1000] is an explicit argument, one per reading.
    - The three.js functions the code calls are the fields of the class
      [Three].  Scene-graph bookkeeping that no property below depends on
      (materials, textures, particle buffers, physics bodies) is left out.
      The cannon-es world of the physics wrapper stands as the list of
      the calls the wrapper makes on it. *)

From Stdlib Require Import QArith Qround Qminmax Qabs Qpower ZArith Lia Lqa.
From Stdlib Require Floats.SpecFloat.
From stdpp Require Import base list strings gmap.

Set Default Proof Using "Type".

(* ===================================================================== *)
(** * Part I: the program                                                 *)
(* ===================================================================== *)

(** ** JavaScript numbers *)

Module JS.

Definition number := Q.

(** [a < b], [a <= b] as the booleans JavaScript computes. *)
Definition lt (a b : number) : bool := negb (Qle_bool b a).
Definition le (a b : number) : bool := Qle_bool a b.
Definition gt (a b : number) : bool := lt b a.
Definition ge (a b : number) : bool := le b a.

(** A number is truthy unless it is zero ([if (x)], [x || d]). *)
Definition truthy (a : number) : bool := negb (Qeq_bool a 0).

(** [Math.max], [Math.min], [Math.floor], [Math.round].  [Math.round]
    rounds halves towards plus infinity. *)
Definition Math_max (a b : number) : number := if le a b then b else a.
Definition Math_min (a b : number) : number := if le a b then a else b.
Definition Math_floor (a : number) : Z := Qfloor a.
Definition Math_round (a : number) : Z := Qfloor (a + (1 # 2)).

(** Binary64.  [mag x] is the exponent of the binade of a non-zero [x]:
    [2^(mag x - 1) <= |x| < 2^(mag x)]. *)
Definition mag (x : number) : Z :=
  let m0 := (Z.log2 (Z.abs (Qnum x)) - Z.log2 (Zpos (Qden x)))%Z in
  if Qle_bool (2 ^ m0) (Qabs x) then (m0 + 1)%Z else m0.

(** The nearest integer, a tie going to the even one. *)
Definition round_half_even (s : Q) : Z :=
  let f := Qfloor s in
  match Qcompare (s - inject_Z f) (1 # 2) with
  | Lt => f
  | Gt => (f + 1)%Z
  | Eq => if Z.even f then f else (f + 1)%Z
  end.

(** The exponent of the unit in the last place of the doubles around
    [x]: 53 bits of precision, and no spacing finer than [2^-1074]. *)
Definition fl_exp (x : number) : Z := Z.max (mag x - 53) (-1074).

(** The double nearest to [x], a tie going to the even significand.  A
    result beyond the largest double is [Infinity] in JavaScript and is
    not represented. *)
Definition fl (x : Q) : number :=
  if Qeq_bool x 0 then 0%Q
  else Qred (inject_Z (round_half_even (x / 2 ^ fl_exp x)) * 2 ^ fl_exp x).

(** [a + b], [a - b], [a * b], [a / b] as binary64 computes them. *)
Definition add (a b : number) : number := fl (a + b).
Definition sub (a b : number) : number := fl (a - b).
Definition mul (a b : number) : number := fl (a * b).
Definition div (a b : number) : number := fl (a / b).

(** [Math.PI], the double nearest to pi. *)
Definition Math_PI : number := 884279719003555 # 281474976710656.

(** [p || d] for an optional numeric parameter. *)
Definition or_num (p : option number) (d : number) : number :=
  match p with
  | Some v => if truthy v then v else d
  | None => d
  end.

(** [p || d] for an optional integer parameter. *)
Definition or_int (p : option Z) (d : Z) : Z :=
  match p with
  | Some v => if Z.eqb v 0 then d else v
  | None => d
  end.

(** [p || d] for an optional string parameter (the empty string is falsy). *)
Definition or_str (p : option string) (d : string) : string :=
  match p with
  | Some v => if String.eqb v "" then d else v
  | None => d
  end.

End JS.

(** The bounds of the rounding error of [JS.fl]: [2^-53] relative to the
    number, and half the least spacing of the doubles. *)
Definition u64 : Q := 2 ^ (-53).
Definition eta64 : Q := 2 ^ (-1075).

(** The rational a finite float of the standard library's model of IEEE
    754 stands for, and whether a binary64 result of that model is the
    number [q]. *)
Definition SF2Q (f : SpecFloat.spec_float) : option Q :=
  match f with
  | SpecFloat.S754_zero _ => Some 0%Q
  | SpecFloat.S754_finite s m e =>
      Some ((if s then - inject_Z (Zpos m) else inject_Z (Zpos m)) * 2 ^ e)%Q
  | _ => None
  end.

Definition is_double (f : SpecFloat.spec_float) (q : Q) : bool :=
  match SF2Q f with
  | Some q' => Qeq_bool q' q
  | None => false
  end.

(** ** three.js *)

Record Vector3 := vec3 { vx : Q; vy : Q; vz : Q }.
Record Euler := euler { ex : Q; ey : Q; ez : Q }.

Definition Vector3_add (a b : Vector3) : Vector3 :=
  vec3 (vx a + vx b) (vy a + vy b) (vz a + vz b).

(** One entry of the array [Raycaster.intersectObjects] returns. *)
Record Intersection := {
  distance : Q;
  point : Vector3;
  face_normal : Vector3;
  object : nat
}.

(** A raycaster after [set(origin, direction)] and [far = ...]. *)
Record Raycaster := {
  ray_origin : Vector3;
  ray_direction : Vector3;
  far : Q
}.

(** The library functions the weapons call.  [raycast] is what one scene
    object answers to one ray: its intersections no farther than [far]. *)
Class Three := {
  Object3D : Type;
  applyAxisAngle : Vector3 -> Vector3 -> Q -> Vector3;
  normalize : Vector3 -> Vector3;
  raycast : Raycaster -> Object3D -> list Intersection
}.

(** [THREE.MathUtils.degToRad]. *)
Definition degToRad (degrees : Q) : Q := degrees * (JS.Math_PI / 180).

(** [THREE.MathUtils.lerp]. *)
Definition lerp (x y t : Q) : Q :=
  JS.add (JS.mul (JS.sub 1%Q t) x) (JS.mul t y).

(** [Array.prototype.sort((a, b) => a.distance - b.distance)]: a stable
    sort by ascending distance.  [insert_by_distance h l] puts [h] in front
    of the first entry that is not nearer, so that entries at the same
    distance keep the order they had. *)
Fixpoint insert_by_distance (h : Intersection) (l : list Intersection)
  : list Intersection :=
  match l with
  | [] => [h]
  | h' :: l' =>
      if JS.le (distance h) (distance h') then h :: l
      else h' :: insert_by_distance h l'
  end.

Definition sort_by_distance (l : list Intersection) : list Intersection :=
  foldr insert_by_distance [] l.

(** [Raycaster.intersectObjects(objects)]: every object is asked in turn
    and the answers are returned sorted by distance. *)
Definition intersectObjects `{Three} (rc : Raycaster) (objects : list Object3D)
  : list Intersection :=
  sort_by_distance (flat_map (raycast rc) objects).

(** ** Weapon.js *)

(** What a weapon hands to the outside during a call. *)
Record HitResult := {
  hit_object : nat;
  hit_point : Vector3;
  hit_normal : Vector3;
  hit_damage : Z;
  hit_knockback : option Q
}.

Inductive WeaponEvent :=
| PlaySound (which : string)
| ShowImpactEffect (position normal : Vector3)
| HitCallback (hit : HitResult)
| LaunchProjectile (position direction : Vector3).

Record WeaponParams := {
  p_name : option string;
  p_damage : option Q;
  p_cooldown : option Q;
  p_range : option Q;
  p_weight : option Q;
  p_soundUse : bool;
  p_soundReload : bool
}.

Definition no_params : WeaponParams :=
  {| p_name := None; p_damage := None; p_cooldown := None; p_range := None;
     p_weight := None; p_soundUse := false; p_soundReload := false |}.

(** [calculateDamage]'s [modifiers] object. *)
Record Modifiers := {
  critical : bool;
  mod_distance : option Q
}.

Module Weapon.

Local Open Scope Q_scope.

Record t := {
  name : string;
  type : string;
  damage : Q;
  cooldown : Q;
  lastUsed : Q;
  range : Q;
  weight : Q;
  model_rotation : Euler;
  soundEffects_use : bool;
  soundEffects_reload : bool
}.

Definition constructor (type : option string) (params : WeaponParams) : t :=
  {| name := JS.or_str (p_name params) "Unknown Weapon";
     type := JS.or_str type "unknown";
     damage := JS.or_num (p_damage params) 20;
     cooldown := JS.or_num (p_cooldown params) (1 # 2);
     lastUsed := 0;
     range := JS.or_num (p_range params) 2;
     weight := JS.or_num (p_weight params) 1;
     model_rotation := euler 0 0 0;
     soundEffects_use := p_soundUse params;
     soundEffects_reload := p_soundReload params |}.

Definition set_lastUsed (v : Q) (w : t) : t :=
  {| name := name w; type := type w; damage := damage w;
     cooldown := cooldown w; lastUsed := v; range := range w;
     weight := weight w; model_rotation := model_rotation w;
     soundEffects_use := soundEffects_use w;
     soundEffects_reload := soundEffects_reload w |}.

Definition set_model_rotation (r : Euler) (w : t) : t :=
  {| name := name w; type := type w; damage := damage w;
     cooldown := cooldown w; lastUsed := lastUsed w; range := range w;
     weight := weight w; model_rotation := r;
     soundEffects_use := soundEffects_use w;
     soundEffects_reload := soundEffects_reload w |}.

(** [canUse()], with [now] the clock reading in seconds. *)
Definition canUse (now : Q) (w : t) : bool :=
  JS.ge (now - lastUsed w) (cooldown w).

(** [use(position, direction)]: [now] is the reading [canUse] takes,
    [now'] the one stored in [lastUsed]. *)
Definition use (now now' : Q) (w : t) : bool * t * list WeaponEvent :=
  if negb (canUse now w) then (false, w, [])
  else (true, set_lastUsed now' w,
        if soundEffects_use w then [PlaySound "use"] else []).

(** The variable [finalDamage] of [calculateDamage(modifiers)] at the
    [return]. *)
Definition finalDamage (w : t) (modifiers : Modifiers) : Q :=
  let finalDamage := damage w in
  let finalDamage :=
    if critical modifiers then JS.mul finalDamage 2 else finalDamage in
  match mod_distance modifiers with
  | Some d =>
      if JS.truthy d then
        let falloff := JS.Math_max 0 (JS.sub 1 (JS.div d (range w))) in
        JS.mul finalDamage falloff
      else finalDamage
  | None => finalDamage
  end.

(** [calculateDamage(modifiers)]. *)
Definition calculateDamage (w : t) (modifiers : Modifiers) : Z :=
  JS.Math_round (finalDamage w modifiers).

End Weapon.




(** The array literal the code hands to every [intersectObjects] call:
    [raycaster.intersectObjects([])]. *)
Definition no_objects `{Three} : list Object3D := [].

Module MeleeWeapon.

Local Open Scope Q_scope.

Record t := {
  base : Weapon.t;
  swingWidth : Q;
  swingDuration : Q;
  isSwinging : bool;
  swingProgress : Q;
  knockback : Q;
  attackType : string;
  initialRotation : Euler;
  targetRotation : Euler
}.

Record Params := {
  p_base : WeaponParams;
  p_swingWidth : option Q;
  p_swingDuration : option Q;
  p_knockback : option Q;
  p_attackType : option string
}.

Definition constructor (params : Params) : t :=
  let b := p_base params in
  let b' :=
    {| p_name := p_name b;
       p_damage := Some (JS.or_num (p_damage b) 40);
       p_cooldown := Some (JS.or_num (p_cooldown b) (8 # 10));
       p_range := Some (JS.or_num (p_range b) (25 # 10));
       p_weight := p_weight b;
       p_soundUse := p_soundUse b;
       p_soundReload := p_soundReload b |} in
  {| base := Weapon.constructor (Some "melee"%string) b';
     swingWidth := JS.or_num (p_swingWidth params) 90;
     swingDuration := JS.or_num (p_swingDuration params) (JS.fl (3 # 10));
     isSwinging := false;
     swingProgress := 0;
     knockback := JS.or_num (p_knockback params) 2;
     attackType := JS.or_str (p_attackType params) "swing";
     initialRotation := euler 0 0 0;
     targetRotation := euler 0 0 0 |}.

Definition set_base (b : Weapon.t) (w : t) : t :=
  {| base := b; swingWidth := swingWidth w;
     swingDuration := swingDuration w; isSwinging := isSwinging w;
     swingProgress := swingProgress w; knockback := knockback w;
     attackType := attackType w; initialRotation := initialRotation w;
     targetRotation := targetRotation w |}.

Definition set_swing (swinging : bool) (progress : Q) (w : t) : t :=
  {| base := base w; swingWidth := swingWidth w;
     swingDuration := swingDuration w; isSwinging := swinging;
     swingProgress := progress; knockback := knockback w;
     attackType := attackType w; initialRotation := initialRotation w;
     targetRotation := targetRotation w |}.

Definition set_rotations (initial target : Euler) (w : t) : t :=
  {| base := base w; swingWidth := swingWidth w;
     swingDuration := swingDuration w; isSwinging := isSwinging w;
     swingProgress := swingProgress w; knockback := knockback w;
     attackType := attackType w; initialRotation := initial;
     targetRotation := target |}.

(** [const arcSteps = 5]. *)
Definition arcSteps : nat := 5.

(** The angles of the two rays of step [i]: left, then right. *)
Definition leftAngle (arcAngle : Q) (i : nat) : Q :=
  (inject_Z (Z.of_nat i) / inject_Z (Z.of_nat arcSteps)) * (arcAngle / 2).
Definition rightAngle (arcAngle : Q) (i : nat) : Q :=
  (- (inject_Z (Z.of_nat i) / inject_Z (Z.of_nat arcSteps))) * (arcAngle / 2).

(** The angle about the Y axis of every ray, in the order the code casts
    them: the centre ray, then for [i = 1 .. arcSteps] left and right. *)
Definition ray_angles (w : t) : list Q :=
  let arcAngle := degToRad (swingWidth w) in
  0 :: flat_map (fun i => [leftAngle arcAngle i; rightAngle arcAngle i])
         (seq 1 arcSteps).

Section HitDetection.
Context `{Three}.

(** The raycasters of one swing.  The centre ray uses [direction] as it
    is; the others rotate a clone of it about (0, 1, 0). *)
Definition rays (w : t) (position direction : Vector3) : list Raycaster :=
  let arcAngle := degToRad (swingWidth w) in
  let mk d := {| ray_origin := position; ray_direction := d;
                 far := Weapon.range (base w) |} in
  mk direction ::
  flat_map (fun i =>
              [mk (applyAxisAngle direction (vec3 0 1 0) (leftAngle arcAngle i));
               mk (applyAxisAngle direction (vec3 0 1 0) (rightAngle arcAngle i))])
           (seq 1 arcSteps).

(** What the code does with the collected [hits]. *)
Definition processHits (w : t) (hits : list Intersection)
    (hasCallback : bool) : list WeaponEvent :=
  match sort_by_distance hits with
  | [] => []
  | closestHit :: _ =>
      if JS.le (distance closestHit) (Weapon.range (base w)) then
        let damage :=
          Weapon.calculateDamage (base w)
            {| critical := false;
               mod_distance := Some (distance closestHit) |} in
        ShowImpactEffect (point closestHit) (face_normal closestHit) ::
        (if hasCallback then
           [HitCallback {| hit_object := object closestHit;
                           hit_point := point closestHit;
                           hit_normal := face_normal closestHit;
                           hit_damage := damage;
                           hit_knockback := Some (knockback w) |}]
         else [])
      else []
  end.

(** The body of [performHitDetection] with the array every
    [intersectObjects] call is given as the parameter [objects]. *)
Definition performHitDetection_on (objects : list Object3D) (w : t)
    (position direction : Vector3) (hasCallback : bool)
  : list WeaponEvent :=
  let hits :=
    flat_map (fun rc => intersectObjects rc objects)
             (rays w position direction) in
  processHits w hits hasCallback.

(** [performHitDetection(position, direction, hitCallback)]: the code
    passes the empty array. *)
Definition performHitDetection (w : t) (position direction : Vector3)
    (hasCallback : bool) : list WeaponEvent :=
  performHitDetection_on no_objects w position direction hasCallback.

(** [use(position, direction, hitCallback)]. *)
Definition use (now now' : Q) (position direction : Vector3)
    (hasCallback : bool) (w : t) : bool * t * list WeaponEvent :=
  match Weapon.use now now' (base w) with
  | (false, _, _) => (false, w, [])
  | (true, b, evs) =>
      let w := set_base b w in
      let w := set_swing true 0 w in
      let initial := Weapon.model_rotation (base w) in
      let target :=
        euler (ex initial - JS.Math_PI * (25 # 100))
              (ey initial)
              (ez initial +
               (if String.eqb (attackType w) "swing"
                then JS.Math_PI * (5 # 10) else 0)) in
      let w := set_rotations initial target w in
      (true, w, evs ++ performHitDetection w position direction hasCallback)
  end.

End HitDetection.

(** [update(deltaTime)]: the swing animation. *)
Definition update (deltaTime : Q) (w : t) : t :=
  if isSwinging w then
    let progress :=
      JS.add (swingProgress w) (JS.div deltaTime (swingDuration w)) in
    if JS.ge progress 1 then
      set_base (Weapon.set_model_rotation (initialRotation w) (base w))
               (set_swing false 0 w)
    else
      let t := progress in
      let ease := if JS.lt t (5 # 10) then JS.mul (JS.mul 2 t) t
                  else JS.add (-1) (JS.mul (JS.sub 4 (JS.mul 2 t)) t) in
      let r := Weapon.model_rotation (base w) in
      let r' := euler (lerp (ex (initialRotation w)) (ex (targetRotation w)) ease)
                      (ey r)
                      (lerp (ez (initialRotation w)) (ez (targetRotation w)) ease) in
      set_base (Weapon.set_model_rotation r' (base w))
               (set_swing true progress w)
  else w.

End MeleeWeapon.

Module RangedWeapon.

Local Open Scope Q_scope.

Record t := {
  base : Weapon.t;
  ammo_current : Z;
  ammo_max : Z;
  ammo_reserve : Z;
  fireMode : string;
  reloadTime : Q;
  isReloading : bool;
  reloadProgress : Q;
  accuracy : Q;
  useProjectile : bool;
  muzzleFlash_visible : bool
}.

Record Params := {
  p_base : WeaponParams;
  p_startAmmo : option Z;
  p_maxAmmo : option Z;
  p_reserveAmmo : option Z;
  p_fireMode : option string;
  p_reloadTime : option Q;
  p_accuracy : option Q;
  p_useProjectile : bool
}.

Definition constructor (params : Params) : t :=
  let b := p_base params in
  let b' :=
    {| p_name := p_name b;
       p_damage := Some (JS.or_num (p_damage b) 25);
       p_cooldown := Some (JS.or_num (p_cooldown b) (1 # 10));
       p_range := Some (JS.or_num (p_range b) 100);
       p_weight := p_weight b;
       p_soundUse := p_soundUse b;
       p_soundReload := p_soundReload b |} in
  {| base := Weapon.constructor (Some "ranged"%string) b';
     ammo_current := JS.or_int (p_startAmmo params) 30;
     ammo_max := JS.or_int (p_maxAmmo params) 30;
     ammo_reserve := JS.or_int (p_reserveAmmo params) 90;
     fireMode := JS.or_str (p_fireMode params) "semi";
     reloadTime := JS.or_num (p_reloadTime params) 2;
     isReloading := false;
     reloadProgress := 0;
     accuracy := JS.or_num (p_accuracy params) (95 # 100);
     useProjectile := p_useProjectile params;
     muzzleFlash_visible := false |}.

Definition set_base (b : Weapon.t) (w : t) : t :=
  {| base := b; ammo_current := ammo_current w; ammo_max := ammo_max w;
     ammo_reserve := ammo_reserve w; fireMode := fireMode w;
     reloadTime := reloadTime w; isReloading := isReloading w;
     reloadProgress := reloadProgress w; accuracy := accuracy w;
     useProjectile := useProjectile w;
     muzzleFlash_visible := muzzleFlash_visible w |}.

Definition set_ammo (current reserve : Z) (w : t) : t :=
  {| base := base w; ammo_current := current; ammo_max := ammo_max w;
     ammo_reserve := reserve; fireMode := fireMode w;
     reloadTime := reloadTime w; isReloading := isReloading w;
     reloadProgress := reloadProgress w; accuracy := accuracy w;
     useProjectile := useProjectile w;
     muzzleFlash_visible := muzzleFlash_visible w |}.

Definition set_reload (reloading : bool) (progress : Q) (w : t) : t :=
  {| base := base w; ammo_current := ammo_current w; ammo_max := ammo_max w;
     ammo_reserve := ammo_reserve w; fireMode := fireMode w;
     reloadTime := reloadTime w; isReloading := reloading;
     reloadProgress := progress; accuracy := accuracy w;
     useProjectile := useProjectile w;
     muzzleFlash_visible := muzzleFlash_visible w |}.

Definition set_muzzleFlash (visible : bool) (w : t) : t :=
  {| base := base w; ammo_current := ammo_current w; ammo_max := ammo_max w;
     ammo_reserve := ammo_reserve w; fireMode := fireMode w;
     reloadTime := reloadTime w; isReloading := isReloading w;
     reloadProgress := reloadProgress w; accuracy := accuracy w;
     useProjectile := useProjectile w;
     muzzleFlash_visible := visible |}.

(** [reload()]. *)
Definition reload (w : t) : bool * t * list WeaponEvent :=
  if isReloading w || Z.eqb (ammo_current w) (ammo_max w)
     || Z.leb (ammo_reserve w) 0
  then (false, w, [])
  else (true, set_reload true 0 w,
        if Weapon.soundEffects_reload (base w) then [PlaySound "reload"]
        else []).

Section Firing.
Context `{Three}.

(** The body of [performRaycast] with the array [intersectObjects] is
    given as the parameter [objects]. *)
Definition performRaycast_on (objects : list Object3D) (w : t)
    (position direction : Vector3) (hasCallback : bool)
  : list WeaponEvent :=
  let rc := {| ray_origin := position; ray_direction := direction;
               far := Weapon.range (base w) |} in
  match intersectObjects rc objects with
  | [] => []
  | hit :: _ =>
      let damage :=
        Weapon.calculateDamage (base w)
          {| critical := false; mod_distance := Some (distance hit) |} in
      ShowImpactEffect (point hit) (face_normal hit) ::
      (if hasCallback then
         [HitCallback {| hit_object := object hit;
                         hit_point := point hit;
                         hit_normal := face_normal hit;
                         hit_damage := damage;
                         hit_knockback := None |}]
       else [])
  end.

(** [performRaycast(position, direction, hitCallback)]. *)
Definition performRaycast (w : t) (position direction : Vector3)
    (hasCallback : bool) : list WeaponEvent :=
  performRaycast_on no_objects w position direction hasCallback.

(** [use(position, direction, hitCallback)].  [random] holds the three
    readings of [Math.random()] the spread takes. *)
Definition use (now now' : Q) (random : Vector3)
    (position direction : Vector3) (hasCallback : bool) (w : t)
  : bool * t * list WeaponEvent :=
  if isReloading w then (false, w, [])
  else if Z.leb (ammo_current w) 0 then
    let '(_, w', evs) := reload w in (false, w', evs)
  else
    match Weapon.use now now' (base w) with
    | (false, _, _) => (false, w, [])
    | (true, b, evs) =>
        let w := set_base b w in
        let w := set_ammo (ammo_current w - 1) (ammo_reserve w) w in
        let spread := (1 - accuracy w) * (1 # 10) in
        let deviation :=
          vec3 ((vx random - (5 # 10)) * spread)
               ((vy random - (5 # 10)) * spread)
               ((vz random - (5 # 10)) * spread) in
        let finalDirection := normalize (Vector3_add direction deviation) in
        let w := set_muzzleFlash true w in
        (true, w,
         evs ++
         (if useProjectile w then [LaunchProjectile position finalDirection]
          else performRaycast w position finalDirection hasCallback))
    end.

End Firing.

(** [update(deltaTime)]: reload progress and completion. *)
Definition update (deltaTime : Q) (w : t) : t :=
  if isReloading w then
    let progress :=
      JS.add (reloadProgress w) (JS.div deltaTime (reloadTime w)) in
    if JS.ge progress 1 then
      let w := set_reload false progress w in
      let ammoNeeded := (ammo_max w - ammo_current w)%Z in
      let ammoAvailable := Z.min ammoNeeded (ammo_reserve w) in
      set_ammo (ammo_current w + ammoAvailable)
               (ammo_reserve w - ammoAvailable) w
    else set_reload true progress w
  else w.

End RangedWeapon.

(** The default melee weapon of the constructor: damage 40, range 2.5. *)
Definition default_melee : MeleeWeapon.t :=
  MeleeWeapon.constructor
    {| MeleeWeapon.p_base := no_params;
       MeleeWeapon.p_swingWidth := None;
       MeleeWeapon.p_swingDuration := None;
       MeleeWeapon.p_knockback := None;
       MeleeWeapon.p_attackType := None |}.

(** A weapon object: an instance of one of the two subclasses. *)
Inductive AnyWeapon :=
| Melee (w : MeleeWeapon.t)
| Ranged (w : RangedWeapon.t).

(** [weapon.use(...)] on a weapon of either class: the method the object's
    class provides is the one that runs. *)
Definition AnyWeapon_use `{Three} (now now' : Q) (random : Vector3)
    (position direction : Vector3) (hasCallback : bool) (w : AnyWeapon)
  : bool * AnyWeapon * list WeaponEvent :=
  match w with
  | Melee m =>
      let '(ok, m', evs) :=
        MeleeWeapon.use now now' position direction hasCallback m in
      (ok, Melee m', evs)
  | Ranged r =>
      let '(ok, r', evs) :=
        RangedWeapon.use now now' random position direction hasCallback r in
      (ok, Ranged r', evs)
  end.

(** The fields shared by both classes. *)
Definition AnyWeapon_base (w : AnyWeapon) : Weapon.t :=
  match w with
  | Melee m => MeleeWeapon.base m
  | Ranged r => RangedWeapon.base r
  end.

(** The ammunition of a weapon: current and reserve; a melee weapon has
    none. *)
Definition AnyWeapon_ammo (w : AnyWeapon) : option (Z * Z) :=
  match w with
  | Melee _ => None
  | Ranged r => Some (RangedWeapon.ammo_current r, RangedWeapon.ammo_reserve r)
  end.

(** The swing state of a weapon: the flag and the progress; a ranged weapon
    has none. *)
Definition AnyWeapon_swing (w : AnyWeapon) : option (bool * Q) :=
  match w with
  | Melee m => Some (MeleeWeapon.isSwinging m, MeleeWeapon.swingProgress m)
  | Ranged _ => None
  end.

(** The reloading flag of a weapon; a melee weapon has none. *)
Definition AnyWeapon_reloading (w : AnyWeapon) : option bool :=
  match w with
  | Melee _ => None
  | Ranged r => Some (RangedWeapon.isReloading r)
  end.

(** The condition under which [RangedWeapon.use] reaches [reload()] and
    [reload()] goes through: the weapon is ranged and not reloading, the
    magazine is empty and is not the full magazine, the reserve is not. *)
Definition auto_reloads (w : AnyWeapon) : bool :=
  match w with
  | Melee _ => false
  | Ranged r =>
      negb (RangedWeapon.isReloading r)
      && (RangedWeapon.ammo_current r <=? 0)%Z
      && negb (RangedWeapon.ammo_current r =? RangedWeapon.ammo_max r)%Z
      && (0 <? RangedWeapon.ammo_reserve r)%Z
  end.

(** The calls made on a ranged weapon. *)
Inductive RangedOp :=
| RUse (now now' : Q) (random position direction : Vector3) (hasCallback : bool)
| RReload
| RUpdate (deltaTime : Q).

Definition RangedWeapon_step `{Three} (w : RangedWeapon.t) (op : RangedOp)
  : RangedWeapon.t :=
  match op with
  | RUse now now' random position direction cb =>
      snd (fst (RangedWeapon.use now now' random position direction cb w))
  | RReload => snd (fst (RangedWeapon.reload w))
  | RUpdate dt => RangedWeapon.update dt w
  end.

Definition RangedWeapon_run `{Three} (ops : list RangedOp) (w : RangedWeapon.t)
  : RangedWeapon.t :=
  foldl RangedWeapon_step w ops.

(** The rounds a ranged weapon holds in all. *)
Definition total_ammo (w : RangedWeapon.t) : Z :=
  (RangedWeapon.ammo_current w + RangedWeapon.ammo_reserve w)%Z.

(** A world for examples: an object is a wall straight across every ray,
    [wall_distance] away, hit by a ray when within the ray's [far]. *)
Record Wall := { wall_id : nat; wall_distance : Q }.

Definition wall_raycast (rc : Raycaster) (o : Wall) : list Intersection :=
  if JS.le (wall_distance o) (far rc) then
    [{| distance := wall_distance o;
        point := vec3 (vx (ray_origin rc)) (vy (ray_origin rc))
                      (vz (ray_origin rc) - wall_distance o);
        face_normal := vec3 0 0 1;
        object := wall_id o |}]
  else [].

#[local] Instance wall_world : Three :=
  {| Object3D := Wall;
     applyAxisAngle := fun v _ _ => v;
     normalize := fun v => v;
     raycast := wall_raycast |}.

(** A one-round pistol: magazine of 1, 48 rounds in reserve. *)
Definition one_round_pistol : RangedWeapon.t :=
  RangedWeapon.constructor
    {| RangedWeapon.p_base := no_params;
       RangedWeapon.p_startAmmo := Some 1%Z;
       RangedWeapon.p_maxAmmo := Some 1%Z;
       RangedWeapon.p_reserveAmmo := Some 48%Z;
       RangedWeapon.p_fireMode := None;
       RangedWeapon.p_reloadTime := None;
       RangedWeapon.p_accuracy := None;
       RangedWeapon.p_useProjectile := false |}.

Definition origin : Vector3 := vec3 0 0 0.
Definition forward : Vector3 := vec3 0 0 (-1).

(** The pistol after its one round was fired at second 10. *)
Definition emptied_pistol : RangedWeapon.t :=
  snd (fst (RangedWeapon.use 10 10 origin origin forward true one_round_pistol)).

(** ** Effects.js *)

Module EffectsManager.

Local Open Scope Q_scope.

(** One entry of [activeEffects].  [object] stands for the three.js
    object of the effect (a fresh number per effect); the closure
    [update] of the entry is [Effect_update] below. *)
Record Effect := {
  type : string;
  object : nat;
  lifetime : Q;
  age : Q
}.

Record t := {
  scene : list nat;
  activeEffects : list Effect;
  maxParticleSystems : Z;
  maxDecals : Z;
  particleCount : Z;
  decalCount : Z;
  nextObject : nat
}.

Definition constructor : t :=
  {| scene := []; activeEffects := [];
     maxParticleSystems := 20; maxDecals := 50;
     particleCount := 0; decalCount := 0; nextObject := 0 |}.

Definition set_age (a : Q) (e : Effect) : Effect :=
  {| type := type e; object := object e; lifetime := lifetime e; age := a |}.

(** [effect.update(deltaTime)] of either kind, as far as the entry itself
    goes: the age advances and the call answers whether the effect is
    over. *)
Definition Effect_update (deltaTime : Q) (e : Effect) : bool * Effect :=
  let e' := set_age (age e + deltaTime) e in
  (JS.ge (age e') (lifetime e'), e').

(** [scene.remove(o)]. *)
Definition scene_remove (o : nat) (sc : list nat) : list nat :=
  filter (fun x => x <> o) sc.

(** [if (type === 'particle') this.particleCount--;
     if (type === 'decal') this.decalCount--;] *)
Definition decrement (ty : string) (m : t) : t :=
  {| scene := scene m; activeEffects := activeEffects m;
     maxParticleSystems := maxParticleSystems m; maxDecals := maxDecals m;
     particleCount := if String.eqb ty "particle"
                      then (particleCount m - 1)%Z else particleCount m;
     decalCount := if String.eqb ty "decal"
                   then (decalCount m - 1)%Z else decalCount m;
     nextObject := nextObject m |}.

Definition set_activeEffects (l : list Effect) (m : t) : t :=
  {| scene := scene m; activeEffects := l;
     maxParticleSystems := maxParticleSystems m; maxDecals := maxDecals m;
     particleCount := particleCount m; decalCount := decalCount m;
     nextObject := nextObject m |}.

Definition set_scene (sc : list nat) (m : t) : t :=
  {| scene := sc; activeEffects := activeEffects m;
     maxParticleSystems := maxParticleSystems m; maxDecals := maxDecals m;
     particleCount := particleCount m; decalCount := decalCount m;
     nextObject := nextObject m |}.

(** The search loop of [removeOldestEffect]: [i] is the index of the head
    of [effects], [oldestIndex] and [oldestAge] the loop variables. *)
Fixpoint findOldest (ty : string) (effects : list Effect) (i : Z)
    (oldestIndex : Z) (oldestAge : Q) : Z :=
  match effects with
  | [] => oldestIndex
  | effect :: rest =>
      if String.eqb (type effect) ty && JS.gt (age effect) oldestAge
      then findOldest ty rest (i + 1) i (age effect)
      else findOldest ty rest (i + 1) oldestIndex oldestAge
  end.

(** [removeOldestEffect(type)]. *)
Definition removeOldestEffect (ty : string) (m : t) : t :=
  let oldestIndex := findOldest ty (activeEffects m) 0 (-1) 0 in
  if (0 <=? oldestIndex)%Z then
    match activeEffects m !! Z.to_nat oldestIndex with
    | Some effect =>
        let m := set_scene (scene_remove (object effect) (scene m)) m in
        let m := set_activeEffects
                   (delete (Z.to_nat oldestIndex) (activeEffects m)) m in
        decrement ty m
    | None => m
    end
  else m.

(** The common tail of the two spawn methods: the new object joins the
    scene, the new entry is pushed and the counter of its kind grows. *)
Definition push_effect (ty : string) (life : Q) (m : t) : t :=
  let o := nextObject m in
  let effect := {| type := ty; object := o; lifetime := life; age := 0 |} in
  {| scene := scene m ++ [o];
     activeEffects := activeEffects m ++ [effect];
     maxParticleSystems := maxParticleSystems m; maxDecals := maxDecals m;
     particleCount := if String.eqb ty "particle"
                      then (particleCount m + 1)%Z else particleCount m;
     decalCount := if String.eqb ty "decal"
                   then (decalCount m + 1)%Z else decalCount m;
     nextObject := S o |}.

(** [createBloodParticles(position, normal, intensity)]. *)
Definition createBloodParticles (m : t) : t :=
  let m := if (maxParticleSystems m <=? particleCount m)%Z
           then removeOldestEffect "particle" m else m in
  push_effect "particle" 2 m.

(** [createBloodSplatter(position, normal, size)]. *)
Definition createBloodSplatter (m : t) : t :=
  let m := if (maxDecals m <=? decalCount m)%Z
           then removeOldestEffect "decal" m else m in
  push_effect "decal" 30 m.

(** [createBloodImpact(position, normal, intensity)]. *)
Definition createBloodImpact (intensity : Q) (m : t) : t :=
  let m := createBloodParticles m in
  let m := createBloodSplatter m in
  if JS.gt intensity (7 # 10) then
    let extraSplatters := JS.Math_floor ((intensity - (7 # 10)) * 6) in
    Nat.iter (Z.to_nat extraSplatters) createBloodSplatter m
  else m.

(** One turn of the loop of [update] at index [i]. *)
Definition update_step (deltaTime : Q) (i : nat) (m : t) : t :=
  match activeEffects m !! i with
  | None => m
  | Some effect =>
      let '(completed, effect') := Effect_update deltaTime effect in
      let m := set_activeEffects (<[i := effect']> (activeEffects m)) m in
      if completed then
        let m := set_scene (scene_remove (object effect') (scene m)) m in
        let m := decrement (type effect') m in
        set_activeEffects (delete i (activeEffects m)) m
      else m
  end.

(** [for (let i = n - 1; i >= 0; i--)]. *)
Fixpoint update_loop (deltaTime : Q) (n : nat) (m : t) : t :=
  match n with
  | O => m
  | S i => update_loop deltaTime i (update_step deltaTime i m)
  end.

(** [update(deltaTime)]. *)
Definition update (deltaTime : Q) (m : t) : t :=
  update_loop deltaTime (length (activeEffects m)) m.

(** [clearAllEffects()]. *)
Definition clearAllEffects (m : t) : t :=
  {| scene := foldl (fun sc e => scene_remove (object e) sc)
                    (scene m) (activeEffects m);
     activeEffects := [];
     maxParticleSystems := maxParticleSystems m; maxDecals := maxDecals m;
     particleCount := 0; decalCount := 0;
     nextObject := nextObject m |}.

(** The number of entries of a kind in a list, and in a manager. *)
Definition count (ty : string) (l : list Effect) : Z :=
  Z.of_nat (length (filter (fun e => type e = ty) l)).

Definition live (ty : string) (m : t) : Z := count ty (activeEffects m).

(** The calls a client can make. *)
Inductive Op :=
| CreateBloodParticles
| CreateBloodSplatter
| CreateBloodImpact (intensity : Q)
| RemoveOldestEffect (ty : string)
| Update (deltaTime : Q)
| ClearAllEffects.

Definition step (m : t) (op : Op) : t :=
  match op with
  | CreateBloodParticles => createBloodParticles m
  | CreateBloodSplatter => createBloodSplatter m
  | CreateBloodImpact i => createBloodImpact i m
  | RemoveOldestEffect ty => removeOldestEffect ty m
  | Update dt => update dt m
  | ClearAllEffects => clearAllEffects m
  end.

Definition run (ops : list Op) (m : t) : t := foldl step m ops.

End EffectsManager.

(** The counters tell the truth: each equals the number of entries of its
    kind. *)
Definition counters_agree (m : EffectsManager.t) : Prop :=
  EffectsManager.particleCount m = EffectsManager.live "particle" m /\
  EffectsManager.decalCount m = EffectsManager.live "decal" m.

(** ** Player.js *)

(** What the player writes to the console and to the page. *)
Inductive PlayerEvent :=
| ConsoleLog (line : string)
| AmmoUI (current reserve : option Z)
| ImpactMark (position normal : Vector3)
| EnemyDamage (enemy : nat) (amount : Z)
| OfWeapon (e : WeaponEvent).

(** The part of the input controller [Player.update] reads, without the
    movement keys. *)
Record Input := {
  movementX : Q;
  movementY : Q;
  leftButton : bool;
  key_reload : bool;
  key_nextWeapon : bool;
  key_previousWeapon : bool
}.

(** What a call of [useWeapon] reads from its surroundings: the two clock
    readings, the three random numbers, and the camera. *)
Record Surroundings := {
  now : Q;
  now' : Q;
  random : Vector3;
  camera_position : Vector3;
  camera_direction : Vector3;
  isEnemy : nat -> bool
}.

Module Player.

Local Open Scope Q_scope.

(** The entries of [weapons] are taken to be distinct objects. *)
Record t := {
  health : Q;
  rotationSpeed : Q;
  lookVerticalMin : Q;
  lookVerticalMax : Q;
  currentLookVertical : Q;
  playerBody_rotation_y : Q;
  camera_rotation_x : Q;
  weapons : list AnyWeapon;
  currentWeaponIndex : Z;
  (** [weaponContainer.children]: the attached weapon models, each named
      by the position of its weapon in [weapons]. *)
  weaponContainer : list nat;
  effectsManager : EffectsManager.t;
  (** Everything written to the console and the page so far. *)
  output : list PlayerEvent
}.

Definition set_health (h : Q) (p : t) : t :=
  {| health := h; rotationSpeed := rotationSpeed p;
     lookVerticalMin := lookVerticalMin p;
     lookVerticalMax := lookVerticalMax p;
     currentLookVertical := currentLookVertical p;
     playerBody_rotation_y := playerBody_rotation_y p;
     camera_rotation_x := camera_rotation_x p;
     weapons := weapons p; currentWeaponIndex := currentWeaponIndex p;
     weaponContainer := weaponContainer p;
     effectsManager := effectsManager p; output := output p |}.

Definition set_look (look camera_x : Q) (p : t) : t :=
  {| health := health p; rotationSpeed := rotationSpeed p;
     lookVerticalMin := lookVerticalMin p;
     lookVerticalMax := lookVerticalMax p;
     currentLookVertical := look;
     playerBody_rotation_y := playerBody_rotation_y p;
     camera_rotation_x := camera_x;
     weapons := weapons p; currentWeaponIndex := currentWeaponIndex p;
     weaponContainer := weaponContainer p;
     effectsManager := effectsManager p; output := output p |}.

Definition set_body_rotation_y (y : Q) (p : t) : t :=
  {| health := health p; rotationSpeed := rotationSpeed p;
     lookVerticalMin := lookVerticalMin p;
     lookVerticalMax := lookVerticalMax p;
     currentLookVertical := currentLookVertical p;
     playerBody_rotation_y := y;
     camera_rotation_x := camera_rotation_x p;
     weapons := weapons p; currentWeaponIndex := currentWeaponIndex p;
     weaponContainer := weaponContainer p;
     effectsManager := effectsManager p; output := output p |}.

Definition set_weapons (ws : list AnyWeapon) (p : t) : t :=
  {| health := health p; rotationSpeed := rotationSpeed p;
     lookVerticalMin := lookVerticalMin p;
     lookVerticalMax := lookVerticalMax p;
     currentLookVertical := currentLookVertical p;
     playerBody_rotation_y := playerBody_rotation_y p;
     camera_rotation_x := camera_rotation_x p;
     weapons := ws; currentWeaponIndex := currentWeaponIndex p;
     weaponContainer := weaponContainer p;
     effectsManager := effectsManager p; output := output p |}.

Definition set_currentWeaponIndex (i : Z) (p : t) : t :=
  {| health := health p; rotationSpeed := rotationSpeed p;
     lookVerticalMin := lookVerticalMin p;
     lookVerticalMax := lookVerticalMax p;
     currentLookVertical := currentLookVertical p;
     playerBody_rotation_y := playerBody_rotation_y p;
     camera_rotation_x := camera_rotation_x p;
     weapons := weapons p; currentWeaponIndex := i;
     weaponContainer := weaponContainer p;
     effectsManager := effectsManager p; output := output p |}.

Definition set_weaponContainer (c : list nat) (p : t) : t :=
  {| health := health p; rotationSpeed := rotationSpeed p;
     lookVerticalMin := lookVerticalMin p;
     lookVerticalMax := lookVerticalMax p;
     currentLookVertical := currentLookVertical p;
     playerBody_rotation_y := playerBody_rotation_y p;
     camera_rotation_x := camera_rotation_x p;
     weapons := weapons p; currentWeaponIndex := currentWeaponIndex p;
     weaponContainer := c;
     effectsManager := effectsManager p; output := output p |}.

Definition set_effectsManager (m : EffectsManager.t) (p : t) : t :=
  {| health := health p; rotationSpeed := rotationSpeed p;
     lookVerticalMin := lookVerticalMin p;
     lookVerticalMax := lookVerticalMax p;
     currentLookVertical := currentLookVertical p;
     playerBody_rotation_y := playerBody_rotation_y p;
     camera_rotation_x := camera_rotation_x p;
     weapons := weapons p; currentWeaponIndex := currentWeaponIndex p;
     weaponContainer := weaponContainer p;
     effectsManager := m; output := output p |}.

Definition emit (evs : list PlayerEvent) (p : t) : t :=
  {| health := health p; rotationSpeed := rotationSpeed p;
     lookVerticalMin := lookVerticalMin p;
     lookVerticalMax := lookVerticalMax p;
     currentLookVertical := currentLookVertical p;
     playerBody_rotation_y := playerBody_rotation_y p;
     camera_rotation_x := camera_rotation_x p;
     weapons := weapons p; currentWeaponIndex := currentWeaponIndex p;
     weaponContainer := weaponContainer p;
     effectsManager := effectsManager p; output := output p ++ evs |}.

(** [addWeapon(weapon)]. *)
Definition addWeapon (weapon : AnyWeapon) (p : t) : Z * t :=
  let p := set_weapons (weapons p ++ [weapon]) p in
  ((Z.of_nat (length (weapons p)) - 1)%Z, p).

(** [getCurrentWeapon()]; [null] and [undefined] are both [None]. *)
Definition getCurrentWeapon (p : t) : option AnyWeapon :=
  if Nat.eqb (length (weapons p)) 0 then None
  else if (currentWeaponIndex p <? 0)%Z then None
  else weapons p !! Z.to_nat (currentWeaponIndex p).

(** [updateAmmoUI(current, reserve)]; [None] is the string ['-']. *)
Definition updateAmmoUI (current reserve : option Z) (p : t) : t :=
  emit [AmmoUI current reserve] p.

(** [equipWeapon(index)]. *)
Definition equipWeapon (index : Z) (p : t) : bool * t :=
  if (index <? 0)%Z || (Z.of_nat (length (weapons p)) <=? index)%Z
  then (false, p)
  else
    let p := set_weaponContainer [] p in
    let p := set_currentWeaponIndex index p in
    match getCurrentWeapon p with
    | Some weaponToEquip =>
        let p := set_weaponContainer
                   (weaponContainer p ++ [Z.to_nat index]) p in
        let p :=
          match weaponToEquip with
          | Ranged r =>
              updateAmmoUI (Some (RangedWeapon.ammo_current r))
                           (Some (RangedWeapon.ammo_reserve r)) p
          | Melee _ => updateAmmoUI None None p
          end in
        (true, p)
    | None => (false, p)
    end.

(** [nextWeapon()]. *)
Definition nextWeapon (p : t) : bool * t :=
  let n := Z.of_nat (length (weapons p)) in
  if (n <=? 1)%Z then (false, p)
  else equipWeapon (Z.rem (currentWeaponIndex p + 1) n) p.

(** [previousWeapon()]. *)
Definition previousWeapon (p : t) : bool * t :=
  let n := Z.of_nat (length (weapons p)) in
  if (n <=? 1)%Z then (false, p)
  else equipWeapon (Z.rem (currentWeaponIndex p - 1 + n) n) p.

(** [weapons[currentWeaponIndex]], mutated in place by its own methods. *)
Definition store_current (w : AnyWeapon) (p : t) : t :=
  set_weapons (<[Z.to_nat (currentWeaponIndex p) := w]> (weapons p)) p.

(** [handleWeaponHit(hit)]. *)
Definition handleWeaponHit (isEnemy : nat -> bool) (hit : HitResult)
    (p : t) : t :=
  if isEnemy (hit_object hit) then
    let p := emit [EnemyDamage (hit_object hit) (hit_damage hit)] p in
    let intensity := inject_Z (hit_damage hit) / 100 in
    set_effectsManager
      (EffectsManager.createBloodImpact intensity (effectsManager p)) p
  else
    emit [ImpactMark (hit_point hit) (hit_normal hit)] p.

(** The weapon's events as the player sees them: the hit callback runs
    [handleWeaponHit], everything else is passed on. *)
Definition handle_event (isEnemy : nat -> bool) (p : t) (e : WeaponEvent)
  : t :=
  match e with
  | HitCallback hit => handleWeaponHit isEnemy hit p
  | _ => emit [OfWeapon e] p
  end.

(** [takeDamage(amount)]. *)
Definition takeDamage (amount : Q) (p : t) : t :=
  let p := set_health (health p - amount) p in
  if JS.le (health p) 0 then emit [ConsoleLog "Player died"] p else p.

(** [updateLook(deltaX, deltaY, deltaTime)]. *)
Definition updateLook (deltaX deltaY deltaTime : Q) (p : t) : t :=
  let p :=
    if negb (Qeq_bool deltaX 0) then
      set_body_rotation_y
        (playerBody_rotation_y p - deltaX * rotationSpeed p * deltaTime) p
    else p in
  if negb (Qeq_bool deltaY 0) then
    let look := currentLookVertical p + deltaY * rotationSpeed p * deltaTime in
    let look := JS.Math_max (lookVerticalMin p)
                            (JS.Math_min (lookVerticalMax p) look) in
    set_look look look p
  else p.

(** [reloadWeapon()]. *)
Definition reloadWeapon (p : t) : bool * t :=
  match getCurrentWeapon p with
  | Some (Ranged r) =>
      let '(result, r', evs) := RangedWeapon.reload r in
      let p := store_current (Ranged r') p in
      let p := emit (map OfWeapon evs) p in
      if result then (true, emit [ConsoleLog "Reloading weapon..."] p)
      else (false, p)
  | _ => (false, p)
  end.

Section WithThree.
Context `{Three}.

(** [useWeapon()]. *)
Definition useWeapon (s : Surroundings) (p : t) : bool * t :=
  match getCurrentWeapon p with
  | None => (false, p)
  | Some (Melee m) =>
      let '(result, m', evs) :=
        MeleeWeapon.use (now s) (now' s) (camera_position s)
                        (camera_direction s) true m in
      let p := store_current (Melee m') p in
      (result, foldl (handle_event (isEnemy s)) p evs)
  | Some (Ranged r) =>
      let '(result, r', evs) :=
        RangedWeapon.use (now s) (now' s) (random s) (camera_position s)
                         (camera_direction s) true r in
      let p := store_current (Ranged r') p in
      let p := foldl (handle_event (isEnemy s)) p evs in
      if result then
        (true, updateAmmoUI (Some (RangedWeapon.ammo_current r'))
                            (Some (RangedWeapon.ammo_reserve r')) p)
      else (false, p)
  end.

(** [update(input, deltaTime)] without the movement and physics part. *)
Definition update (input : option Input) (s : Surroundings)
    (deltaTime : Q) (p : t) : t :=
  match input with
  | None => p
  | Some input =>
      let p := updateLook (movementX input) (movementY input) deltaTime p in
      let p := if leftButton input then snd (useWeapon s p) else p in
      let p := if key_reload input then snd (reloadWeapon p) else p in
      let p :=
        match getCurrentWeapon p with
        | Some (Melee m) =>
            store_current (Melee (MeleeWeapon.update deltaTime m)) p
        | Some (Ranged r) =>
            store_current (Ranged (RangedWeapon.update deltaTime r)) p
        | None => p
        end in
      let p := if key_nextWeapon input then snd (nextWeapon p) else p in
      let p := if key_previousWeapon input
               then snd (previousWeapon p) else p in
      set_effectsManager
        (EffectsManager.update deltaTime (effectsManager p)) p
  end.

End WithThree.

(** The weapons [initializeWeapons] hands out. *)
Definition ranged_params (name : string) (damage cooldown range : Q)
    (startAmmo maxAmmo reserveAmmo : Z) (reloadTime accuracy : Q)
  : RangedWeapon.Params :=
  {| RangedWeapon.p_base :=
       {| p_name := Some name; p_damage := Some damage;
          p_cooldown := Some cooldown; p_range := Some range;
          p_weight := None; p_soundUse := false; p_soundReload := false |};
     RangedWeapon.p_startAmmo := Some startAmmo;
     RangedWeapon.p_maxAmmo := Some maxAmmo;
     RangedWeapon.p_reserveAmmo := Some reserveAmmo;
     RangedWeapon.p_fireMode := None;
     RangedWeapon.p_reloadTime := Some reloadTime;
     RangedWeapon.p_accuracy := Some accuracy;
     RangedWeapon.p_useProjectile := false |}.

Definition melee_params (name : string) (damage cooldown range : Q)
    (attackType : string) (knockback : Q) : MeleeWeapon.Params :=
  {| MeleeWeapon.p_base :=
       {| p_name := Some name; p_damage := Some damage;
          p_cooldown := Some cooldown; p_range := Some range;
          p_weight := None; p_soundUse := false; p_soundReload := false |};
     MeleeWeapon.p_swingWidth := None;
     MeleeWeapon.p_swingDuration := None;
     MeleeWeapon.p_knockback := Some knockback;
     MeleeWeapon.p_attackType := Some attackType |}.

Definition initial_weapons : list AnyWeapon :=
  [ Ranged (RangedWeapon.constructor
      (ranged_params "Assault Rifle" 20 (1 # 10) 100 30 30 90 2 (9 # 10)));
    Ranged (RangedWeapon.constructor
      (ranged_params "Shotgun" 80 (8 # 10) 20 8 8 24 (25 # 10) (7 # 10)));
    Ranged (RangedWeapon.constructor
      (ranged_params "Sniper Rifle" 120 (12 # 10) 200 5 5 15 3 (99 # 100)));
    Melee (MeleeWeapon.constructor
      (melee_params "Combat Knife" 40 (5 # 10) 2 "thrust" 1));
    Melee (MeleeWeapon.constructor
      (melee_params "Fire Axe" 75 (12 # 10) (25 # 10) "swing" 3)) ].

(** [initializeWeapons()]. *)
Definition initializeWeapons (p : t) : t :=
  let p := foldl (fun p w => snd (addWeapon w p)) p initial_weapons in
  snd (equipWeapon 0 p).

(** [new Player(...)]. *)
Definition constructor : t :=
  initializeWeapons
    {| health := 100;
       rotationSpeed := 15 # 10;
       lookVerticalMin := (- JS.Math_PI) * (4 # 10);
       lookVerticalMax := JS.Math_PI * (4 # 10);
       currentLookVertical := 0;
       playerBody_rotation_y := 0;
       camera_rotation_x := 0;
       weapons := [];
       currentWeaponIndex := 0;
       weaponContainer := [];
       effectsManager := EffectsManager.constructor;
       output := [] |}.

(** The calls made on a player. *)
Inductive Op :=
| AddWeapon (weapon : AnyWeapon)
| EquipWeapon (index : Z)
| NextWeapon
| PreviousWeapon
| UseWeapon (s : Surroundings)
| ReloadWeapon
| UpdateLook (deltaX deltaY deltaTime : Q)
| TakeDamage (amount : Q)
| UpdateFrame (input : option Input) (s : Surroundings) (deltaTime : Q).

Definition step `{Three} (p : t) (op : Op) : t :=
  match op with
  | AddWeapon w => snd (addWeapon w p)
  | EquipWeapon i => snd (equipWeapon i p)
  | NextWeapon => snd (nextWeapon p)
  | PreviousWeapon => snd (previousWeapon p)
  | UseWeapon s => snd (useWeapon s p)
  | ReloadWeapon => snd (reloadWeapon p)
  | UpdateLook dx dy dt => updateLook dx dy dt p
  | TakeDamage a => takeDamage a p
  | UpdateFrame input s dt => update input s dt p
  end.

Definition run `{Three} (ops : list Op) (p : t) : t := foldl step p ops.

End Player.

(** ** main.js *)

(** [updateHealthUI(health)]: the width of the health bar, in percent. *)
Definition updateHealthUI (health : Q) : Q :=
  let healthPercent := (JS.Math_max 0 health / 100)%Q in
  (healthPercent * 100)%Q.

(** ** Observations on a player *)

(** Two player states with the same health and the same look state. *)
Definition same_vitals (p p' : Player.t) : Prop :=
  Player.health p' = Player.health p /\
  Player.rotationSpeed p' = Player.rotationSpeed p /\
  Player.lookVerticalMin p' = Player.lookVerticalMin p /\
  Player.lookVerticalMax p' = Player.lookVerticalMax p /\
  Player.currentLookVertical p' = Player.currentLookVertical p /\
  Player.camera_rotation_x p' = Player.camera_rotation_x p.

(** The pitch limits are the constructor's, and the look angle and the
    camera's rotation about X lie between them. *)
Definition pitch_ok (p : Player.t) : Prop :=
  Player.lookVerticalMin p = ((- JS.Math_PI) * (4 # 10))%Q /\
  Player.lookVerticalMax p = (JS.Math_PI * (4 # 10))%Q /\
  (Player.lookVerticalMin p <= Player.currentLookVertical p)%Q /\
  (Player.currentLookVertical p <= Player.lookVerticalMax p)%Q /\
  (Player.lookVerticalMin p <= Player.camera_rotation_x p)%Q /\
  (Player.camera_rotation_x p <= Player.lookVerticalMax p)%Q.

(** No call of [takeDamage] in the sequence has a negative amount. *)
Definition damage_nonnegative (ops : list Player.Op) : Prop :=
  Forall (fun op => match op with
                    | Player.TakeDamage a => (0 <= a)%Q
                    | _ => True
                    end) ops.

(** A new player who has taken 70 points of damage: health 30. *)
Definition wounded_player : Player.t := Player.takeDamage 70 Player.constructor.

(** ** Observations on an effects manager *)

(** An entry [deltaTime] seconds later, and whether an entry is over. *)
Definition Effect_advance (deltaTime : Q) (e : EffectsManager.Effect)
  : EffectsManager.Effect :=
  snd (EffectsManager.Effect_update deltaTime e).

Definition Effect_over (e : EffectsManager.Effect) : bool :=
  JS.ge (EffectsManager.age e) (EffectsManager.lifetime e).

(** The entries of [l], each [deltaTime] older, without those that are
    over by then; the order is that of [l]. *)
Definition unfinished_after (deltaTime : Q) (l : list EffectsManager.Effect)
  : list EffectsManager.Effect :=
  List.filter (fun e => negb (Effect_over e)) (map (Effect_advance deltaTime) l).

(** The scene holds the objects of the live effects and nothing else, each
    once, and the next object to be created is none of them. *)
Definition scene_mirrors_effects (m : EffectsManager.t) : Prop :=
  EffectsManager.scene m
    = map EffectsManager.object (EffectsManager.activeEffects m) /\
  NoDup (map EffectsManager.object (EffectsManager.activeEffects m)) /\
  Forall (fun o => (o < EffectsManager.nextObject m)%nat)
         (map EffectsManager.object (EffectsManager.activeEffects m)).

(** *** Frames of spawns *)













(** ** Observations on weapons *)

(** [weapon.update(deltaTime)] on a weapon of either class. *)
Definition AnyWeapon_update (deltaTime : Q) (w : AnyWeapon) : AnyWeapon :=
  match w with
  | Melee m => Melee (MeleeWeapon.update deltaTime m)
  | Ranged r => Ranged (RangedWeapon.update deltaTime r)
  end.

(** A run of [update] calls, one per time step. *)
Definition AnyWeapon_updates (dts : list Q) (w : AnyWeapon) : AnyWeapon :=
  foldl (fun w dt => AnyWeapon_update dt w) w dts.

Definition RangedWeapon_updates (dts : list Q) (w : RangedWeapon.t)
  : RangedWeapon.t :=
  foldl (fun w dt => RangedWeapon.update dt w) w dts.

Definition MeleeWeapon_updates (dts : list Q) (w : MeleeWeapon.t)
  : MeleeWeapon.t :=
  foldl (fun w dt => MeleeWeapon.update dt w) w dts.

(** The time a run of steps takes. *)
Definition total_time (dts : list Q) : Q := foldr Qplus 0%Q dts.

(** What [n] steps of a progress counter can lose to rounding: [2^-50]
    of the whole for each step. *)
Definition rounding_margin (n : nat) : Q :=
  (inject_Z (Z.of_nat n) * 2 ^ (-50))%Q.

(** The pistol and the shotgun that [GameManager.initializeWeapons]
    builds; of their parameters the constructor reads these. *)
Definition gm_pistol : RangedWeapon.t :=
  RangedWeapon.constructor
    {| RangedWeapon.p_base :=
         {| p_name := Some "Pistol"%string; p_damage := Some 25%Q;
            p_cooldown := Some (JS.fl (4 # 10)); p_range := Some 50%Q;
            p_weight := Some 2%Q; p_soundUse := false;
            p_soundReload := false |};
       RangedWeapon.p_startAmmo := None;
       RangedWeapon.p_maxAmmo := None;
       RangedWeapon.p_reserveAmmo := None;
       RangedWeapon.p_fireMode := None;
       RangedWeapon.p_reloadTime := Some (15 # 10)%Q;
       RangedWeapon.p_accuracy := None;
       RangedWeapon.p_useProjectile := false |}.

Definition gm_shotgun : RangedWeapon.t :=
  RangedWeapon.constructor
    {| RangedWeapon.p_base :=
         {| p_name := Some "Shotgun"%string; p_damage := Some 15%Q;
            p_cooldown := Some (JS.fl (9 # 10)); p_range := Some 20%Q;
            p_weight := Some 4%Q; p_soundUse := false;
            p_soundReload := false |};
       RangedWeapon.p_startAmmo := None;
       RangedWeapon.p_maxAmmo := None;
       RangedWeapon.p_reserveAmmo := None;
       RangedWeapon.p_fireMode := None;
       RangedWeapon.p_reloadTime := Some (25 # 10)%Q;
       RangedWeapon.p_accuracy := None;
       RangedWeapon.p_useProjectile := false |}.

(** The pistol, its magazine spent, told to reload; and a melee weapon
    with a swing of 0.75 s. *)
Definition reloading_pistol : RangedWeapon.t :=
  snd (fst (RangedWeapon.reload (RangedWeapon.set_ammo 0 90 gm_pistol))).

Definition slow_melee : MeleeWeapon.t :=
  MeleeWeapon.constructor
    {| MeleeWeapon.p_base := no_params;
       MeleeWeapon.p_swingWidth := None;
       MeleeWeapon.p_swingDuration := Some (75 # 100)%Q;
       MeleeWeapon.p_knockback := None;
       MeleeWeapon.p_attackType := None |}.

(** The number of [use] calls of a run that answered true. *)
Fixpoint shots_fired `{Three} (ops : list RangedOp) (w : RangedWeapon.t) : Z :=
  match ops with
  | [] => 0
  | op :: ops' =>
      (match op with
       | RUse now now' random position direction cb =>
           if fst (fst (RangedWeapon.use now now' random position direction cb w))
           then 1 else 0
       | _ => 0
       end + shots_fired ops' (RangedWeapon_step w op))%Z
  end.

(** A weapon event that tells of a hit. *)
Definition is_hit_event (e : WeaponEvent) : bool :=
  match e with
  | ShowImpactEffect _ _ | HitCallback _ => true
  | PlaySound _ | LaunchProjectile _ _ => false
  end.

(** ** More observations on a player *)

(** Two player states with the same number of weapons, the same equipped
    index and the same models attached. *)
Definition same_inventory (p p' : Player.t) : Prop :=
  length (Player.weapons p') = length (Player.weapons p) /\
  Player.currentWeaponIndex p' = Player.currentWeaponIndex p /\
  Player.weaponContainer p' = Player.weaponContainer p.

(** A weapon is equipped: the index points into [weapons] and the one
    model attached to the weapon container is that weapon's. *)
Definition equipped_ok (p : Player.t) : Prop :=
  (0 <= Player.currentWeaponIndex p < Z.of_nat (length (Player.weapons p)))%Z /\
  Player.weaponContainer p = [Z.to_nat (Player.currentWeaponIndex p)].

(** What the player writes when a hit is handled. *)
Definition is_hit_output (e : PlayerEvent) : bool :=
  match e with
  | ImpactMark _ _ | EnemyDamage _ _ => true
  | OfWeapon e => is_hit_event e
  | ConsoleLog _ | AmmoUI _ _ => false
  end.

(** The effects manager is untouched and nothing written tells of a hit. *)
Definition no_hit_so_far (p : Player.t) : Prop :=
  Player.effectsManager p = EffectsManager.constructor /\
  forallb (fun e => negb (is_hit_output e)) (Player.output p) = true.

(** [p'] comes from [p] without a touch to the effects manager and by
    writing only things that do not tell of a hit. *)
Definition quietly (p p' : Player.t) : Prop :=
  Player.effectsManager p' = Player.effectsManager p /\
  exists evs, Player.output p' = Player.output p ++ evs /\
              forallb (fun e => negb (is_hit_output e)) evs = true.

(** ** InputController.js *)

(** The names of the flags of [keys]. *)
Inductive Key :=
| Forward | Backward | Left | Right | Jump | Sprint | Reload
| NextWeapon | PreviousWeapon.

Definition Key_eqb (a b : Key) : bool :=
  match a, b with
  | Forward, Forward | Backward, Backward | Left, Left | Right, Right
  | Jump, Jump | Sprint, Sprint | Reload, Reload
  | NextWeapon, NextWeapon | PreviousWeapon, PreviousWeapon => true
  | _, _ => false
  end.

Module InputController.

Local Open Scope Q_scope.

Record Mouse := {
  x : Q;
  y : Q;
  movementX : Q;
  movementY : Q;
  leftButton : bool;
  rightButton : bool
}.

(** [keys] is the object of the nine flags; [pendingTimers] counts the
    callbacks of [setWeaponSwitchDelay] that have not run yet;
    [dispatched] holds the indexes of the 'weaponselect' events
    dispatched to the document so far, the latest last. *)
Record t := {
  keys : Key -> bool;
  mouse : Mouse;
  isPointerLocked : bool;
  mouseSensitivity : Q;
  weaponSwitchDelay : bool;
  pendingTimers : nat;
  dispatched : list Z
}.

Definition constructor : t :=
  {| keys := fun _ => false;
     mouse := {| x := 0; y := 0; movementX := 0; movementY := 0;
                 leftButton := false; rightButton := false |};
     isPointerLocked := false;
     mouseSensitivity := 2 # 1000;
     weaponSwitchDelay := false;
     pendingTimers := 0;
     dispatched := [] |}.

Definition set_keys (ks : Key -> bool) (c : t) : t :=
  {| keys := ks; mouse := mouse c; isPointerLocked := isPointerLocked c;
     mouseSensitivity := mouseSensitivity c;
     weaponSwitchDelay := weaponSwitchDelay c;
     pendingTimers := pendingTimers c;
     dispatched := dispatched c |}.

(** [this.keys.k = b]. *)
Definition set_key (k : Key) (b : bool) (c : t) : t :=
  set_keys (fun k' => if Key_eqb k k' then b else keys c k') c.

Definition set_mouse (m : Mouse) (c : t) : t :=
  {| keys := keys c; mouse := m; isPointerLocked := isPointerLocked c;
     mouseSensitivity := mouseSensitivity c;
     weaponSwitchDelay := weaponSwitchDelay c;
     pendingTimers := pendingTimers c;
     dispatched := dispatched c |}.

Definition set_movement (mx my : Q) (c : t) : t :=
  set_mouse {| x := x (mouse c); y := y (mouse c);
               movementX := mx; movementY := my;
               leftButton := leftButton (mouse c);
               rightButton := rightButton (mouse c) |} c.

Definition set_position (px py : Q) (c : t) : t :=
  set_mouse {| x := px; y := py;
               movementX := movementX (mouse c);
               movementY := movementY (mouse c);
               leftButton := leftButton (mouse c);
               rightButton := rightButton (mouse c) |} c.

Definition set_buttons (l r : bool) (c : t) : t :=
  set_mouse {| x := x (mouse c); y := y (mouse c);
               movementX := movementX (mouse c);
               movementY := movementY (mouse c);
               leftButton := l; rightButton := r |} c.

(** [setWeaponSwitchDelay()]: the flag is set and a timer is started. *)
Definition setWeaponSwitchDelay (c : t) : t :=
  {| keys := keys c; mouse := mouse c; isPointerLocked := isPointerLocked c;
     mouseSensitivity := mouseSensitivity c;
     weaponSwitchDelay := true;
     pendingTimers := S (pendingTimers c);
     dispatched := dispatched c |}.

(** The callback of the timer, 250 ms later. *)
Definition switchDelayElapsed (c : t) : t :=
  {| keys := keys c; mouse := mouse c; isPointerLocked := isPointerLocked c;
     mouseSensitivity := mouseSensitivity c;
     weaponSwitchDelay := false;
     pendingTimers := Nat.pred (pendingTimers c);
     dispatched := dispatched c |}.

(** [onPointerLockChange()], with whether [document.pointerLockElement]
    is set. *)
Definition onPointerLockChange (locked : bool) (c : t) : t :=
  {| keys := keys c; mouse := mouse c; isPointerLocked := locked;
     mouseSensitivity := mouseSensitivity c;
     weaponSwitchDelay := weaponSwitchDelay c;
     pendingTimers := pendingTimers c;
     dispatched := dispatched c |}.

(** [triggerWeaponSelect(index)]: a 'weaponselect' event with the index
    is dispatched to the document. *)
Definition triggerWeaponSelect (index : Z) (c : t) : t :=
  {| keys := keys c; mouse := mouse c; isPointerLocked := isPointerLocked c;
     mouseSensitivity := mouseSensitivity c;
     weaponSwitchDelay := weaponSwitchDelay c;
     pendingTimers := pendingTimers c;
     dispatched := dispatched c ++ [index] |}.

(** [onKeyDown(event)], with [event.code].  For the five digit keys
    [parseInt(event.code.replace("Digit", "")) - 1] is the digit less
    one; the delay flag is not looked at there. *)
Definition onKeyDown (code : string) (c : t) : t :=
  if String.eqb code "KeyW" then set_key Forward true c
  else if String.eqb code "KeyS" then set_key Backward true c
  else if String.eqb code "KeyA" then set_key Left true c
  else if String.eqb code "KeyD" then set_key Right true c
  else if String.eqb code "Space" then set_key Jump true c
  else if String.eqb code "ShiftLeft" then set_key Sprint true c
  else if String.eqb code "KeyR" then set_key Reload true c
  else if String.eqb code "Digit1" then triggerWeaponSelect (1 - 1) c
  else if String.eqb code "Digit2" then triggerWeaponSelect (2 - 1) c
  else if String.eqb code "Digit3" then triggerWeaponSelect (3 - 1) c
  else if String.eqb code "Digit4" then triggerWeaponSelect (4 - 1) c
  else if String.eqb code "Digit5" then triggerWeaponSelect (5 - 1) c
  else if String.eqb code "KeyQ" then
    if negb (weaponSwitchDelay c)
    then setWeaponSwitchDelay (set_key PreviousWeapon true c) else c
  else if String.eqb code "KeyE" then
    if negb (weaponSwitchDelay c)
    then setWeaponSwitchDelay (set_key NextWeapon true c) else c
  else c.

(** [onKeyUp(event)]. *)
Definition onKeyUp (code : string) (c : t) : t :=
  if String.eqb code "KeyW" then set_key Forward false c
  else if String.eqb code "KeyS" then set_key Backward false c
  else if String.eqb code "KeyA" then set_key Left false c
  else if String.eqb code "KeyD" then set_key Right false c
  else if String.eqb code "Space" then set_key Jump false c
  else if String.eqb code "ShiftLeft" then set_key Sprint false c
  else if String.eqb code "KeyR" then set_key Reload false c
  else if String.eqb code "KeyQ" then set_key PreviousWeapon false c
  else if String.eqb code "KeyE" then set_key NextWeapon false c
  else c.

(** [onMouseMove(event)], with the fields of the event and the size of the
    window. *)
Definition onMouseMove (clientX clientY eventMovementX eventMovementY
                        innerWidth innerHeight : Q) (c : t) : t :=
  let c := set_position ((clientX / innerWidth) * 2 - 1)
                        ((- (clientY / innerHeight)) * 2 + 1) c in
  if isPointerLocked c then
    set_movement (eventMovementX * mouseSensitivity c)
                 (eventMovementY * mouseSensitivity c) c
  else set_movement 0 0 c.

(** [onMouseDown(event)], with [event.button]. *)
Definition onMouseDown (button : Z) (c : t) : t :=
  let c := if Z.eqb button 0
           then set_buttons true (rightButton (mouse c)) c else c in
  if Z.eqb button 2 then set_buttons (leftButton (mouse c)) true c else c.

(** [onMouseUp(event)]. *)
Definition onMouseUp (button : Z) (c : t) : t :=
  let c := if Z.eqb button 0
           then set_buttons false (rightButton (mouse c)) c else c in
  if Z.eqb button 2 then set_buttons (leftButton (mouse c)) false c else c.

(** [onWheel(event)], with [event.deltaY]. *)
Definition onWheel (deltaY : Q) (c : t) : t :=
  if negb (weaponSwitchDelay c) then
    let c := if JS.gt deltaY 0 then set_key NextWeapon true c
             else if JS.lt deltaY 0 then set_key PreviousWeapon true c
             else c in
    setWeaponSwitchDelay c
  else c.

(** [update()]: the reset at the end of a frame. *)
Definition update (c : t) : t :=
  let c := set_movement 0 0 c in
  let c := set_key NextWeapon false c in
  let c := set_key PreviousWeapon false c in
  set_key Reload false c.

(** What can happen to the controller.  The timer's callback runs only
    when a timer is pending. *)
Inductive Event :=
| KeyDown (code : string)
| KeyUp (code : string)
| MouseMove (clientX clientY movementX movementY innerWidth innerHeight : Q)
| MouseDown (button : Z)
| MouseUp (button : Z)
| Wheel (deltaY : Q)
| PointerLockChange (locked : bool)
| SwitchDelayElapsed
| FrameEnd.

Definition step (c : t) (ev : Event) : t :=
  match ev with
  | KeyDown code => onKeyDown code c
  | KeyUp code => onKeyUp code c
  | MouseMove cx cy mx my w h => onMouseMove cx cy mx my w h c
  | MouseDown b => onMouseDown b c
  | MouseUp b => onMouseUp b c
  | Wheel d => onWheel d c
  | PointerLockChange l => onPointerLockChange l c
  | SwitchDelayElapsed =>
      if Nat.eqb (pendingTimers c) 0 then c else switchDelayElapsed c
  | FrameEnd => update c
  end.

Definition run (evs : list Event) (c : t) : t := foldl step c evs.

End InputController.

(** What [Player.update] reads of the controller. *)
Definition Input_of (c : InputController.t) : Input :=
  {| movementX := InputController.movementX (InputController.mouse c);
     movementY := InputController.movementY (InputController.mouse c);
     leftButton := InputController.leftButton (InputController.mouse c);
     key_reload := InputController.keys c Reload;
     key_nextWeapon := InputController.keys c NextWeapon;
     key_previousWeapon := InputController.keys c PreviousWeapon |}.

(** The player faces the same way: body yaw, look angle, camera pitch. *)
Definition same_view (p p' : Player.t) : Prop :=
  Player.playerBody_rotation_y p' = Player.playerBody_rotation_y p /\
  Player.currentLookVertical p' = Player.currentLookVertical p /\
  Player.camera_rotation_x p' = Player.camera_rotation_x p.

(** An event that is not the timer's callback. *)
Definition not_timer (ev : InputController.Event) : Prop :=
  ev <> InputController.SwitchDelayElapsed.

(** The flag of the switch delay is set exactly while one timer is
    pending, and no more than one ever is. *)
Definition delay_tracks_timer (c : InputController.t) : Prop :=
  (InputController.pendingTimers c <= 1)%nat /\
  (InputController.weaponSwitchDelay c = true
   <-> InputController.pendingTimers c = 1%nat).

(** Whether an event raises one of the two flags that cycle the weapon
    ([nextWeapon], [previousWeapon]), and how many events of a run do.  The
    digit keys raise no flag: what they do is in [selections]. *)
Definition raises_switch (c : InputController.t) (ev : InputController.Event)
  : bool :=
  let c' := InputController.step c ev in
  (negb (InputController.keys c NextWeapon) && InputController.keys c' NextWeapon)
  || (negb (InputController.keys c PreviousWeapon)
      && InputController.keys c' PreviousWeapon).

Fixpoint switch_requests (evs : list InputController.Event)
    (c : InputController.t) : nat :=
  match evs with
  | [] => 0
  | ev :: evs' =>
      ((if raises_switch c ev then 1 else 0)
       + switch_requests evs' (InputController.step c ev))%nat
  end.

(** The weapon a key press selects directly: the digit keys 1 to 5 select
    the weapons 0 to 4. *)
Definition selected_index (code : string) : option Z :=
  if String.eqb code "Digit1" then Some 0%Z
  else if String.eqb code "Digit2" then Some 1%Z
  else if String.eqb code "Digit3" then Some 2%Z
  else if String.eqb code "Digit4" then Some 3%Z
  else if String.eqb code "Digit5" then Some 4%Z
  else None.

(** The weapons the key presses of a run select, in order. *)
Fixpoint selections (evs : list InputController.Event) : list Z :=
  match evs with
  | [] => []
  | InputController.KeyDown code :: evs' =>
      match selected_index code with
      | Some i => i :: selections evs'
      | None => selections evs'
      end
  | _ :: evs' => selections evs'
  end.

(** ** Physics.js *)

(** [Array.prototype.indexOf] on an array of objects named by numbers:
    the index of the first occurrence, or -1.  [i] is the index of the
    head of [l]. *)
Fixpoint indexOf_from (b : nat) (l : list nat) (i : Z) : Z :=
  match l with
  | [] => (-1)%Z
  | x :: l' => if Nat.eqb x b then i else indexOf_from b l' (i + 1)%Z
  end.

Definition indexOf (b : nat) (l : list nat) : Z := indexOf_from b l 0.

(** [index = a.indexOf(b); if (index !== -1) a.splice(index, 1)]. *)
Definition remove_by_indexOf (b : nat) (l : list nat) : list nat :=
  let index := indexOf b l in
  if negb (Z.eqb index (-1)) then delete (Z.to_nat index) l else l.

Module Physics.

Local Open Scope Q_scope.

(** What the wrapper asks of its cannon-es world. *)
Inductive WorldCall :=
| World_addBody (body : nat)
| World_removeBody (body : nat)
| World_step (timeStep dt : Q) (maxSubSteps : Z).

(** The wrapper's own list of bodies, each body named by a number, and
    its world.  The world is a cannon-es object: it stands here as the
    calls the wrapper has made on it, the latest last. *)
Record t := {
  bodies : list nat;
  world : list WorldCall;
  timeStep : Q;
  maxSubSteps : Z
}.

Definition constructor : t :=
  {| bodies := []; world := []; timeStep := 1 / 60; maxSubSteps := 3 |}.

Definition set_bodies (l : list nat) (p : t) : t :=
  {| bodies := l; world := world p;
     timeStep := timeStep p; maxSubSteps := maxSubSteps p |}.

Definition set_world (w : list WorldCall) (p : t) : t :=
  {| bodies := bodies p; world := w;
     timeStep := timeStep p; maxSubSteps := maxSubSteps p |}.

(** [this.world.f(...)]. *)
Definition tell_world (call : WorldCall) (p : t) : t :=
  set_world (world p ++ [call]) p.

(** [addBody(body)]. *)
Definition addBody (body : nat) (p : t) : t :=
  let p := tell_world (World_addBody body) p in
  set_bodies (bodies p ++ [body]) p.

(** [removeBody(body)]. *)
Definition removeBody (body : nat) (p : t) : t :=
  let p := tell_world (World_removeBody body) p in
  set_bodies (remove_by_indexOf body (bodies p)) p.

(** The loop of [reset()]:
    [while (this.bodies.length > 0) this.removeBody(this.bodies[0])].
    [None] when the turns allowed run out before the loop ends. *)
Fixpoint reset_loop (turns : nat) (p : t) : option t :=
  match bodies p with
  | [] => Some p
  | b :: _ =>
      match turns with
      | O => None
      | S turns' => reset_loop turns' (removeBody b p)
      end
  end.

(** [reset()]: the loop, then a new world, on which nothing was called
    yet. *)
Definition reset (turns : nat) (p : t) : option t :=
  match reset_loop turns p with
  | Some p => Some (set_world [] p)
  | None => None
  end.

(** The time [update(deltaTime)] hands to [world.step] as the time since
    the last call. *)
Definition update_dt (deltaTime : Q) : Q := JS.Math_min deltaTime (1 # 10).

(** [update(deltaTime)]. *)
Definition update (deltaTime : Q) (p : t) : t :=
  tell_world (World_step (timeStep p) (update_dt deltaTime) (maxSubSteps p)) p.

Inductive Op :=
| AddBody (body : nat)
| RemoveBody (body : nat).

Definition step (p : t) (op : Op) : t :=
  match op with
  | AddBody b => addBody b p
  | RemoveBody b => removeBody b p
  end.

End Physics.

(** ** GameManager.js *)

Module GameManager.

(** [enemies] and [projectiles] hold the objects in the two arrays, named
    by numbers; [health] is the [health] field of every enemy object there
    is, in the array or not.  The page and the timers are not modelled. *)
Record t := {
  isRunning : bool;
  isPaused : bool;
  enemies : list nat;
  projectiles : list nat;
  health : gmap nat Q;
  maxEnemies : Z;
  score : Z;
  kills : Z;
  deaths : Z;
  nextEnemy : nat
}.

Definition constructor : t :=
  {| isRunning := false; isPaused := false; enemies := []; projectiles := [];
     health := ∅; maxEnemies := 20; score := 0; kills := 0; deaths := 0;
     nextEnemy := 0 |}.

Definition set_flags (running paused : bool) (g : t) : t :=
  {| isRunning := running; isPaused := paused; enemies := enemies g;
     projectiles := projectiles g; health := health g;
     maxEnemies := maxEnemies g; score := score g; kills := kills g;
     deaths := deaths g; nextEnemy := nextEnemy g |}.

Definition set_enemies (l : list nat) (g : t) : t :=
  {| isRunning := isRunning g; isPaused := isPaused g; enemies := l;
     projectiles := projectiles g; health := health g;
     maxEnemies := maxEnemies g; score := score g; kills := kills g;
     deaths := deaths g; nextEnemy := nextEnemy g |}.

Definition set_projectiles (l : list nat) (g : t) : t :=
  {| isRunning := isRunning g; isPaused := isPaused g; enemies := enemies g;
     projectiles := l; health := health g;
     maxEnemies := maxEnemies g; score := score g; kills := kills g;
     deaths := deaths g; nextEnemy := nextEnemy g |}.

Definition set_health (h : gmap nat Q) (g : t) : t :=
  {| isRunning := isRunning g; isPaused := isPaused g; enemies := enemies g;
     projectiles := projectiles g; health := h;
     maxEnemies := maxEnemies g; score := score g; kills := kills g;
     deaths := deaths g; nextEnemy := nextEnemy g |}.

Definition set_stats (sc k d : Z) (g : t) : t :=
  {| isRunning := isRunning g; isPaused := isPaused g; enemies := enemies g;
     projectiles := projectiles g; health := health g;
     maxEnemies := maxEnemies g; score := sc; kills := k;
     deaths := d; nextEnemy := nextEnemy g |}.

(** [start()]. *)
Definition start (g : t) : t :=
  if isRunning g then g else set_flags true false g.

(** [pause()]. *)
Definition pause (g : t) : t :=
  if negb (isRunning g) || isPaused g then g else set_flags (isRunning g) true g.

(** [resume()]. *)
Definition resume (g : t) : t :=
  if negb (isRunning g) || negb (isPaused g) then g
  else set_flags (isRunning g) false g.

(** [stop()]. *)
Definition stop (g : t) : t :=
  if negb (isRunning g) then g else set_flags false false g.

(** Whether [update(deltaTime)] goes past its first line. *)
Definition updates (g : t) : bool := negb (negb (isRunning g) || isPaused g).

(** [spawnEnemy()], the level and the physics being there. *)
Definition spawnEnemy (g : t) : t :=
  if (maxEnemies g <=? Z.of_nat (length (enemies g)))%Z then g
  else
    let enemy := nextEnemy g in
    {| isRunning := isRunning g; isPaused := isPaused g;
       enemies := enemies g ++ [enemy];
       projectiles := projectiles g;
       health := <[enemy := 100%Q]> (health g);
       maxEnemies := maxEnemies g; score := score g; kills := kills g;
       deaths := deaths g; nextEnemy := S enemy |}.

(** [handleEnemyDeath(enemy, weapon)], [weapon] being there. *)
Definition handleEnemyDeath (enemy : nat) (g : t) : t :=
  let g := set_enemies (remove_by_indexOf enemy (enemies g)) g in
  set_stats (score g + 100) (kills g + 1) (deaths g) g.

(** [handleProjectileHit(projectile, target)] for a target that is not the
    player, with [projectile.damage], [projectile.weapon] being there.  A
    target without a [health] field gets [undefined - damage], which is
    not a number and not [<= 0]: it stays without an entry here. *)
Definition handleProjectileHit (projectile target : nat) (damage : Q) (g : t)
  : t :=
  let g := set_projectiles (remove_by_indexOf projectile (projectiles g)) g in
  match health g !! target with
  | None => g
  | Some h0 =>
      let h := (h0 - damage)%Q in
      let g := set_health (<[target := h]> (health g)) g in
      if JS.le h 0%Q then handleEnemyDeath target g else g
  end.

(** [handlePlayerDeath()], up to the timer it starts. *)
Definition handlePlayerDeath (g : t) : t :=
  set_stats (score g) (kills g) (deaths g + 1) g.

Inductive Op :=
| Start | Pause | Resume | Stop
| SpawnEnemy
| HandleEnemyDeath (enemy : nat)
| HandleProjectileHit (projectile target : nat) (damage : Q)
| HandlePlayerDeath.

Definition step (g : t) (op : Op) : t :=
  match op with
  | Start => start g
  | Pause => pause g
  | Resume => resume g
  | Stop => stop g
  | SpawnEnemy => spawnEnemy g
  | HandleEnemyDeath e => handleEnemyDeath e g
  | HandleProjectileHit pr tg d => handleProjectileHit pr tg d g
  | HandlePlayerDeath => handlePlayerDeath g
  end.

Definition run (ops : list Op) (g : t) : t := foldl step g ops.

End GameManager.

(** ** Player.js: movement and jumping *)

Definition Vector3_sub (a b : Vector3) : Vector3 :=
  vec3 (vx a - vx b) (vy a - vy b) (vz a - vz b).

Definition multiplyScalar (a : Vector3) (s : Q) : Vector3 :=
  vec3 (vx a * s) (vy a * s) (vz a * s).

Definition lengthSq (a : Vector3) : Q := vx a * vx a + vy a * vy a + vz a * vz a.

Definition crossVectors (a b : Vector3) : Vector3 :=
  vec3 (vy a * vz b - vz a * vy b)
       (vz a * vx b - vx a * vz b)
       (vx a * vy b - vy a * vx b).

(** The keys the movement part of [Player.update] reads. *)
Record MoveKeys := {
  k_forward : bool;
  k_backward : bool;
  k_left : bool;
  k_right : bool;
  k_jump : bool;
  k_sprint : bool
}.

(** The fields of the player the movement part works on; [velocity] is
    the velocity of the physics body. *)
Record Motion := {
  velocity : Vector3;
  movementDirection : Vector3;
  canJump : bool;
  onGround : bool;
  moveSpeed : Q;
  jumpForce : Q
}.

(** The values the constructor and [initPhysics] leave. *)
Definition Motion_initial : Motion :=
  {| velocity := vec3 0 0 0; movementDirection := vec3 0 0 0;
     canJump := true; onGround := false; moveSpeed := 5; jumpForce := 7 |}.

(** [handleCollision(event)], with [event.contact.ni.y]. *)
Definition handleCollision (ni_y : Q) (m : Motion) : Motion :=
  if JS.gt ni_y (5 # 10) then
    {| velocity := velocity m; movementDirection := movementDirection m;
       canJump := true; onGround := true;
       moveSpeed := moveSpeed m; jumpForce := jumpForce m |}
  else m.

(** Whether this call of [update] applies a jump. *)
Definition jumps_now (keys : MoveKeys) (m : Motion) : bool :=
  k_jump keys && canJump m && onGround m.

(** The movement part of [Player.update(input, deltaTime)], the physics
    body being there; [worldDirection] is what
    [camera.getWorldDirection] answers. *)
Definition Player_move `{Three} (keys : MoveKeys) (worldDirection : Vector3)
    (m : Motion) : Motion :=
  let playerDirection :=
    normalize (vec3 (vx worldDirection) 0 (vz worldDirection)) in
  let rightVector := normalize (crossVectors playerDirection (vec3 0 1 0)) in
  let md := vec3 0 0 0 in
  let md := if k_forward keys then Vector3_add md playerDirection else md in
  let md := if k_backward keys then Vector3_sub md playerDirection else md in
  let md := if k_right keys then Vector3_add md rightVector else md in
  let md := if k_left keys then Vector3_sub md rightVector else md in
  let md :=
    if JS.gt (lengthSq md) 0%Q then
      multiplyScalar (normalize md)
        (if k_sprint keys then moveSpeed m * (15 # 10) else moveSpeed m)
    else md in
  let v := vec3 (vx md) (vy (velocity m)) (vz md) in
  if jumps_now keys m then
    {| velocity := vec3 (vx v) (jumpForce m) (vz v); movementDirection := md;
       canJump := false; onGround := false;
       moveSpeed := moveSpeed m; jumpForce := jumpForce m |}
  else
    {| velocity := v; movementDirection := md;
       canJump := canJump m; onGround := onGround m;
       moveSpeed := moveSpeed m; jumpForce := jumpForce m |}.

(** What happens to the motion state: a frame or a collision. *)
Inductive MotionEvent :=
| Moves (keys : MoveKeys) (worldDirection : Vector3)
| Collides (ni_y : Q).

Definition Motion_step `{Three} (m : Motion) (ev : MotionEvent) : Motion :=
  match ev with
  | Moves keys d => Player_move keys d m
  | Collides y => handleCollision y m
  end.

(** The number of jumps applied in a run of events. *)
Fixpoint jumps_applied `{Three} (evs : list MotionEvent) (m : Motion) : nat :=
  match evs with
  | [] => 0
  | ev :: evs' =>
      ((match ev with
        | Moves keys _ => if jumps_now keys m then 1 else 0
        | Collides _ => 0
        end) + jumps_applied evs' (Motion_step m ev))%nat
  end.

(** A collision that does not count as ground contact, or a frame. *)
Definition no_ground_contact (ev : MotionEvent) : Prop :=
  match ev with
  | Moves _ _ => True
  | Collides y => (y <= 5 # 10)%Q
  end.

(** ** ProceduralLevel.js: spawn points *)

Module ProceduralLevel.

Local Open Scope Q_scope.

Record t := {
  teamASpawnPoint : Vector3;
  teamBSpawnPoint : Vector3;
  spawnPoints_teamA : list Vector3;
  spawnPoints_teamB : list Vector3
}.

Definition constructor : t :=
  {| teamASpawnPoint := vec3 (-20) 2 0; teamBSpawnPoint := vec3 20 2 0;
     spawnPoints_teamA := []; spawnPoints_teamB := [] |}.

(** [this.spawnPoints[team]]; [None] is [undefined]. *)
Definition spawnPoints (team : string) (lv : t) : option (list Vector3) :=
  if String.eqb team "teamA" then Some (spawnPoints_teamA lv)
  else if String.eqb team "teamB" then Some (spawnPoints_teamB lv)
  else None.







(** [getRandomSpawnPoint(team)], with the reading of [Math.random()];
    [None] when the call throws. *)
Definition getRandomSpawnPoint (team : string) (random : Q) (lv : t)
  : option Vector3 :=
  match spawnPoints team lv with
  | None => None
  | Some points =>
      if Nat.eqb (length points) 0 then
        Some (if String.eqb team "teamA" then teamASpawnPoint lv
              else teamBSpawnPoint lv)
      else
        let index := JS.Math_floor (random * inject_Z (Z.of_nat (length points))) in
        if (index <? 0)%Z then None else points !! Z.to_nat index
  end.

End ProceduralLevel.

(** A reading of [Math.random()]: at least 0 and below 1. *)
Definition is_random (r : Q) : Prop := (0 <= r)%Q /\ (r < 1)%Q.


(** A game that is paused is running. *)
Definition paused_only_while_running (g : GameManager.t) : Prop :=
  GameManager.isPaused g = true -> GameManager.isRunning g = true.

(** Every enemy in the array has health above zero. *)
Definition enemies_alive (g : GameManager.t) : Prop :=
  forall e, e ∈ GameManager.enemies g ->
    exists h, GameManager.health g !! e = Some h /\ (0 < h)%Q.

(** The enemies in the array are distinct objects that [spawnEnemy] made. *)
Definition enemies_distinct (g : GameManager.t) : Prop :=
  NoDup (GameManager.enemies g) /\
  forall e, e ∈ GameManager.enemies g -> (e < GameManager.nextEnemy g)%nat.

(* ===================================================================== *)
(** * Part II: properties                                                 *)
(* ===================================================================== *)

Local Open Scope Q_scope.

(** ** Facts about JavaScript numbers *)

Lemma JS_le_iff (a b : Q) : JS.le a b = true <-> a <= b.
Proof. unfold JS.le. apply Qle_bool_iff. Qed.

Lemma JS_le_false (a b : Q) : JS.le a b = false <-> b < a.
Proof.
  unfold JS.le. split; intros Hab.
  - apply Qnot_le_lt. intros Hle. apply Qle_bool_iff in Hle. congruence.
  - destruct (Qle_bool a b) eqn:E; [|reflexivity].
    apply Qle_bool_iff in E. exfalso. exact (Qlt_not_le _ _ Hab E).
Qed.

Lemma JS_lt_iff (a b : Q) : JS.lt a b = true <-> a < b.
Proof.
  unfold JS.lt. rewrite negb_true_iff. apply (JS_le_false b a).
Qed.

Lemma JS_lt_false (a b : Q) : JS.lt a b = false <-> b <= a.
Proof.
  unfold JS.lt. rewrite negb_false_iff. apply (JS_le_iff b a).
Qed.

Lemma JS_truthy_false (a : Q) : JS.truthy a = false <-> a == 0.
Proof.
  unfold JS.truthy. rewrite negb_false_iff. apply Qeq_bool_iff.
Qed.

Lemma Math_max_spec (a b : Q) :
  a <= JS.Math_max a b /\ b <= JS.Math_max a b.
Proof.
  unfold JS.Math_max. destruct (JS.le a b) eqn:E.
  - apply JS_le_iff in E. split; [exact E | apply Qle_refl].
  - apply JS_le_false in E. split; [apply Qle_refl | apply Qlt_le_weak, E].
Qed.

Lemma Math_max_Qmax (a b : Q) : JS.Math_max a b == Qmax a b.
Proof.
  unfold JS.Math_max. destruct (JS.le a b) eqn:E.
  - apply JS_le_iff in E. symmetry. apply Q.max_r, E.
  - apply JS_le_false in E. symmetry. apply Q.max_l, Qlt_le_weak, E.
Qed.

Lemma Math_round_compat (a b : Q) : a == b -> JS.Math_round a = JS.Math_round b.
Proof. intros Hab. unfold JS.Math_round. apply Qfloor_comp. rewrite Hab. reflexivity. Qed.

(** ** Binary64 rounding *)

Lemma pow2_pos (e : Z) : 0 < 2 ^ e.
Proof. apply Qpower_0_lt. reflexivity. Qed.

Lemma pow2_plus (a b : Z) : 2 ^ (a + b) == 2 ^ a * 2 ^ b.
Proof. apply Qpower_plus. discriminate. Qed.

Lemma pow2_le (a b : Z) : (a <= b)%Z -> 2 ^ a <= 2 ^ b.
Proof. intros Hab. apply Qpower_le_compat_l; [exact Hab | discriminate]. Qed.

Lemma pow2_succ (a : Z) : 2 ^ (a + 1) == 2 * 2 ^ a.
Proof. rewrite pow2_plus. change (2 ^ 1) with 2. ring. Qed.

Lemma pow2_pred (a : Z) : 2 ^ (a - 1) == 2 ^ a * (1 # 2).
Proof.
  assert (E : 2 ^ a == 2 * 2 ^ (a - 1)).
  { rewrite <- pow2_succ. replace (a - 1 + 1)%Z with a by lia. reflexivity. }
  rewrite E. field.
Qed.

Lemma pow2_inject (k : Z) : (0 <= k)%Z -> 2 ^ k == inject_Z (2 ^ k).
Proof. intros Hk. symmetry. apply (Zpower_Qpower 2 k Hk). Qed.

(** [JS.mag x] is the exponent of the binade of [x]. *)
Lemma mag_bounds (x : Q) :
  ~ x == 0 -> 2 ^ (JS.mag x - 1) <= Qabs x /\ Qabs x < 2 ^ JS.mag x.
Proof.
  intros Hx. destruct x as [n d]. unfold JS.mag. cbn [Qnum Qden Qabs].
  assert (Hn : (0 < Z.abs n)%Z).
  { destruct n; [exfalso; apply Hx; reflexivity | lia | lia]. }
  set (N := Z.abs n) in *. set (a := Z.log2 N). set (b := Z.log2 (Z.pos d)).
  destruct (Z.log2_spec N Hn) as [Ha1 Ha2]. fold a in Ha1, Ha2.
  destruct (Z.log2_spec (Z.pos d) eq_refl) as [Hb1 Hb2]. fold b in Hb1, Hb2.
  assert (Ha0 : (0 <= a)%Z) by apply Z.log2_nonneg.
  assert (Hb0 : (0 <= b)%Z) by apply Z.log2_nonneg.
  rewrite Zle_Qle, <- pow2_inject in Ha1 by lia.
  rewrite Zlt_Qlt, <- pow2_inject in Ha2 by lia.
  rewrite Zle_Qle, <- pow2_inject in Hb1 by lia.
  rewrite Zlt_Qlt, <- pow2_inject in Hb2 by lia.
  unfold Z.succ in Ha2, Hb2. rewrite pow2_succ in Ha2, Hb2.
  pose proof (pow2_pos a) as HA. pose proof (pow2_pos b) as HB.
  assert (Hd : 0 < inject_Z (Z.pos d)) by reflexivity.
  assert (Eab : 2 ^ (a - b) == 2 ^ a / 2 ^ b) by (apply Qpower_minus; discriminate).
  assert (Ex : N # d == inject_Z N / inject_Z (Z.pos d)) by apply Qmake_Qdiv.
  destruct (Qle_bool (2 ^ (a - b)) (N # d)) eqn:E.
  - apply Qle_bool_iff in E. split.
    + replace (a - b + 1 - 1)%Z with (a - b)%Z by lia. exact E.
    + rewrite pow2_succ, Eab, Ex.
      apply Qlt_shift_div_r; [exact Hd|].
      assert (E2 : 2 * (2 ^ a / 2 ^ b) * inject_Z (Z.pos d)
                   == (2 * 2 ^ a) * (inject_Z (Z.pos d) / 2 ^ b)).
      { field. intros H0. rewrite H0 in HB. discriminate. }
      rewrite E2.
      assert (1 <= inject_Z (Z.pos d) / 2 ^ b).
      { apply Qle_shift_div_l; [exact HB | lra]. }
      nra.
  - assert (E' : N # d < 2 ^ (a - b)).
    { apply Qnot_le_lt. intros Hle. apply Qle_bool_iff in Hle. congruence. }
    split; [|exact E'].
    rewrite pow2_pred, Eab, Ex.
    apply Qle_shift_div_l; [exact Hd|].
    assert (E2 : 2 ^ a / 2 ^ b * (1 # 2) * inject_Z (Z.pos d)
                 == 2 ^ a * (inject_Z (Z.pos d) / (2 * 2 ^ b))).
    { field. intros H0. rewrite H0 in HB. discriminate. }
    rewrite E2.
    assert (inject_Z (Z.pos d) / (2 * 2 ^ b) <= 1).
    { apply Qle_shift_div_r; lra. }
    assert (0 <= inject_Z (Z.pos d) / (2 * 2 ^ b)).
    { apply Qle_shift_div_l; lra. }
    nra.
Qed.

Lemma round_half_even_error (s : Q) :
  Qabs (inject_Z (JS.round_half_even s) - s) <= 1 # 2.
Proof.
  unfold JS.round_half_even.
  pose proof (Qfloor_le s) as H1. pose proof (Qlt_floor s) as H2.
  rewrite inject_Z_plus in H2. change (inject_Z 1) with 1 in H2.
  apply Qabs_Qle_condition.
  destruct (Qcompare_spec (s - inject_Z (Qfloor s)) (1 # 2)) as [E|E|E].
  - destruct (Z.even (Qfloor s));
      rewrite ?inject_Z_plus; change (inject_Z 1) with 1; split; lra.
  - split; lra.
  - rewrite inject_Z_plus. change (inject_Z 1) with 1. split; lra.
Qed.

Lemma round_half_even_ge (s : Q) (k : Z) :
  inject_Z k <= s -> (k <= JS.round_half_even s)%Z.
Proof.
  intros Hk. apply Qfloor_resp_le in Hk. rewrite Qfloor_Z in Hk.
  unfold JS.round_half_even.
  destruct (Qcompare _ _); [destruct (Z.even _)| |]; lia.
Qed.


Lemma fl_zero (x : Q) : x == 0 -> JS.fl x = 0.
Proof.
  intros Hx. unfold JS.fl. apply Qeq_bool_iff in Hx. rewrite Hx. reflexivity.
Qed.

Lemma fl_scaled (x : Q) :
  ~ x == 0 ->
  JS.fl x
  == inject_Z (JS.round_half_even (x / 2 ^ JS.fl_exp x)) * 2 ^ JS.fl_exp x.
Proof.
  intros Hx. unfold JS.fl.
  destruct (Qeq_bool x 0) eqn:E; [apply Qeq_bool_iff in E; contradiction|].
  apply Qred_correct.
Qed.

(** The rounding error is at most half a unit in the last place. *)
Lemma fl_error_ulp (x : Q) :
  ~ x == 0 -> Qabs (JS.fl x - x) <= 2 ^ JS.fl_exp x * (1 # 2).
Proof.
  intros Hx. rewrite (fl_scaled x Hx).
  set (e := JS.fl_exp x). pose proof (pow2_pos e) as He.
  set (s := x / 2 ^ e).
  assert (Es : x == s * 2 ^ e).
  { unfold s. field. intros H0. rewrite H0 in He. discriminate. }
  pose proof (round_half_even_error s) as Hr.
  apply Qabs_Qle_condition in Hr. apply Qabs_Qle_condition.
  clearbody s. rewrite Es. split; nra.
Qed.

(** The relative error is at most [2^-53], but for numbers so small that
    the spacing of the doubles is [2^-1074]. *)
Lemma fl_error (x : Q) :
  Qabs (JS.fl x - x) <= u64 * Qabs x + eta64.
Proof.
  unfold u64, eta64.
  assert (H0 : 0 <= 2 ^ (-53) * Qabs x + 2 ^ (-1075)).
  { pose proof (Qabs_nonneg x). pose proof (pow2_pos (-53)).
    pose proof (pow2_pos (-1075)). nra. }
  destruct (Qeq_dec x 0) as [Hx|Hx].
  { rewrite (fl_zero x Hx).
    assert (E : Qabs (0 - x) == 0).
    { setoid_replace (0 - x) with 0 using relation Qeq by (rewrite Hx; ring). reflexivity. }
    rewrite E. exact H0. }
  eapply Qle_trans; [apply (fl_error_ulp x Hx)|].
  destruct (mag_bounds x Hx) as [Hlo _].
  pose proof (Qabs_nonneg x) as Hx0.
  pose proof (pow2_pos (-53)) as Hu. pose proof (pow2_pos (-1075)) as Hs.
  unfold JS.fl_exp.
  destruct (Z.max_spec (JS.mag x - 53) (-1074)) as [[_ ->] | [_ ->]].
  - change (2 ^ (-1074) * (1 # 2)) with (2 ^ (-1075) * 1).
    nra.
  - assert (E : 2 ^ (JS.mag x - 53) * (1 # 2) == 2 ^ (-53) * 2 ^ (JS.mag x - 1)).
    { rewrite <- pow2_plus. rewrite <- pow2_pred.
      replace (JS.mag x - 53 - 1)%Z with (-53 + (JS.mag x - 1))%Z by lia.
      reflexivity. }
    rewrite E. nra.
Qed.

Lemma fl_near (x B : Q) :
  Qabs x <= B ->
  x - (u64 * B + eta64) <= JS.fl x /\ JS.fl x <= x + (u64 * B + eta64).
Proof.
  intros HB. pose proof (fl_error x) as H.
  apply Qabs_Qle_condition in H.
  assert (0 < u64) by apply pow2_pos.
  set (a := Qabs x) in *. clearbody a.
  set (u := u64) in *. set (h := eta64) in *. clearbody u h.
  split; nra.
Qed.

Lemma fl_nonneg (x : Q) : 0 <= x -> 0 <= JS.fl x.
Proof.
  intros Hx. destruct (Qeq_dec x 0) as [H0|H0].
  { rewrite (fl_zero x H0). apply Qle_refl. }
  rewrite (fl_scaled x H0). pose proof (pow2_pos (JS.fl_exp x)) as He.
  assert (Hs : inject_Z 0 <= x / 2 ^ JS.fl_exp x).
  { change (inject_Z 0) with 0. apply Qle_shift_div_l; [exact He | lra]. }
  apply round_half_even_ge in Hs. rewrite Zle_Qle in Hs.
  change (inject_Z 0) with 0 in Hs. nra.
Qed.


(** Rounding does not take a number of at least 1 below 1. *)
Lemma fl_ge_1 (x : Q) : 1 <= x -> 1 <= JS.fl x.
Proof.
  intros Hx. assert (H0 : ~ x == 0) by (intros E; lra).
  destruct (mag_bounds x H0) as [Hlo Hhi].
  rewrite (Qabs_pos x) in Hlo, Hhi by lra.
  assert (Hm : (1 <= JS.mag x)%Z).
  { destruct (Z_le_gt_dec 1 (JS.mag x)) as [H|H]; [exact H|]. exfalso.
    assert (2 ^ JS.mag x <= 2 ^ 0) by (apply pow2_le; lia).
    change (2 ^ 0) with 1 in *. lra. }
  rewrite (fl_scaled x H0).
  assert (Ee : JS.fl_exp x = (JS.mag x - 53)%Z) by (unfold JS.fl_exp; lia).
  rewrite Ee. set (e := (JS.mag x - 53)%Z). pose proof (pow2_pos e) as He.
  assert (E1 : 2 ^ (JS.mag x - 1) == 2 ^ 52 * 2 ^ e).
  { rewrite <- pow2_plus. unfold e.
    replace (52 + (JS.mag x - 53))%Z with (JS.mag x - 1)%Z by lia.
    reflexivity. }
  assert (Hs : inject_Z (2 ^ 52) <= x / 2 ^ e).
  { rewrite <- pow2_inject by lia. apply Qle_shift_div_l; [exact He|].
    rewrite <- E1. exact Hlo. }
  apply round_half_even_ge in Hs. rewrite Zle_Qle, <- pow2_inject in Hs by lia.
  assert (H1 : 1 <= 2 ^ (JS.mag x - 1)).
  { change 1 with (2 ^ 0). apply pow2_le. lia. }
  rewrite E1 in H1.
  set (r := inject_Z (JS.round_half_even (x / 2 ^ e))) in *. clearbody r.
  set (a := 2 ^ 52) in *. set (b := 2 ^ e) in *. clearbody a b. nra.
Qed.

(** The doubles the code is known to compute at some inputs. *)
Example fl_samples :
  JS.fl (1 # 10) == 3602879701896397 # 36028797018963968 /\
  JS.add (JS.fl (1 # 10)) (JS.fl (2 # 10))
    == 5404319552844596 # 18014398509481984 /\
  JS.fl (1 # 2) == 1 # 2 /\ JS.fl 3 == 3 /\ JS.fl (-7) == -7 /\
  JS.fl (2 ^ (-1075)) == 0 /\
  JS.fl (3 * 2 ^ (-1075)) == 2 * 2 ^ (-1074) /\
  Qle_bool (JS.fl (1 # 3)) (1 # 3) = true.
Proof. repeat split; vm_compute; reflexivity. Qed.

(** [JS.div], [JS.sub], [JS.mul] and [JS.add] give the doubles that the
    standard library's model of IEEE 754 gives at binary64 (53 bits,
    exponents up to 1024), here along the computations of the damage of
    the shotgun at distance 18 and of the progress of six steps of 0.25 s
    of a reload of 1.5 s. *)
Example fl_agrees_with_SpecFloat :
  let sf (m : positive) (e : Z) := SpecFloat.S754_finite false m e in
  let q :=
    SpecFloat.SFdiv 53 1024 (sf 18%positive 0%Z) (sf 20%positive 0%Z) in
  let t := SpecFloat.SFsub 53 1024 (sf 1%positive 0%Z) q in
  let d := SpecFloat.SFmul 53 1024 (sf 15%positive 0%Z) t in
  let s :=
    SpecFloat.SFdiv 53 1024 (sf 1%positive (-2)%Z) (sf 3%positive (-1)%Z) in
  let add x y := SpecFloat.SFadd 53 1024 x y in
  let s6 := add (add (add (add (add s s) s) s) s) s in
  let s' := JS.div (1 # 4) (15 # 10) in
  is_double q (JS.div 18 20) = true /\
  is_double t (JS.sub 1 (JS.div 18 20)) = true /\
  is_double d (JS.mul 15 (JS.sub 1 (JS.div 18 20))) = true /\
  is_double s s' = true /\
  is_double s6
    (JS.add (JS.add (JS.add (JS.add (JS.add s' s') s') s') s') s') = true /\
  is_double (SpecFloat.SFdiv 53 1024 (sf 1%positive 0%Z) (sf 3%positive 0%Z))
    (JS.div 1 3) = true /\
  is_double
    (SpecFloat.SFmul 53 1024 (sf 1%positive (-1074)%Z) (sf 1%positive (-1)%Z))
    (JS.mul (2 ^ (-1074)) (1 # 2)) = true /\
  is_double
    (SpecFloat.SFmul 53 1024 (sf 3%positive (-1074)%Z) (sf 1%positive (-1)%Z))
    (JS.mul (3 * 2 ^ (-1074)) (1 # 2)) = true.
Proof. cbv zeta. repeat split; vm_compute; reflexivity. Qed.

(** One step of a progress counter,
    [progress += deltaTime / duration]: either it has reached 1, or it
    is still below 1 and short of the exact sum by [2^-50] at most. *)
Lemma progress_step (p dt T : Q) :
  0 < T -> 0 <= p -> 0 <= dt ->
  let p' := JS.add p (JS.div dt T) in
  1 <= p' \/ (0 <= p' /\ p' < 1 /\ p + dt / T - 2 ^ (-50) <= p').
Proof.
  intros HT Hp Hdt p'. unfold JS.add, JS.div in p'.
  assert (Hr : 0 <= dt / T) by (apply Qle_shift_div_l; lra).
  pose proof (fl_nonneg _ Hr) as Hq.
  assert (Hp' : 0 <= p') by (apply fl_nonneg; lra).
  destruct (Qlt_le_dec p' 1) as [Hlt|Hge]; [right|left; exact Hge].
  split; [exact Hp'|]. split; [exact Hlt|].
  assert (Hs : p + JS.fl (dt / T) < 1).
  { apply Qnot_le_lt. intros H1. apply fl_ge_1 in H1. fold p' in H1. lra. }
  assert (Hr1 : dt / T < 1).
  { apply Qnot_le_lt. intros H1. apply fl_ge_1 in H1. lra. }
  destruct (fl_near (dt / T) 1) as [Hq1 _].
  { rewrite Qabs_pos by exact Hr. lra. }
  destruct (fl_near (p + JS.fl (dt / T)) 1) as [Hp1 _].
  { rewrite Qabs_pos by lra. lra. }
  fold p' in Hp1.
  assert (Hc : 2 * (u64 * 1 + eta64) <= 2 ^ (-50)) by (vm_compute; discriminate).
  set (u := u64 * 1 + eta64) in *. set (c := 2 ^ (-50)) in *. clearbody u c.
  set (q := JS.fl (dt / T)) in *. clearbody q p'. lra.
Qed.




(** ** Weapon.calculateDamage *)




Example default_melee_damage_range :
  Weapon.damage (MeleeWeapon.base default_melee) = 40 /\
  Weapon.range (MeleeWeapon.base default_melee) = 25 # 10.
Proof. split; reflexivity. Qed.

(** The constructors never leave a weapon with range zero. *)
Lemma or_num_nonzero (p : option Q) (d : Q) :
  ~ d == 0 -> ~ JS.or_num p d == 0.
Proof.
  intros Hd. unfold JS.or_num. destruct p as [v|]; [|exact Hd].
  destruct (JS.truthy v) eqn:E; [|exact Hd].
  intros Hv. apply JS_truthy_false in Hv. congruence.
Qed.

Lemma constructor_range_nonzero (ty : option string) (params : WeaponParams) :
  ~ Weapon.range (Weapon.constructor ty params) == 0.
Proof. simpl. apply or_num_nonzero. discriminate. Qed.

(** ** Cooldown *)

Example emptied_pistol_state :
  RangedWeapon.ammo_current emptied_pistol = 0%Z /\
  RangedWeapon.ammo_reserve emptied_pistol = 48%Z /\
  RangedWeapon.isReloading emptied_pistol = false /\
  Weapon.lastUsed (RangedWeapon.base emptied_pistol) = 10 /\
  Weapon.cooldown (RangedWeapon.base emptied_pistol) = 1 # 10.
Proof. repeat split; reflexivity. Qed.

Lemma canUse_false (now : Q) (w : Weapon.t) :
  now - Weapon.lastUsed w < Weapon.cooldown w -> Weapon.canUse now w = false.
Proof. intros Hc. unfold Weapon.canUse, JS.ge. apply JS_le_false, Hc. Qed.

Lemma Weapon_use_in_cooldown (now now' : Q) (w : Weapon.t) :
  now - Weapon.lastUsed w < Weapon.cooldown w ->
  Weapon.use now now' w = (false, w, []).
Proof. intros Hc. unfold Weapon.use. rewrite (canUse_false _ _ Hc). reflexivity. Qed.

Lemma reload_keeps_ammo (w : RangedWeapon.t) :
  let w' := snd (fst (RangedWeapon.reload w)) in
  RangedWeapon.ammo_current w' = RangedWeapon.ammo_current w /\
  RangedWeapon.ammo_reserve w' = RangedWeapon.ammo_reserve w /\
  RangedWeapon.ammo_max w' = RangedWeapon.ammo_max w /\
  RangedWeapon.base w' = RangedWeapon.base w.
Proof.
  unfold RangedWeapon.reload.
  destruct (_ || _); cbn; repeat split; reflexivity.
Qed.

(** C3, as stated, fails: the emptied pistol, used again 0.05 s after its
    last shot (cooldown 0.1 s), answers failure but its reloading flag
    goes from false to true. *)
Lemma use_in_cooldown_starts_reload :
  let w := emptied_pistol in
  let r := RangedWeapon.use (1005 # 100) (1005 # 100) origin origin forward true w in
  (1005 # 100) - Weapon.lastUsed (RangedWeapon.base w)
     < Weapon.cooldown (RangedWeapon.base w) /\
  fst (fst r) = false /\
  RangedWeapon.isReloading w = false /\
  RangedWeapon.isReloading (snd (fst r)) = true.
Proof. cbv zeta. split; [reflexivity | repeat split; reflexivity]. Qed.

(** C3, amended. A [use] issued strictly before [cooldown] seconds have
    passed since [lastUsed] answers failure and leaves ammunition (current
    and reserve), [lastUsed] and the other shared fields, and the swing
    state as they were.  The weapon as a whole is unchanged, reloading flag
    included, unless it is a ranged weapon that is not reloading, whose
    magazine is empty and not full, and whose reserve is not empty: that
    call starts a reload. *)
Theorem use_in_cooldown `{Three} (w : AnyWeapon) (now now' : Q)
    (random position direction : Vector3) (hasCallback : bool) :
  now - Weapon.lastUsed (AnyWeapon_base w) < Weapon.cooldown (AnyWeapon_base w) ->
  let r := AnyWeapon_use now now' random position direction hasCallback w in
  let w' := snd (fst r) in
  fst (fst r) = false /\
  AnyWeapon_ammo w' = AnyWeapon_ammo w /\
  AnyWeapon_base w' = AnyWeapon_base w /\
  AnyWeapon_swing w' = AnyWeapon_swing w /\
  (auto_reloads w = false -> w' = w) /\
  (auto_reloads w = true -> AnyWeapon_reloading w' = Some true).
Proof.
  intros Hc. destruct w as [m | r]; cbn [AnyWeapon_use AnyWeapon_base] in *.
  - unfold MeleeWeapon.use. rewrite (Weapon_use_in_cooldown _ _ _ Hc).
    cbn. repeat split; try reflexivity. discriminate.
  - unfold RangedWeapon.use, auto_reloads.
    destruct (RangedWeapon.isReloading r) eqn:Erel.
    { cbn. repeat split; try reflexivity. discriminate. }
    destruct (RangedWeapon.ammo_current r <=? 0)%Z eqn:Eammo.
    + unfold RangedWeapon.reload. rewrite Erel. cbn [orb negb andb].
      destruct (RangedWeapon.ammo_current r =? RangedWeapon.ammo_max r)%Z;
        cbn [orb negb andb].
      { cbn. repeat split; try reflexivity. discriminate. }
      destruct (RangedWeapon.ammo_reserve r <=? 0)%Z eqn:Eres.
      * assert ((0 <? RangedWeapon.ammo_reserve r)%Z = false) as -> by lia.
        cbn. repeat split; try reflexivity. discriminate.
      * assert ((0 <? RangedWeapon.ammo_reserve r)%Z = true) as -> by lia.
        cbn. repeat split; try reflexivity. discriminate.
    + rewrite (Weapon_use_in_cooldown _ _ _ Hc).
      cbn. repeat split; try reflexivity. discriminate.
Qed.

Lemma use_in_cooldown_witness :
  (1005 # 100) - Weapon.lastUsed (AnyWeapon_base (Ranged emptied_pistol))
    < Weapon.cooldown (AnyWeapon_base (Ranged emptied_pistol)) /\
  AnyWeapon_ammo
    (snd (fst (AnyWeapon_use (1005 # 100) (1005 # 100) origin origin forward true
                 (Ranged emptied_pistol))))
  = Some (0%Z, 48%Z).
Proof.
  split; [reflexivity|].
  apply (use_in_cooldown (Ranged emptied_pistol) (1005 # 100) (1005 # 100)
           origin origin forward true).
  reflexivity.
Defined.

(** ** Ammunition *)

Section Ammo.
Context `{Three}.

Lemma ranged_use_ammo (now now' : Q) (random position direction : Vector3)
    (cb : bool) (w : RangedWeapon.t) :
  let w' := snd (fst (RangedWeapon.use now now' random position direction cb w)) in
  RangedWeapon.ammo_max w' = RangedWeapon.ammo_max w /\
  RangedWeapon.ammo_reserve w' = RangedWeapon.ammo_reserve w /\
  (RangedWeapon.ammo_current w' = RangedWeapon.ammo_current w \/
   (0 < RangedWeapon.ammo_current w)%Z /\
   RangedWeapon.ammo_current w' = (RangedWeapon.ammo_current w - 1)%Z).
Proof.
  unfold RangedWeapon.use.
  destruct (RangedWeapon.isReloading w); [cbn; auto|].
  destruct (RangedWeapon.ammo_current w <=? 0)%Z eqn:Eammo.
  - pose proof (reload_keeps_ammo w) as Hr. cbv zeta in Hr.
    destruct (RangedWeapon.reload w) as [[ok w'] evs]. cbn in *.
    destruct Hr as (Hc & Hres & Hmax & _). auto.
  - destruct (Weapon.use now now' (RangedWeapon.base w)) as [[[] b] evs];
      cbn; [|auto].
    repeat split. right. split; [lia | reflexivity].
Qed.

Lemma ranged_update_ammo (dt : Q) (w : RangedWeapon.t) :
  let w' := RangedWeapon.update dt w in
  RangedWeapon.ammo_max w' = RangedWeapon.ammo_max w /\
  total_ammo w' = total_ammo w /\
  ((RangedWeapon.ammo_current w <= RangedWeapon.ammo_max w)%Z ->
   (RangedWeapon.ammo_current w' <= RangedWeapon.ammo_max w')%Z).
Proof.
  unfold RangedWeapon.update, total_ammo.
  destruct (RangedWeapon.isReloading w); [|cbn; auto].
  destruct (JS.ge _ 1); cbn; repeat split; try lia.
Qed.

Lemma ranged_step_current_le_max (w : RangedWeapon.t) (op : RangedOp) :
  (RangedWeapon.ammo_current w <= RangedWeapon.ammo_max w)%Z ->
  (RangedWeapon.ammo_current (RangedWeapon_step w op)
     <= RangedWeapon.ammo_max (RangedWeapon_step w op))%Z.
Proof.
  intros Hle. destruct op as [now now' rnd pos dir cb | | dt];
    cbn [RangedWeapon_step].
  - pose proof (ranged_use_ammo now now' rnd pos dir cb w) as Hu.
    cbv zeta in Hu. destruct Hu as (Hmax & _ & [Hc | [_ Hc]]);
      rewrite Hmax, Hc; lia.
  - pose proof (reload_keeps_ammo w) as Hr. cbv zeta in Hr.
    destruct Hr as (Hc & _ & Hmax & _). rewrite Hc, Hmax. exact Hle.
  - apply (ranged_update_ammo dt w), Hle.
Qed.

Lemma ranged_run_current_le_max (ops : list RangedOp) (w : RangedWeapon.t) :
  (RangedWeapon.ammo_current w <= RangedWeapon.ammo_max w)%Z ->
  (RangedWeapon.ammo_current (RangedWeapon_run ops w)
     <= RangedWeapon.ammo_max (RangedWeapon_run ops w))%Z.
Proof.
  revert w. induction ops as [|op ops IH]; intros w Hle; [exact Hle|].
  cbn. apply IH, ranged_step_current_le_max, Hle.
Qed.

(** C4. Start from a ranged weapon with [current <= max] and make any
    sequence of [use], [reload] and [update] calls.  In the state reached,
    [current <= max]; a further [use] does not increase
    [current + reserve]; a further [update], the completion of a reload
    included, does not decrease it. *)
Theorem ranged_ammo_invariants (w : RangedWeapon.t) (ops : list RangedOp) :
  (RangedWeapon.ammo_current w <= RangedWeapon.ammo_max w)%Z ->
  let w' := RangedWeapon_run ops w in
  (RangedWeapon.ammo_current w' <= RangedWeapon.ammo_max w')%Z /\
  (forall now now' random position direction cb,
      (total_ammo
         (snd (fst (RangedWeapon.use now now' random position direction cb w')))
       <= total_ammo w')%Z) /\
  (forall dt, (total_ammo w' <= total_ammo (RangedWeapon.update dt w'))%Z).
Proof.
  intros Hle w'. split; [|split].
  - apply ranged_run_current_le_max, Hle.
  - intros now now' rnd pos dir cb.
    pose proof (ranged_use_ammo now now' rnd pos dir cb w') as Hu.
    cbv zeta in Hu. unfold total_ammo.
    destruct Hu as (_ & Hres & [Hc | [_ Hc]]); rewrite Hres, Hc; lia.
  - intros dt. pose proof (ranged_update_ammo dt w') as Hu.
    cbv zeta in Hu. destruct Hu as (_ & Ht & _). rewrite Ht. lia.
Qed.

End Ammo.

(** Scenario B of the specification on the emptied pistol: the failed [use]
    starts the reload, and two seconds of ticks later the magazine is
    refilled from the reserve. *)
Example reload_completes :
  let ops := [RUse 11 11 origin origin forward true; RUpdate 1; RUpdate 1] in
  let w := RangedWeapon_run ops emptied_pistol in
  RangedWeapon.ammo_current w = 1%Z /\ RangedWeapon.ammo_reserve w = 47%Z /\
  RangedWeapon.isReloading w = false.
Proof. repeat split; reflexivity. Qed.

Lemma ranged_ammo_invariants_witness :
  (RangedWeapon.ammo_current one_round_pistol
     <= RangedWeapon.ammo_max one_round_pistol)%Z /\
  (RangedWeapon.ammo_current
     (RangedWeapon_run [RUse 10 10 origin origin forward true; RUpdate 1]
        one_round_pistol)
   <= RangedWeapon.ammo_max
        (RangedWeapon_run [RUse 10 10 origin origin forward true; RUpdate 1]
           one_round_pistol))%Z.
Proof.
  split; [discriminate|].
  apply (ranged_ammo_invariants one_round_pistol
           [RUse 10 10 origin origin forward true; RUpdate 1]).
  discriminate.
Defined.

(** ** The effect counters *)

Section EffectCounters.
Import EffectsManager.

Implicit Types (l : list Effect) (e : Effect) (ty : string) (m : t).

Lemma count_cons ty e l :
  count ty (e :: l) = ((if String.eqb (type e) ty then 1 else 0) + count ty l)%Z.
Proof.
  unfold count. rewrite filter_cons.
  destruct (String.eqb_spec (type e) ty) as [Heq | Hne]; case_decide;
    try contradiction; cbn [length]; lia.
Qed.

Lemma count_app ty l1 l2 : count ty (l1 ++ l2) = (count ty l1 + count ty l2)%Z.
Proof. unfold count. rewrite filter_app, length_app. lia. Qed.

Lemma count_delete ty l i e :
  l !! i = Some e ->
  count ty (delete i l)
  = (count ty l - (if String.eqb (type e) ty then 1 else 0))%Z.
Proof.
  revert i. induction l as [|x l IH]; intros i Hi; [discriminate|].
  destruct i as [|i]; cbn in Hi.
  - injection Hi as ->. cbn [delete list_delete]. rewrite count_cons. lia.
  - change (delete (S i) (x :: l)) with (x :: delete i l).
    rewrite !count_cons, (IH i Hi). lia.
Qed.

Lemma count_insert ty l i e e' :
  l !! i = Some e -> type e' = type e ->
  count ty (<[i := e']> l) = count ty l.
Proof.
  revert i. induction l as [|x l IH]; intros i Hi Hty; [discriminate|].
  destruct i as [|i]; cbn in Hi.
  - injection Hi as ->. cbn [insert list_insert].
    rewrite !count_cons, Hty. reflexivity.
  - change (<[S i := e']> (x :: l)) with (x :: <[i := e']> l).
    rewrite !count_cons, (IH i Hi Hty). reflexivity.
Qed.

(** The search answers its start value or the index of an entry of the
    kind asked for. *)
Lemma findOldest_found ty l (i oldestIndex : Z) (oldestAge : Q) :
  let r := findOldest ty l i oldestIndex oldestAge in
  r = oldestIndex \/
  ((i <= r)%Z /\ exists e, l !! Z.to_nat (r - i) = Some e /\ type e = ty).
Proof.
  revert i oldestIndex oldestAge.
  induction l as [|x l IH]; intros i oi oa; cbn [findOldest]; [left; reflexivity|].
  assert (Hshift : forall r, (i + 1 <= r)%Z ->
            (x :: l) !! Z.to_nat (r - i) = l !! Z.to_nat (r - (i + 1))).
  { intros r Hr. replace (Z.to_nat (r - i)) with (S (Z.to_nat (r - (i + 1)))) by lia.
    reflexivity. }
  destruct (String.eqb_spec (type x) ty) as [Hty | Hty]; cbn [andb].
  - destruct (JS.gt (age x) oa).
    + destruct (IH (i + 1)%Z i (age x)) as [Hr | (Hle & e & He & Hte)].
      * right. cbv zeta in Hr. rewrite Hr. split; [lia|].
        exists x. rewrite Z.sub_diag. split; [reflexivity | exact Hty].
      * right. split; [lia|]. exists e. rewrite (Hshift _ Hle). auto.
    + destruct (IH (i + 1)%Z oi oa) as [Hr | (Hle & e & He & Hte)];
        [left; exact Hr|].
      right. split; [lia|]. exists e. rewrite (Hshift _ Hle). auto.
  - destruct (IH (i + 1)%Z oi oa) as [Hr | (Hle & e & He & Hte)];
      [left; exact Hr|].
    right. split; [lia|]. exists e. rewrite (Hshift _ Hle). auto.
Qed.

Lemma counters_agree_alt m :
  counters_agree m <->
  particleCount m = count "particle" (activeEffects m) /\
  decalCount m = count "decal" (activeEffects m).
Proof. reflexivity. Qed.

(** Taking the entry at [i] out and decrementing the counter of its kind
    keeps the counters right, whatever happens to the scene. *)
Lemma remove_entry_agree m i e ty sc :
  counters_agree m -> activeEffects m !! i = Some e -> type e = ty ->
  counters_agree
    (decrement ty
       (set_activeEffects (delete i (activeEffects m)) (set_scene sc m))).
Proof.
  intros [Hp Hd] Hi <-. apply counters_agree_alt. cbn.
  rewrite !(count_delete _ _ _ _ Hi), Hp, Hd. unfold live, count. split.
  - destruct (String.eqb (type e) "particle"); lia.
  - destruct (String.eqb (type e) "decal"); lia.
Qed.

Lemma push_effect_agree ty life m :
  counters_agree m -> counters_agree (push_effect ty life m).
Proof.
  intros [Hp Hd]. apply counters_agree_alt. cbn.
  rewrite !count_app, !count_cons, Hp, Hd. cbn [type]. unfold live, count.
  cbn [filter list_filter length].
  split; [destruct (String.eqb ty "particle") | destruct (String.eqb ty "decal")]; lia.
Qed.

Lemma removeOldestEffect_agree ty m :
  counters_agree m -> counters_agree (removeOldestEffect ty m).
Proof.
  intros Hm. unfold removeOldestEffect.
  pose proof (findOldest_found ty (activeEffects m) 0 (-1) 0) as Hf.
  cbv zeta in Hf.
  destruct (0 <=? findOldest ty (activeEffects m) 0 (-1) 0)%Z eqn:Hge;
    [|exact Hm].
  destruct Hf as [Hr | (_ & e & He & Hty)]; [lia|].
  rewrite Z.sub_0_r in He. rewrite He.
  apply (remove_entry_agree m _ e ty _ Hm He Hty).
Qed.

Lemma createBloodParticles_agree m :
  counters_agree m -> counters_agree (createBloodParticles m).
Proof.
  intros Hm. unfold createBloodParticles. apply push_effect_agree.
  destruct (_ <=? _)%Z; [apply removeOldestEffect_agree|]; exact Hm.
Qed.

Lemma createBloodSplatter_agree m :
  counters_agree m -> counters_agree (createBloodSplatter m).
Proof.
  intros Hm. unfold createBloodSplatter. apply push_effect_agree.
  destruct (_ <=? _)%Z; [apply removeOldestEffect_agree|]; exact Hm.
Qed.

Lemma iter_createBloodSplatter_agree n m :
  counters_agree m -> counters_agree (Nat.iter n createBloodSplatter m).
Proof.
  intros Hm. induction n as [|n IH]; [exact Hm|].
  cbn. apply createBloodSplatter_agree, IH.
Qed.

Lemma createBloodImpact_agree intensity m :
  counters_agree m -> counters_agree (createBloodImpact intensity m).
Proof.
  intros Hm. unfold createBloodImpact.
  pose proof (createBloodSplatter_agree _ (createBloodParticles_agree _ Hm)) as H2.
  destruct (JS.gt intensity (7 # 10)); [|exact H2].
  apply iter_createBloodSplatter_agree, H2.
Qed.

Lemma update_step_agree dt i m :
  counters_agree m -> counters_agree (update_step dt i m).
Proof.
  intros Hm. unfold update_step.
  destruct (activeEffects m !! i) as [e|] eqn:Hi; [|exact Hm].
  unfold Effect_update. cbv zeta.
  set (e' := set_age (age e + dt) e).
  set (m1 := set_activeEffects (<[i := e']> (activeEffects m)) m).
  assert (Hm1 : counters_agree m1).
  { destruct Hm as [Hp Hd]. apply counters_agree_alt. cbn.
    rewrite !(count_insert _ _ _ e e' Hi eq_refl). auto. }
  destruct (JS.ge (age e') (lifetime e')); [|exact Hm1].
  assert (Hi1 : activeEffects m1 !! i = Some e').
  { cbn. apply list_lookup_insert_eq. apply lookup_lt_Some in Hi. exact Hi. }
  exact (remove_entry_agree m1 i e' (type e')
           (scene_remove (object e') (scene m1)) Hm1 Hi1 eq_refl).
Qed.

Lemma update_loop_agree dt n m :
  counters_agree m -> counters_agree (update_loop dt n m).
Proof.
  revert m. induction n as [|n IH]; intros m Hm; [exact Hm|].
  cbn. apply IH, update_step_agree, Hm.
Qed.

Lemma clearAllEffects_agree m : counters_agree (clearAllEffects m).
Proof. split; reflexivity. Qed.

Lemma step_agree m (op : Op) : counters_agree m -> counters_agree (step m op).
Proof.
  intros Hm. destruct op; cbn [step].
  - apply createBloodParticles_agree, Hm.
  - apply createBloodSplatter_agree, Hm.
  - apply createBloodImpact_agree, Hm.
  - apply removeOldestEffect_agree, Hm.
  - apply update_loop_agree, Hm.
  - apply clearAllEffects_agree.
Qed.

Lemma run_agree (ops : list Op) m : counters_agree m -> counters_agree (run ops m).
Proof.
  revert m. induction ops as [|op ops IH]; intros m Hm; [exact Hm|].
  cbn. apply IH, step_agree, Hm.
Qed.

(** *** Eviction *)

(** What the search finds.  Either no entry of the kind is older than
    [oldestAge] and the start value comes back, or the answer is the
    index of an entry of the kind that is older than [oldestAge] and at
    least as old as every entry of the kind. *)
Lemma findOldest_spec ty l (i oldestIndex : Z) (oldestAge : Q) :
  let r := findOldest ty l i oldestIndex oldestAge in
  (r = oldestIndex /\
   forall e', In e' l -> type e' = ty -> age e' <= oldestAge)
  \/
  ((i <= r)%Z /\
   exists e, l !! Z.to_nat (r - i) = Some e /\ type e = ty /\
             oldestAge < age e /\
             forall e', In e' l -> type e' = ty -> age e' <= age e).
Proof.
  revert i oldestIndex oldestAge.
  induction l as [|x l IH]; intros i oi oa; cbn [findOldest].
  { left. split; [reflexivity | intros e' []]. }
  assert (Hshift : forall r, (i + 1 <= r)%Z ->
            (x :: l) !! Z.to_nat (r - i) = l !! Z.to_nat (r - (i + 1))).
  { intros r Hr. replace (Z.to_nat (r - i)) with (S (Z.to_nat (r - (i + 1)))) by lia.
    reflexivity. }
  destruct (String.eqb_spec (type x) ty) as [Hty | Hty]; cbn [andb].
  - destruct (JS.gt (age x) oa) eqn:Hgt.
    + apply JS_lt_iff in Hgt.
      destruct (IH (i + 1)%Z i (age x))
        as [[Hr Hall] | (Hle & e & He & Hte & Hage & Hall)].
      * right. cbv zeta in Hr. rewrite Hr. split; [lia|].
        exists x. rewrite Z.sub_diag. repeat split; try assumption.
        intros e' [<- | Hin] Hty'; [apply Qle_refl | auto].
      * right. split; [lia|]. exists e. rewrite (Hshift _ Hle).
        repeat split; try assumption.
        { apply Qlt_trans with (age x); assumption. }
        intros e' [<- | Hin] Hty'; [apply Qlt_le_weak, Hage | auto].
    + apply JS_lt_false in Hgt.
      destruct (IH (i + 1)%Z oi oa)
        as [[Hr Hall] | (Hle & e & He & Hte & Hage & Hall)].
      * left. split; [exact Hr|].
        intros e' [<- | Hin] Hty'; [exact Hgt | auto].
      * right. split; [lia|]. exists e. rewrite (Hshift _ Hle).
        repeat split; try assumption.
        intros e' [<- | Hin] Hty'; [|auto].
        apply Qlt_le_weak, Qle_lt_trans with oa; assumption.
  - destruct (IH (i + 1)%Z oi oa)
      as [[Hr Hall] | (Hle & e & He & Hte & Hage & Hall)].
    + left. split; [exact Hr|].
      intros e' [<- | Hin] Hty'; [contradiction | auto].
    + right. split; [lia|]. exists e. rewrite (Hshift _ Hle).
      repeat split; try assumption.
      intros e' [<- | Hin] Hty'; [contradiction | auto].
Qed.

(** When no entry of the kind has a positive age, [removeOldestEffect]
    removes nothing. *)
Lemma removeOldestEffect_none_aged ty m :
  (forall e, In e (activeEffects m) -> type e = ty -> age e <= 0) ->
  removeOldestEffect ty m = m.
Proof.
  intros Hyoung. unfold removeOldestEffect.
  destruct (findOldest_spec ty (activeEffects m) 0 (-1) 0)
    as [[Hr _] | (_ & e & He & Hte & Hage & _)].
  - cbv zeta in Hr. rewrite Hr. reflexivity.
  - exfalso. apply (Qlt_not_le _ _ Hage), Hyoung; [|exact Hte].
    rewrite <- list_elem_of_In. apply list_elem_of_lookup. eauto.
Qed.

(** When some entry of the kind has a positive age, [removeOldestEffect]
    removes exactly one entry: one of that kind, at least as old as every
    entry of the kind; the counter of the kind drops by one. *)
Lemma removeOldestEffect_aged ty m e0 :
  In e0 (activeEffects m) -> type e0 = ty -> 0 < age e0 ->
  exists i e,
    activeEffects m !! i = Some e /\ type e = ty /\
    (forall e', In e' (activeEffects m) -> type e' = ty -> age e' <= age e) /\
    activeEffects (removeOldestEffect ty m) = delete i (activeEffects m) /\
    live ty (removeOldestEffect ty m) = (live ty m - 1)%Z.
Proof.
  intros Hin Hty Hpos. unfold removeOldestEffect.
  destruct (findOldest_spec ty (activeEffects m) 0 (-1) 0)
    as [[_ Hall] | (Hle & e & He & Hte & Hage & Hall)].
  { exfalso. apply (Qlt_not_le _ _ Hpos), (Hall e0 Hin Hty). }
  cbv zeta in Hle, He. rewrite Z.sub_0_r in He.
  assert ((0 <=? findOldest ty (activeEffects m) 0 (-1) 0)%Z = true) as ->
    by lia.
  rewrite He. exists (Z.to_nat (findOldest ty (activeEffects m) 0 (-1) 0)), e.
  repeat split; try assumption.
  unfold live. cbn. rewrite (count_delete _ _ _ _ He).
  rewrite <- Hte, String.eqb_refl. reflexivity.
Qed.

(** A spawn at the cap with an aged entry of the kind around leaves the
    number of live entries of the kind where it was. *)
Lemma createBloodParticles_at_cap_aged m e0 :
  (maxParticleSystems m <= particleCount m)%Z ->
  In e0 (activeEffects m) -> type e0 = "particle"%string -> 0 < age e0 ->
  live "particle" (createBloodParticles m) = live "particle" m.
Proof.
  intros Hcap Hin Hty Hpos. unfold createBloodParticles.
  assert ((maxParticleSystems m <=? particleCount m)%Z = true) as -> by lia.
  destruct (removeOldestEffect_aged "particle" m e0 Hin Hty Hpos)
    as (i & e & _ & _ & _ & _ & Hlive).
  unfold live in *. cbn [push_effect activeEffects].
  rewrite count_app, count_cons, Hlive. cbn [type].
  rewrite String.eqb_refl. change (count "particle" []) with 0%Z. lia.
Qed.

(** A spawn at the cap with no aged entry of the kind around adds one to
    the number of live entries of the kind. *)
Lemma createBloodParticles_at_cap_young m :
  (forall e, In e (activeEffects m) -> type e = "particle"%string -> age e <= 0) ->
  live "particle" (createBloodParticles m) = (live "particle" m + 1)%Z.
Proof.
  intros Hyoung. unfold createBloodParticles.
  rewrite (removeOldestEffect_none_aged _ _ Hyoung).
  assert (Hpush : forall m', live "particle" (push_effect "particle" 2 m')
                             = (live "particle" m' + 1)%Z).
  { intros m'. unfold live. cbn [push_effect activeEffects].
    rewrite count_app, count_cons. cbn [type].
    rewrite String.eqb_refl. change (count "particle" []) with 0%Z. lia. }
  destruct (_ <=? _)%Z; apply Hpush.
Qed.

(** C9. After every sequence of calls on a new effects manager (spawns of
    either kind, impacts, [removeOldestEffect], [update],
    [clearAllEffects]), [particleCount] is the number of entries of
    [activeEffects] of type 'particle' and [decalCount] the number of
    entries of type 'decal'. *)
Theorem counters_match_entries (ops : list Op) :
  particleCount (run ops constructor)
    = Z.of_nat (length (filter (fun e => type e = "particle"%string)
                          (activeEffects (run ops constructor)))) /\
  decalCount (run ops constructor)
    = Z.of_nat (length (filter (fun e => type e = "decal"%string)
                          (activeEffects (run ops constructor)))).
Proof. apply (run_agree ops constructor). split; reflexivity. Qed.

End EffectCounters.

(** ** The player *)

Section PlayerFacts.
Import Player.
Context `{Three}.

Implicit Types (p : Player.t).

Lemma same_vitals_refl p : same_vitals p p.
Proof. repeat split. Qed.

Lemma same_vitals_trans p1 p2 p3 :
  same_vitals p1 p2 -> same_vitals p2 p3 -> same_vitals p1 p3.
Proof.
  unfold same_vitals. intros (A1 & A2 & A3 & A4 & A5 & A6) (B1 & B2 & B3 & B4 & B5 & B6).
  repeat split; congruence.
Qed.

Lemma equipWeapon_vitals i p : same_vitals p (snd (equipWeapon i p)).
Proof.
  unfold equipWeapon. destruct (_ || _); [apply same_vitals_refl|].
  destruct (getCurrentWeapon _) as [[m | r]|]; repeat split.
Qed.

Lemma nextWeapon_vitals p : same_vitals p (snd (nextWeapon p)).
Proof.
  unfold nextWeapon. destruct (_ <=? 1)%Z; [apply same_vitals_refl|].
  apply equipWeapon_vitals.
Qed.

Lemma previousWeapon_vitals p : same_vitals p (snd (previousWeapon p)).
Proof.
  unfold previousWeapon. destruct (_ <=? 1)%Z; [apply same_vitals_refl|].
  apply equipWeapon_vitals.
Qed.

Lemma handle_event_vitals isE p (e : WeaponEvent) :
  same_vitals p (handle_event isE p e).
Proof.
  destruct e as [which | pos nrm | hit | pos dir]; cbn [handle_event];
    [repeat split | repeat split | | repeat split].
  unfold handleWeaponHit. destruct (isE _); repeat split.
Qed.

Lemma handle_events_vitals isE (evs : list WeaponEvent) p :
  same_vitals p (foldl (handle_event isE) p evs).
Proof.
  revert p. induction evs as [|e evs IH]; intros p; [apply same_vitals_refl|].
  cbn. eapply same_vitals_trans; [apply (handle_event_vitals isE p e) | apply IH].
Qed.

Lemma useWeapon_vitals s p : same_vitals p (snd (useWeapon s p)).
Proof.
  unfold useWeapon. destruct (getCurrentWeapon p) as [[m | r]|];
    [| |apply same_vitals_refl].
  - destruct (MeleeWeapon.use _ _ _ _ _ _) as [[ok m'] evs]. cbn [snd].
    eapply same_vitals_trans; [|apply handle_events_vitals]. repeat split.
  - destruct (RangedWeapon.use _ _ _ _ _ _ _) as [[ok r'] evs].
    assert (Hv : same_vitals p
              (foldl (handle_event (isEnemy s)) (store_current (Ranged r') p) evs)).
    { eapply same_vitals_trans; [|apply handle_events_vitals]. repeat split. }
    destruct ok; cbn [snd]; [|exact Hv].
    eapply same_vitals_trans; [exact Hv | repeat split].
Qed.

Lemma reloadWeapon_vitals p : same_vitals p (snd (reloadWeapon p)).
Proof.
  unfold reloadWeapon. destruct (getCurrentWeapon p) as [[m | r]|];
    try apply same_vitals_refl.
  destruct (RangedWeapon.reload r) as [[[] r'] evs]; repeat split.
Qed.

Lemma addWeapon_vitals w p : same_vitals p (snd (addWeapon w p)).
Proof. repeat split. Qed.

(** [update] touches health and look only through [updateLook]. *)
Lemma update_vitals input s dt p :
  match input with
  | None => same_vitals p (update input s dt p)
  | Some i =>
      same_vitals (updateLook (movementX i) (movementY i) dt p)
                  (update input s dt p)
  end.
Proof.
  destruct input as [i|]; [|apply same_vitals_refl].
  unfold update.
  set (p1 := updateLook _ _ _ p).
  set (p2 := if leftButton i then snd (useWeapon s p1) else p1).
  assert (H2 : same_vitals p1 p2).
  { subst p2. destruct (leftButton i);
      [apply useWeapon_vitals | apply same_vitals_refl]. }
  set (p3 := if key_reload i then snd (reloadWeapon p2) else p2).
  assert (H3 : same_vitals p2 p3).
  { subst p3. destruct (key_reload i);
      [apply reloadWeapon_vitals | apply same_vitals_refl]. }
  set (p4 := match getCurrentWeapon p3 with
             | Some (Melee m) => _ | Some (Ranged r) => _ | None => p3 end).
  assert (H4 : same_vitals p3 p4).
  { subst p4. destruct (getCurrentWeapon p3) as [[m | r]|]; repeat split. }
  set (p5 := if key_nextWeapon i then snd (nextWeapon p4) else p4).
  assert (H5 : same_vitals p4 p5).
  { subst p5. destruct (key_nextWeapon i);
      [apply nextWeapon_vitals | apply same_vitals_refl]. }
  set (p6 := if key_previousWeapon i then snd (previousWeapon p5) else p5).
  assert (H6 : same_vitals p5 p6).
  { subst p6. destruct (key_previousWeapon i);
      [apply previousWeapon_vitals | apply same_vitals_refl]. }
  repeat (eapply same_vitals_trans; [eassumption|]).
  repeat split.
Qed.

(** *** Pitch *)

Lemma pitch_limits_ordered :
  (- JS.Math_PI) * (4 # 10) <= JS.Math_PI * (4 # 10).
Proof. vm_compute. discriminate. Qed.

Lemma clamp_within (lo hi x : Q) :
  lo <= hi ->
  lo <= JS.Math_max lo (JS.Math_min hi x) /\
  JS.Math_max lo (JS.Math_min hi x) <= hi.
Proof.
  intros Hlh. split; [apply Math_max_spec|].
  unfold JS.Math_max, JS.Math_min.
  destruct (JS.le hi x) eqn:E1.
  - destruct (JS.le lo hi); [apply Qle_refl | exact Hlh].
  - apply JS_le_false in E1.
    destruct (JS.le lo x); [apply Qlt_le_weak, E1 | exact Hlh].
Qed.

Lemma same_vitals_pitch p p' : same_vitals p p' -> pitch_ok p -> pitch_ok p'.
Proof.
  unfold same_vitals, pitch_ok.
  intros (_ & _ & -> & -> & -> & ->). auto.
Qed.

Lemma updateLook_pitch dx dy dt p : pitch_ok p -> pitch_ok (updateLook dx dy dt p).
Proof.
  intros Hp. unfold updateLook.
  set (p1 := if negb (Qeq_bool dx 0) then _ else p).
  assert (H1 : pitch_ok p1).
  { subst p1. destruct (negb _); [|exact Hp]. exact Hp. }
  destruct (negb (Qeq_bool dy 0)); [|exact H1].
  destruct H1 as (Hmin & Hmax & _).
  assert (Hord : lookVerticalMin p1 <= lookVerticalMax p1).
  { rewrite Hmin, Hmax. apply pitch_limits_ordered. }
  pose proof (clamp_within _ _
                (currentLookVertical p1 + dy * rotationSpeed p1 * dt) Hord)
    as [Hlo Hhi].
  unfold pitch_ok. cbn. auto 10.
Qed.

Lemma takeDamage_pitch a p : pitch_ok p -> pitch_ok (takeDamage a p).
Proof.
  intros Hp. unfold takeDamage. destruct (JS.le _ 0); exact Hp.
Qed.

Lemma step_pitch p (op : Op) : pitch_ok p -> pitch_ok (step p op).
Proof.
  intros Hp. destruct op; cbn [step].
  - exact Hp.
  - exact (same_vitals_pitch _ _ (equipWeapon_vitals _ _) Hp).
  - exact (same_vitals_pitch _ _ (nextWeapon_vitals _) Hp).
  - exact (same_vitals_pitch _ _ (previousWeapon_vitals _) Hp).
  - exact (same_vitals_pitch _ _ (useWeapon_vitals _ _) Hp).
  - exact (same_vitals_pitch _ _ (reloadWeapon_vitals _) Hp).
  - apply updateLook_pitch, Hp.
  - apply takeDamage_pitch, Hp.
  - pose proof (update_vitals input s deltaTime p) as Hu.
    destruct input as [i|].
    + exact (same_vitals_pitch _ _ Hu (updateLook_pitch _ _ _ _ Hp)).
    + exact (same_vitals_pitch _ _ Hu Hp).
Qed.

Lemma run_pitch (ops : list Op) p : pitch_ok p -> pitch_ok (run ops p).
Proof.
  revert p. induction ops as [|op ops IH]; intros p Hp; [exact Hp|].
  cbn. apply IH, step_pitch, Hp.
Qed.

Lemma constructor_pitch : pitch_ok constructor.
Proof. unfold pitch_ok. cbn. repeat split; vm_compute; discriminate. Qed.

(** C6. After any sequence of calls on a new player (mouse-look updates
    with any deltas, whole frames, or any other call), the look angle
    [currentLookVertical] and the camera's pitch [camera.rotation.x] lie
    within [-0.4 pi, 0.4 pi], the limits being [-Math.PI * 0.4] and
    [Math.PI * 0.4]. *)
Theorem pitch_within_limits (ops : list Op) :
  let p := run ops constructor in
  (- JS.Math_PI) * (4 # 10) <= currentLookVertical p /\
  currentLookVertical p <= JS.Math_PI * (4 # 10) /\
  (- JS.Math_PI) * (4 # 10) <= camera_rotation_x p /\
  camera_rotation_x p <= JS.Math_PI * (4 # 10).
Proof.
  cbv zeta. destruct (run_pitch ops constructor constructor_pitch)
    as (Hmin & Hmax & H1 & H2 & H3 & H4).
  rewrite Hmin in H1, H3. rewrite Hmax in H2, H4. auto.
Qed.

End PlayerFacts.

Section PlayerHealth.
Import Player.
Context `{Three}.

Implicit Types (p : Player.t).

(** What [takeDamage] does, in full: the health drops by the amount, and
    one line goes to the console when the new health is not positive.
    Nothing else is written, and no other field changes. *)
Lemma takeDamage_effect (a : Q) p :
  health (takeDamage a p) = health p - a /\
  output (takeDamage a p)
  = output p ++ (if JS.le (health p - a) 0
                 then [ConsoleLog "Player died"] else []) /\
  weapons (takeDamage a p) = weapons p /\
  currentWeaponIndex (takeDamage a p) = currentWeaponIndex p /\
  effectsManager (takeDamage a p) = effectsManager p.
Proof.
  unfold takeDamage. cbn.
  destruct (JS.le (health p - a) 0); cbn; repeat split.
  symmetry. apply app_nil_r.
Qed.

Lemma updateLook_health dx dy dt p : health (updateLook dx dy dt p) = health p.
Proof.
  unfold updateLook. destruct (negb (Qeq_bool dy 0)), (negb (Qeq_bool dx 0));
    reflexivity.
Qed.

Lemma step_health p (op : Op) :
  health (step p op)
  = match op with TakeDamage a => health p - a | _ => health p end.
Proof.
  destruct op; cbn [step].
  - reflexivity.
  - apply equipWeapon_vitals.
  - apply nextWeapon_vitals.
  - apply previousWeapon_vitals.
  - apply useWeapon_vitals.
  - apply reloadWeapon_vitals.
  - apply updateLook_health.
  - apply takeDamage_effect.
  - pose proof (update_vitals input s deltaTime p) as Hu.
    destruct input as [i|]; destruct Hu as [Hh _]; rewrite Hh;
      [apply updateLook_health | reflexivity].
Qed.

Lemma run_health_le (ops : list Op) p :
  damage_nonnegative ops -> health p <= 100 -> health (run ops p) <= 100.
Proof.
  revert p. induction ops as [|op ops IH]; intros p Hops Hp; [exact Hp|].
  apply Forall_cons in Hops as [Hop Hops]. cbn. apply IH; [exact Hops|].
  rewrite step_health. destruct op; try exact Hp.
  apply Qle_trans with (health p - 0); [|lra].
  lra.
Qed.

Lemma updateHealthUI_range (h : Q) :
  h <= 100 -> 0 <= updateHealthUI h /\ updateHealthUI h <= 100.
Proof.
  intros Hh. unfold updateHealthUI.
  assert (Hm : 0 <= JS.Math_max 0 h /\ JS.Math_max 0 h <= 100).
  { split; [apply Math_max_spec|]. unfold JS.Math_max.
    destruct (JS.le 0 h); [exact Hh | discriminate]. }
  destruct Hm as [H0 H1].
  assert (E : JS.Math_max 0 h / 100 * 100 == JS.Math_max 0 h) by (field).
  rewrite E. auto.
Qed.

(** C8, amended. Over any sequence of calls on a new player in which no
    [takeDamage] amount is negative, the health never exceeds 100, and
    the value the page shows for it ([updateHealthUI]: the health with
    negative values shown as 0) stays within 0 to 100. *)
Theorem health_at_most_100 (ops : list Op) :
  damage_nonnegative ops ->
  let p := run ops constructor in
  health p <= 100 /\
  0 <= updateHealthUI (health p) /\ updateHealthUI (health p) <= 100.
Proof.
  intros Hops p.
  assert (Hp : health p <= 100).
  { apply run_health_le; [exact Hops | cbn; apply Qle_refl]. }
  split; [exact Hp | apply updateHealthUI_range, Hp].
Qed.

(** C10. For an index below 0 or not below [weapons.length],
    [equipWeapon] answers false and the player is unchanged: the equipped
    index, the models attached to the weapon container and every other
    field stay as they were. *)
Theorem equipWeapon_out_of_range (index : Z) p :
  (index < 0 \/ Z.of_nat (length (weapons p)) <= index)%Z ->
  equipWeapon index p = (false, p).
Proof.
  intros Hi. unfold equipWeapon.
  assert ((index <? 0)%Z || (Z.of_nat (length (weapons p)) <=? index)%Z = true)
    as ->; [|reflexivity].
  apply orb_true_iff. lia.
Qed.

End PlayerHealth.

Example constructor_equipped :
  length (Player.weapons Player.constructor) = 5%nat /\
  Player.currentWeaponIndex Player.constructor = 0%Z /\
  Player.weaponContainer Player.constructor = [0%nat] /\
  Player.health Player.constructor = 100.
Proof. repeat split; reflexivity. Qed.

Example equip_in_range :
  fst (Player.equipWeapon 3 Player.constructor) = true /\
  Player.currentWeaponIndex (snd (Player.equipWeapon 3 Player.constructor)) = 3%Z /\
  Player.weaponContainer (snd (Player.equipWeapon 3 Player.constructor)) = [3%nat].
Proof. repeat split; reflexivity. Qed.

Lemma equipWeapon_out_of_range_witness :
  (5 < 0 \/ Z.of_nat (length (Player.weapons Player.constructor)) <= 5)%Z /\
  Player.equipWeapon 5 Player.constructor = (false, Player.constructor).
Proof.
  split.
  - right. discriminate.
  - apply (equipWeapon_out_of_range 5 Player.constructor). right. discriminate.
Defined.

(** C8, as stated, fails both ways: from health 100, damage 70 and then 40
    leave the health at -10, and a negative amount lifts it to 150. *)
Lemma health_leaves_range :
  ~ 0 <= Player.health
           (Player.run [Player.TakeDamage 70; Player.TakeDamage 40]
              Player.constructor) /\
  ~ Player.health (Player.run [Player.TakeDamage (-50)] Player.constructor)
    <= 100.
Proof. split; intros Hle; vm_compute in Hle; apply Hle; reflexivity. Qed.

Lemma health_at_most_100_witness :
  damage_nonnegative [Player.TakeDamage 70; Player.EquipWeapon 1; Player.TakeDamage 40] /\
  Player.health
    (Player.run [Player.TakeDamage 70; Player.EquipWeapon 1; Player.TakeDamage 40]
       Player.constructor) <= 100.
Proof.
  split.
  - repeat constructor; discriminate.
  - apply (health_at_most_100
             [Player.TakeDamage 70; Player.EquipWeapon 1; Player.TakeDamage 40]).
    repeat constructor; discriminate.
Defined.

(** C7 at the input of scenario D: a player at health 30 takes 40 damage.
    The health becomes -10 and the call writes the one line
    "Player died" to the console; that line is all the call produces. *)
Theorem takeDamage_at_30_by_40 :
  Player.health wounded_player = 30 /\
  Player.health (Player.takeDamage 40 wounded_player) = -10 /\
  Player.output (Player.takeDamage 40 wounded_player)
  = Player.output wounded_player ++ [ConsoleLog "Player died"].
Proof.
  split; [vm_compute; reflexivity|].
  split; vm_compute; reflexivity.
Qed.

(** ** Melee hit detection *)

Section MeleeFacts.
Import MeleeWeapon.
Context `{Three}.

Lemma flat_map_nil {A B : Type} (l : list A) :
  flat_map (fun _ : A => @nil B) l = [].
Proof. induction l as [|x l IH]; [reflexivity | exact IH]. Qed.

(** The fan has eleven rays: the centre and five on each side. *)
Lemma rays_count (w : t) (position direction : Vector3) :
  length (rays w position direction) = 11%nat /\
  length (ray_angles w) = 11%nat.
Proof. split; reflexivity. Qed.

(** The centre ray keeps [direction]; the two rays of a step have opposite
    angles. *)
Lemma rays_symmetric (w : t) (position direction : Vector3) (i : nat) :
  (ray_direction <$> head (rays w position direction)) = Some direction /\
  head (ray_angles w) = Some 0 /\
  rightAngle (degToRad (swingWidth w)) i
    == - leftAngle (degToRad (swingWidth w)) i.
Proof.
  repeat split. unfold rightAngle, leftAngle. ring.
Qed.

(** The sort keeps the entries and puts a nearest one first. *)
Lemma insert_by_distance_In (h x : Intersection) (l : list Intersection) :
  In x (insert_by_distance h l) <-> x = h \/ In x l.
Proof.
  induction l as [|h' l IH]; cbn [insert_by_distance].
  - cbn. intuition.
  - destruct (JS.le (distance h) (distance h')); cbn [In].
    + intuition.
    + rewrite IH. intuition.
Qed.

Lemma sort_by_distance_In (x : Intersection) (l : list Intersection) :
  In x (sort_by_distance l) <-> In x l.
Proof.
  induction l as [|h l IH]; [reflexivity|].
  cbn [sort_by_distance foldr]. fold (sort_by_distance l).
  rewrite insert_by_distance_In, IH. cbn. intuition.
Qed.

Lemma insert_by_distance_head (h : Intersection) (l : list Intersection) :
  (forall c rest, l = c :: rest ->
                  forall x, In x l -> distance c <= distance x) ->
  forall c rest, insert_by_distance h l = c :: rest ->
                 forall x, In x (insert_by_distance h l) ->
                           distance c <= distance x.
Proof.
  intros Hl c rest Hc x Hx. apply insert_by_distance_In in Hx.
  destruct l as [|h' l']; cbn [insert_by_distance] in Hc.
  - injection Hc as <- <-. destruct Hx as [-> | []]. apply Qle_refl.
  - specialize (Hl h' l' eq_refl).
    destruct (JS.le (distance h) (distance h')) eqn:E; injection Hc as <- <-.
    + apply JS_le_iff in E. destruct Hx as [-> | Hx]; [apply Qle_refl|].
      apply Qle_trans with (distance h'); [exact E | apply Hl, Hx].
    + apply JS_le_false in E. destruct Hx as [-> | Hx];
        [apply Qlt_le_weak, E | apply Hl, Hx].
Qed.

Lemma sort_by_distance_head (l : list Intersection) (c : Intersection)
    (rest : list Intersection) :
  sort_by_distance l = c :: rest ->
  In c l /\ forall x, In x l -> distance c <= distance x.
Proof.
  intros Hs. split.
  { apply sort_by_distance_In. rewrite Hs. left. reflexivity. }
  assert (Hmin : forall c rest, sort_by_distance l = c :: rest ->
            forall x, In x (sort_by_distance l) -> distance c <= distance x).
  { clear. induction l as [|h l IH]; [discriminate|].
    cbn [sort_by_distance foldr]. fold (sort_by_distance l).
    apply insert_by_distance_head. exact IH. }
  intros x Hx. apply (Hmin c rest Hs), sort_by_distance_In, Hx.
Qed.

(** What the code does with a non-empty collection of hits: it takes one
    at the least distance, and when that one is within [range] it shows
    the impact and calls back once, with the damage of the formula. *)
Lemma processHits_closest (w : t) (hits : list Intersection) (h0 : Intersection) :
  In h0 hits ->
  exists closest,
    In closest hits /\
    (forall x, In x hits -> distance closest <= distance x) /\
    processHits w hits true
    = if JS.le (distance closest) (Weapon.range (base w)) then
        [ShowImpactEffect (point closest) (face_normal closest);
         HitCallback
           {| hit_object := object closest;
              hit_point := point closest;
              hit_normal := face_normal closest;
              hit_damage :=
                Weapon.calculateDamage (base w)
                  {| critical := false;
                     mod_distance := Some (distance closest) |};
              hit_knockback := Some (knockback w) |}]
      else [].
Proof.
  intros Hin. unfold processHits.
  destruct (sort_by_distance hits) as [|c rest] eqn:Hs.
  { apply sort_by_distance_In in Hin. rewrite Hs in Hin. destruct Hin. }
  destruct (sort_by_distance_head hits c rest Hs) as [Hc Hmin].
  exists c. repeat split; assumption.
Qed.

(** Every ray is cast against the empty array, so nothing is ever hit and
    the detection step hands out nothing. *)
Lemma performHitDetection_silent (w : t) (position direction : Vector3)
    (hasCallback : bool) :
  performHitDetection w position direction hasCallback = [].
Proof.
  unfold performHitDetection, performHitDetection_on, intersectObjects, no_objects.
  cbn [flat_map sort_by_distance foldr]. rewrite flat_map_nil. reflexivity.
Qed.


End MeleeFacts.

(** C2 at the input of scenario A: the melee weapon of damage 40 and range
    2.5 swung at a target 2.0 straight ahead.  Given the target, the
    detection step selects it and reports damage 8 once; the code gives
    the step the empty array, and the swing that passed the cooldown check
    reports nothing. *)
Theorem melee_swing_reports_nothing :
  let target := {| wall_id := 7; wall_distance := 2 |} in
  MeleeWeapon.performHitDetection_on [target] default_melee origin forward true
  = [ShowImpactEffect (vec3 0 0 (-2)) (vec3 0 0 1);
     HitCallback {| hit_object := 7; hit_point := vec3 0 0 (-2);
                    hit_normal := vec3 0 0 1; hit_damage := 8;
                    hit_knockback := Some 2 |}] /\
  fst (fst (MeleeWeapon.use 1 1 origin forward true default_melee)) = true /\
  snd (MeleeWeapon.use 1 1 origin forward true default_melee) = [].
Proof. repeat split; vm_compute; reflexivity. Qed.

(** ** The damage formula *)

Example gm_shotgun_damage_range :
  Weapon.damage (RangedWeapon.base gm_shotgun) = 15 /\
  Weapon.range (RangedWeapon.base gm_shotgun) = 20.
Proof. split; reflexivity. Qed.


Section DamageFormula.
Context `{Three}.


End DamageFormula.


(** ** The effect caps *)

(** C1 at the input of scenario C: 21 particle bursts on a new manager with
    no [update] in between.  All 21 stay live, one more than the cap of 20:
    the 21st spawn evicted nothing. *)
Theorem particle_cap_exceeded :
  let m := Nat.iter 21 EffectsManager.createBloodParticles
                    EffectsManager.constructor in
  EffectsManager.maxParticleSystems m = 20%Z /\
  EffectsManager.particleCount m = 21%Z /\
  EffectsManager.live "particle" m = 21%Z /\
  map EffectsManager.object (EffectsManager.activeEffects m) = seq 0 21.
Proof. repeat split; vm_compute; reflexivity. Qed.

(** With one [update] between the 20th and the 21st burst the eviction
    works: the oldest entry (object 0) goes and 20 stay. *)
Example particle_cap_kept_after_update :
  let m := EffectsManager.createBloodParticles
             (EffectsManager.update (1 # 60)
                (Nat.iter 20 EffectsManager.createBloodParticles
                          EffectsManager.constructor)) in
  EffectsManager.particleCount m = 20%Z /\
  map EffectsManager.object (EffectsManager.activeEffects m) = seq 1 20.
Proof. repeat split; vm_compute; reflexivity. Qed.

(** The same with decals: 51 splatters in a row leave 51 live, one more
    than the cap of 50. *)
Example decal_cap_exceeded :
  let m := Nat.iter 51 EffectsManager.createBloodSplatter
                    EffectsManager.constructor in
  EffectsManager.maxDecals m = 50%Z /\
  EffectsManager.decalCount m = 51%Z /\
  EffectsManager.live "decal" m = 51%Z.
Proof. repeat split; vm_compute; reflexivity. Qed.

(** ** What [update] keeps, and the scene *)

Section EffectLifecycle.
Import EffectsManager.

Implicit Types (l : list Effect) (e : Effect) (m : t).

Lemma insert_at_length {A : Type} (l1 l2 : list A) (x y : A) :
  <[length l1 := y]> (l1 ++ x :: l2) = l1 ++ y :: l2.
Proof. induction l1 as [|a l1 IH]; cbn; [reflexivity | f_equal; exact IH]. Qed.

Lemma update_step_at_length dt l1 e l2 m :
  activeEffects m = l1 ++ e :: l2 ->
  activeEffects (update_step dt (length l1) m)
  = l1 ++ (if Effect_over (Effect_advance dt e) then []
           else [Effect_advance dt e]) ++ l2.
Proof.
  intros Hm. unfold update_step.
  rewrite Hm, (list_lookup_middle l1 l2 e _ eq_refl).
  unfold Effect_advance, Effect_over, Effect_update. cbn [snd].
  set (e' := set_age (age e + dt) e).
  destruct (JS.ge (age e') (lifetime e')); cbn [activeEffects set_activeEffects
    set_scene decrement]; rewrite insert_at_length.
  - apply delete_middle.
  - reflexivity.
Qed.

Lemma unfinished_after_app dt l1 l2 :
  unfinished_after dt (l1 ++ l2)
  = unfinished_after dt l1 ++ unfinished_after dt l2.
Proof. unfold unfinished_after. rewrite map_app. apply List.filter_app. Qed.

Lemma update_loop_prefix dt l1 : forall l2 m,
  activeEffects m = l1 ++ l2 ->
  activeEffects (update_loop dt (length l1) m) = unfinished_after dt l1 ++ l2.
Proof.
  induction l1 as [|e l1 IH] using rev_ind; intros l2 m Hm; [exact Hm|].
  rewrite length_app, Nat.add_comm. cbn [length Nat.add update_loop].
  rewrite <- app_assoc in Hm. cbn [app] in Hm.
  rewrite (IH _ _ (update_step_at_length dt l1 e l2 m Hm)).
  rewrite unfinished_after_app, <- app_assoc. f_equal.
  unfold unfinished_after. cbn [map List.filter].
  destruct (Effect_over (Effect_advance dt e)); reflexivity.
Qed.

Lemma update_activeEffects dt m :
  activeEffects (update dt m) = unfinished_after dt (activeEffects m).
Proof.
  unfold update.
  rewrite (update_loop_prefix dt (activeEffects m) [] m (eq_sym (app_nil_r _))).
  apply app_nil_r.
Qed.


(** *** Ages stay below lifetimes *)

Lemma Forall_delete {A : Type} (P : A -> Prop) (l : list A) (i : nat) :
  Forall P l -> Forall P (delete i l).
Proof.
  revert i. induction l as [|x l IH]; intros i Hl; [exact Hl|].
  apply Forall_cons in Hl as [Hx Hl]. destruct i as [|i]; cbn; [exact Hl|].
  apply Forall_cons. split; [exact Hx | apply IH, Hl].
Qed.

Lemma removeOldestEffect_sublist ty m :
  removeOldestEffect ty m = m \/
  exists i, activeEffects (removeOldestEffect ty m) = delete i (activeEffects m).
Proof.
  unfold removeOldestEffect. destruct (0 <=? _)%Z; [|left; reflexivity].
  destruct (activeEffects m !! _) eqn:E; [|left; reflexivity].
  right. eexists. reflexivity.
Qed.

Lemma removeOldestEffect_Forall (P : Effect -> Prop) ty m :
  Forall P (activeEffects m) -> Forall P (activeEffects (removeOldestEffect ty m)).
Proof.
  intros Hm. destruct (removeOldestEffect_sublist ty m) as [-> | [i ->]];
    [exact Hm | apply Forall_delete, Hm].
Qed.

Lemma spawn_Forall (P : Effect -> Prop) ty life (b : bool) m :
  (forall o, P {| type := ty; object := o; lifetime := life; age := 0 |}) ->
  Forall P (activeEffects m) ->
  Forall P (activeEffects
              (push_effect ty life (if b then removeOldestEffect ty m else m))).
Proof.
  intros Hnew Hm. cbn [push_effect activeEffects]. apply Forall_app. split.
  - destruct b; [apply removeOldestEffect_Forall|]; exact Hm.
  - apply Forall_cons. split; [apply Hnew | apply Forall_nil; exact I].
Qed.

Lemma update_all_unfinished dt m :
  Forall (fun e => age e < lifetime e) (activeEffects (update dt m)).
Proof.
  rewrite update_activeEffects. unfold unfinished_after.
  apply List.Forall_forall. intros e He. apply List.filter_In in He as [_ He].
  apply negb_true_iff in He. unfold Effect_over, JS.ge in He.
  apply JS_le_false in He. exact He.
Qed.

Lemma step_all_unfinished m (op : Op) :
  Forall (fun e => age e < lifetime e) (activeEffects m) ->
  Forall (fun e => age e < lifetime e) (activeEffects (step m op)).
Proof.
  intros Hm.
  assert (Hp : forall m', Forall (fun e => age e < lifetime e) (activeEffects m') ->
             Forall (fun e => age e < lifetime e)
                    (activeEffects (createBloodParticles m'))).
  { intros m' Hm'. apply spawn_Forall; [intros o; reflexivity | exact Hm']. }
  assert (Hd : forall m', Forall (fun e => age e < lifetime e) (activeEffects m') ->
             Forall (fun e => age e < lifetime e)
                    (activeEffects (createBloodSplatter m'))).
  { intros m' Hm'. apply spawn_Forall; [intros o; reflexivity | exact Hm']. }
  destruct op; cbn [step].
  - apply Hp, Hm.
  - apply Hd, Hm.
  - unfold createBloodImpact. destruct (JS.gt intensity (7 # 10)); [|auto].
    generalize (Z.to_nat (JS.Math_floor ((intensity - (7 # 10)) * 6))).
    intros n. induction n as [|n IH]; cbn [Nat.iter nat_rect]; auto.
  - apply removeOldestEffect_Forall, Hm.
  - apply update_all_unfinished.
  - apply Forall_nil. exact I.
Qed.

(** X2. Whatever is called on a new effects manager, with whatever time
    steps, every entry of [activeEffects] has an age strictly below its
    lifetime. *)
Theorem age_below_lifetime (ops : list Op) (e : Effect) :
  In e (activeEffects (run ops constructor)) -> age e < lifetime e.
Proof.
  assert (H : forall m, Forall (fun e => age e < lifetime e) (activeEffects m) ->
            Forall (fun e => age e < lifetime e) (activeEffects (run ops m))).
  { induction ops as [|op ops IH]; intros m Hm; [exact Hm|].
    cbn. apply IH, step_all_unfinished, Hm. }
  intros He. specialize (H constructor (Forall_nil_2 _)).
  rewrite List.Forall_forall in H. apply H, He.
Qed.

End EffectLifecycle.

Lemma age_below_lifetime_witness :
  exists e,
    In e (EffectsManager.activeEffects
            (EffectsManager.run
               [EffectsManager.CreateBloodSplatter; EffectsManager.Update (1 # 2)]
               EffectsManager.constructor)) /\
    EffectsManager.age e < EffectsManager.lifetime e.
Proof.
  eexists. split.
  - cbn. left. reflexivity.
  - apply (age_below_lifetime
             [EffectsManager.CreateBloodSplatter; EffectsManager.Update (1 # 2)]).
    cbn. left. reflexivity.
Defined.

Section EffectScene.
Import EffectsManager.

Implicit Types (l : list Effect) (e : Effect) (m : t).

Lemma scene_remove_absent (o : nat) (sc : list nat) :
  ~ In o sc -> scene_remove o sc = sc.
Proof.
  intros Ho. unfold scene_remove. induction sc as [|x sc IH]; [reflexivity|].
  rewrite filter_cons. case_decide as Hx.
  - f_equal. apply IH. intros Hin. apply Ho. right. exact Hin.
  - exfalso. apply Ho. left. destruct (decide (x = o)); [assumption | contradiction].
Qed.

Lemma scene_remove_head (o : nat) (sc : list nat) :
  scene_remove o (o :: sc) = scene_remove o sc.
Proof. unfold scene_remove. rewrite filter_cons. case_decide; [contradiction | reflexivity]. Qed.

Lemma scene_remove_other (o x : nat) (sc : list nat) :
  x <> o -> scene_remove o (x :: sc) = x :: scene_remove o sc.
Proof. intros Hx. unfold scene_remove. rewrite filter_cons. case_decide; [reflexivity | contradiction]. Qed.

Lemma scene_remove_entry l i e :
  NoDup (map object l) -> l !! i = Some e ->
  scene_remove (object e) (map object l) = map object (delete i l).
Proof.
  revert i. induction l as [|x l IH]; intros i Hnd Hi; [discriminate|].
  cbn [map] in Hnd. apply NoDup_cons in Hnd as [Hx Hnd].
  destruct i as [|i]; cbn in Hi.
  - injection Hi as ->. cbn [map delete list_delete].
    rewrite scene_remove_head. apply scene_remove_absent.
    rewrite <- list_elem_of_In. exact Hx.
  - change (delete (S i) (x :: l)) with (x :: delete i l). cbn [map].
    rewrite scene_remove_other; [f_equal; apply IH; assumption|].
    intros Heq. apply Hx. rewrite Heq. apply list_elem_of_In, in_map.
    rewrite <- list_elem_of_In. apply list_elem_of_lookup. eauto.
Qed.

Lemma map_object_insert l i e e' :
  l !! i = Some e -> object e' = object e ->
  map object (<[i := e']> l) = map object l.
Proof.
  revert i. induction l as [|x l IH]; intros i Hi Ho; [discriminate|].
  destruct i as [|i]; cbn in Hi.
  - injection Hi as ->. cbn. f_equal. exact Ho.
  - change (<[S i := e']> (x :: l)) with (x :: <[i := e']> l). cbn [map].
    f_equal. apply IH; assumption.
Qed.

Lemma NoDup_map_delete l i : NoDup (map object l) -> NoDup (map object (delete i l)).
Proof.
  revert i. induction l as [|x l IH]; intros i Hnd; [exact Hnd|].
  cbn [map] in Hnd. apply NoDup_cons in Hnd as [Hx Hnd].
  destruct i as [|i]; [exact Hnd|].
  change (delete (S i) (x :: l)) with (x :: delete i l). cbn [map].
  apply NoDup_cons. split; [|apply IH, Hnd].
  intros Hin. apply Hx. apply list_elem_of_In in Hin. apply list_elem_of_In.
  apply in_map_iff in Hin as (y & Hy & Hin). apply in_map_iff. exists y.
  split; [exact Hy|]. clear -Hin. revert i Hin.
  induction l as [|z l IH]; intros i Hin; [destruct i; exact Hin|].
  destruct i as [|i]; [right; exact Hin|].
  destruct Hin as [-> | Hin]; [left; reflexivity | right; apply (IH i), Hin].
Qed.

(** Taking the entry at [i] out of the list and its object out of the
    scene keeps the scene in step with the list. *)
Lemma remove_entry_mirrors m i e (f : t -> t) :
  scene_mirrors_effects m -> activeEffects m !! i = Some e ->
  (forall m', scene (f m') = scene m' /\ activeEffects (f m') = activeEffects m' /\
              nextObject (f m') = nextObject m') ->
  scene_mirrors_effects
    (f (set_activeEffects (delete i (activeEffects m))
          (set_scene (scene_remove (object e) (scene m)) m))).
Proof.
  intros (Hs & Hnd & Hlt) Hi Hf. unfold scene_mirrors_effects.
  destruct (Hf (set_activeEffects (delete i (activeEffects m))
                  (set_scene (scene_remove (object e) (scene m)) m)))
    as (-> & -> & ->).
  cbn. rewrite Hs. split; [apply scene_remove_entry; assumption|].
  split; [apply NoDup_map_delete, Hnd|].
  rewrite Forall_fmap in Hlt |- *. apply Forall_delete, Hlt.
Qed.

Lemma decrement_frame ty m :
  scene (decrement ty m) = scene m /\
  activeEffects (decrement ty m) = activeEffects m /\
  nextObject (decrement ty m) = nextObject m.
Proof. repeat split. Qed.

Lemma removeOldestEffect_mirrors ty m :
  scene_mirrors_effects m -> scene_mirrors_effects (removeOldestEffect ty m).
Proof.
  intros Hm. unfold removeOldestEffect. destruct (0 <=? _)%Z; [|exact Hm].
  destruct (activeEffects m !! _) as [e|] eqn:Hi; [|exact Hm].
  exact (remove_entry_mirrors m _ e (decrement ty) Hm Hi (decrement_frame ty)).
Qed.

Lemma push_effect_mirrors ty life m :
  scene_mirrors_effects m -> scene_mirrors_effects (push_effect ty life m).
Proof.
  intros (Hs & Hnd & Hlt). unfold scene_mirrors_effects.
  cbn [push_effect scene activeEffects nextObject]. rewrite map_app, Hs.
  cbn [map object]. split; [reflexivity|]. split.
  - apply NoDup_app. split; [exact Hnd|]. split; [|apply NoDup_singleton].
    intros x Hx Hx'. apply list_elem_of_singleton in Hx'. subst x.
    rewrite Forall_forall in Hlt. specialize (Hlt _ Hx). lia.
  - apply Forall_app. split.
    + eapply Forall_impl; [exact Hlt|]. cbn. intros x Hx. lia.
    + apply Forall_cons. split; [lia | apply Forall_nil; exact I].
Qed.

Lemma update_step_mirrors dt i m :
  scene_mirrors_effects m -> scene_mirrors_effects (update_step dt i m).
Proof.
  intros Hm. unfold update_step.
  destruct (activeEffects m !! i) as [e|] eqn:Hi; [|exact Hm].
  unfold Effect_update. cbv zeta.
  set (e' := set_age (age e + dt) e).
  set (m1 := set_activeEffects (<[i := e']> (activeEffects m)) m).
  assert (Hm1 : scene_mirrors_effects m1).
  { destruct Hm as (Hs & Hnd & Hlt). unfold scene_mirrors_effects. cbn.
    rewrite (map_object_insert _ _ e e' Hi eq_refl). auto. }
  destruct (JS.ge (age e') (lifetime e')); [|exact Hm1].
  assert (Hi1 : activeEffects m1 !! i = Some e').
  { cbn. apply list_lookup_insert_eq. apply lookup_lt_Some in Hi. exact Hi. }
  exact (remove_entry_mirrors m1 i e' (decrement (type e')) Hm1 Hi1
           (decrement_frame (type e'))).
Qed.

Lemma update_loop_mirrors dt n m :
  scene_mirrors_effects m -> scene_mirrors_effects (update_loop dt n m).
Proof.
  revert m. induction n as [|n IH]; intros m Hm; [exact Hm|].
  cbn. apply IH, update_step_mirrors, Hm.
Qed.

Lemma clear_scene l (sc : list nat) (x : nat) :
  In x (foldl (fun sc e => scene_remove (object e) sc) sc l) ->
  In x sc /\ ~ In x (map object l).
Proof.
  revert sc. induction l as [|e l IH]; intros sc Hx; [split; [exact Hx | intros []]|].
  cbn [foldl] in Hx. apply IH in Hx as [Hx Hnot].
  unfold scene_remove in Hx. apply list_elem_of_In, list_elem_of_filter in Hx.
  destruct Hx as [Hne Hx]. apply list_elem_of_In in Hx.
  split; [exact Hx|]. cbn [map]. intros [Heq | Hin]; [congruence | contradiction].
Qed.

Lemma clearAllEffects_mirrors m :
  scene_mirrors_effects m -> scene_mirrors_effects (clearAllEffects m).
Proof.
  intros (Hs & _ & _). unfold scene_mirrors_effects.
  cbn [clearAllEffects scene activeEffects map].
  split; [|split; [apply NoDup_nil; exact I | apply Forall_nil; exact I]].
  destruct (foldl _ _ _) as [|x sc] eqn:E; [reflexivity|].
  exfalso. assert (Hx : In x (x :: sc)) by (left; reflexivity).
  rewrite <- E in Hx. apply clear_scene in Hx as [Hx Hnot].
  apply Hnot. rewrite <- Hs. exact Hx.
Qed.

Lemma step_mirrors m (op : Op) :
  scene_mirrors_effects m -> scene_mirrors_effects (step m op).
Proof.
  intros Hm.
  assert (Hp : forall m', scene_mirrors_effects m' ->
                 scene_mirrors_effects (createBloodParticles m')).
  { intros m' Hm'. apply push_effect_mirrors.
    destruct (_ <=? _)%Z; [apply removeOldestEffect_mirrors|]; exact Hm'. }
  assert (Hd : forall m', scene_mirrors_effects m' ->
                 scene_mirrors_effects (createBloodSplatter m')).
  { intros m' Hm'. apply push_effect_mirrors.
    destruct (_ <=? _)%Z; [apply removeOldestEffect_mirrors|]; exact Hm'. }
  destruct op; cbn [step].
  - apply Hp, Hm.
  - apply Hd, Hm.
  - unfold createBloodImpact. destruct (JS.gt intensity (7 # 10)); [|auto].
    generalize (Z.to_nat (JS.Math_floor ((intensity - (7 # 10)) * 6))).
    intros n. induction n as [|n IH]; cbn [Nat.iter nat_rect]; auto.
  - apply removeOldestEffect_mirrors, Hm.
  - apply update_loop_mirrors, Hm.
  - apply clearAllEffects_mirrors, Hm.
Qed.

Lemma run_mirrors (ops : list Op) m :
  scene_mirrors_effects m -> scene_mirrors_effects (run ops m).
Proof.
  revert m. induction ops as [|op ops IH]; intros m Hm; [exact Hm|].
  cbn. apply IH, step_mirrors, Hm.
Qed.

Lemma constructor_mirrors : scene_mirrors_effects constructor.
Proof.
  repeat split; [apply NoDup_nil; exact I | apply Forall_nil; exact I].
Qed.

(** X3. Whatever is called on a new effects manager, the objects it has
    put into the scene and not taken out again are exactly the objects of
    the entries of [activeEffects], in the same order and each once: no
    effect that was evicted, finished or cleared stays in the scene, and no
    live effect is missing from it. *)
Theorem scene_holds_the_live_effects (ops : list Op) :
  scene (run ops constructor) = map object (activeEffects (run ops constructor))
  /\ NoDup (scene (run ops constructor)).
Proof.
  destruct (run_mirrors ops constructor constructor_mirrors) as (Hs & Hnd & _).
  split; [exact Hs | rewrite Hs; exact Hnd].
Qed.

End EffectScene.

(** ** The caps, frame by frame *)

Section EffectCaps.
Import EffectsManager.

Implicit Types (l : list Effect) (e : Effect) (m : t) (ty : string).




Lemma count_nonneg ty l : (0 <= count ty l)%Z.
Proof. unfold count. lia. Qed.





















End EffectCaps.


(** ** Weapons over time *)

Section WeaponsOverTime.
Context `{Three}.

Lemma Weapon_use_true (now now' : Q) (b b' : Weapon.t) (evs : list WeaponEvent) :
  Weapon.use now now' b = (true, b', evs) ->
  b' = Weapon.set_lastUsed now' b /\
  evs = (if Weapon.soundEffects_use b then [PlaySound "use"] else []).
Proof.
  unfold Weapon.use. destruct (negb (Weapon.canUse now b)); [discriminate|].
  intros Heq. injection Heq as <- <-. split; reflexivity.
Qed.

Lemma AnyWeapon_use_true (w : AnyWeapon) (now now' : Q)
    (random position direction : Vector3) (cb : bool) :
  let r := AnyWeapon_use now now' random position direction cb w in
  fst (fst r) = true ->
  AnyWeapon_base (snd (fst r)) = Weapon.set_lastUsed now' (AnyWeapon_base w).
Proof.
  destruct w as [m | r]; cbn [AnyWeapon_use AnyWeapon_base].
  - unfold MeleeWeapon.use.
    destruct (Weapon.use now now' (MeleeWeapon.base m)) as [[[] b] evs] eqn:E;
      cbn; [|discriminate].
    intros _. apply Weapon_use_true in E as [-> _]. reflexivity.
  - unfold RangedWeapon.use.
    destruct (RangedWeapon.isReloading r); [cbn; discriminate|].
    destruct (RangedWeapon.ammo_current r <=? 0)%Z.
    { destruct (RangedWeapon.reload r) as [[ok r'] evs]. cbn. discriminate. }
    destruct (Weapon.use now now' (RangedWeapon.base r)) as [[[] b] evs] eqn:E;
      cbn; [|discriminate].
    intros _. apply Weapon_use_true in E as [-> _]. reflexivity.
Qed.

Lemma AnyWeapon_update_base_times (dt : Q) (w : AnyWeapon) :
  Weapon.lastUsed (AnyWeapon_base (AnyWeapon_update dt w))
    = Weapon.lastUsed (AnyWeapon_base w) /\
  Weapon.cooldown (AnyWeapon_base (AnyWeapon_update dt w))
    = Weapon.cooldown (AnyWeapon_base w).
Proof.
  destruct w as [m | r]; cbn [AnyWeapon_update AnyWeapon_base].
  - unfold MeleeWeapon.update. destruct (MeleeWeapon.isSwinging m); [|auto].
    destruct (JS.ge _ 1); split; reflexivity.
  - unfold RangedWeapon.update. destruct (RangedWeapon.isReloading r); [|auto].
    destruct (JS.ge _ 1); split; reflexivity.
Qed.

Lemma AnyWeapon_updates_base_times (dts : list Q) (w : AnyWeapon) :
  Weapon.lastUsed (AnyWeapon_base (AnyWeapon_updates dts w))
    = Weapon.lastUsed (AnyWeapon_base w) /\
  Weapon.cooldown (AnyWeapon_base (AnyWeapon_updates dts w))
    = Weapon.cooldown (AnyWeapon_base w).
Proof.
  revert w. induction dts as [|dt dts IH]; intros w; [auto|].
  cbn [AnyWeapon_updates foldl]. fold (AnyWeapon_updates dts (AnyWeapon_update dt w)).
  destruct (IH (AnyWeapon_update dt w)) as [-> ->]. apply AnyWeapon_update_base_times.
Qed.

Lemma AnyWeapon_use_in_cooldown_fails (w : AnyWeapon) (now now' : Q)
    (random position direction : Vector3) (cb : bool) :
  now - Weapon.lastUsed (AnyWeapon_base w) < Weapon.cooldown (AnyWeapon_base w) ->
  fst (fst (AnyWeapon_use now now' random position direction cb w)) = false.
Proof.
  intros Hc. destruct w as [m | r]; cbn [AnyWeapon_use AnyWeapon_base] in *.
  - unfold MeleeWeapon.use. rewrite (Weapon_use_in_cooldown _ _ _ Hc). reflexivity.
  - unfold RangedWeapon.use.
    destruct (RangedWeapon.isReloading r); [reflexivity|].
    destruct (RangedWeapon.ammo_current r <=? 0)%Z.
    { destruct (RangedWeapon.reload r) as [[ok r'] evs]. reflexivity. }
    rewrite (Weapon_use_in_cooldown _ _ _ Hc). reflexivity.
Qed.

(** X5. The cooldown limits the rate of fire.  After a [use] that
    answered true and stamped the time [now'], and after any number of
    [update] calls, every [use] that reads a clock less than [cooldown]
    seconds past [now'] answers false, for a melee and for a ranged
    weapon. *)
Theorem no_second_use_within_cooldown (w : AnyWeapon) (now now' : Q)
    (random position direction : Vector3) (cb : bool) (dts : list Q)
    (now2 now2' : Q) (random2 position2 direction2 : Vector3) (cb2 : bool) :
  let r := AnyWeapon_use now now' random position direction cb w in
  fst (fst r) = true ->
  now2 - now' < Weapon.cooldown (AnyWeapon_base w) ->
  fst (fst (AnyWeapon_use now2 now2' random2 position2 direction2 cb2
              (AnyWeapon_updates dts (snd (fst r))))) = false.
Proof.
  intros r Hok Hsoon. apply AnyWeapon_use_in_cooldown_fails.
  destruct (AnyWeapon_updates_base_times dts (snd (fst r))) as [-> ->].
  subst r. rewrite (AnyWeapon_use_true w now now' random position direction cb Hok).
  exact Hsoon.
Qed.

(** *** Ammunition accounting *)

Lemma ranged_use_total (now now' : Q) (random position direction : Vector3)
    (cb : bool) (w : RangedWeapon.t) :
  let r := RangedWeapon.use now now' random position direction cb w in
  total_ammo (snd (fst r))
  = (total_ammo w - (if fst (fst r) then 1 else 0))%Z /\
  (fst (fst r) = true ->
     (0 < RangedWeapon.ammo_current w)%Z /\
     RangedWeapon.ammo_current (snd (fst r)) = (RangedWeapon.ammo_current w - 1)%Z /\
     RangedWeapon.ammo_reserve (snd (fst r)) = RangedWeapon.ammo_reserve w) /\
  (fst (fst r) = false ->
     RangedWeapon.ammo_current (snd (fst r)) = RangedWeapon.ammo_current w /\
     RangedWeapon.ammo_reserve (snd (fst r)) = RangedWeapon.ammo_reserve w).
Proof.
  unfold RangedWeapon.use, total_ammo.
  destruct (RangedWeapon.isReloading w).
  { cbn. repeat split; try discriminate; lia. }
  destruct (RangedWeapon.ammo_current w <=? 0)%Z eqn:Eammo.
  - pose proof (reload_keeps_ammo w) as Hr. cbv zeta in Hr.
    destruct (RangedWeapon.reload w) as [[ok w'] evs]. cbn in *.
    destruct Hr as (-> & -> & _). repeat split; try discriminate; lia.
  - destruct (Weapon.use now now' (RangedWeapon.base w)) as [[[] b] evs]; cbn;
      repeat split; try discriminate; lia.
Qed.

Lemma ranged_step_total (w : RangedWeapon.t) (op : RangedOp) :
  total_ammo (RangedWeapon_step w op)
  = (total_ammo w - shots_fired [op] w)%Z.
Proof.
  destruct op as [now now' rnd pos dir cb | | dt]; cbn [RangedWeapon_step shots_fired].
  - destruct (ranged_use_total now now' rnd pos dir cb w) as [-> _]. lia.
  - pose proof (reload_keeps_ammo w) as Hr. cbv zeta in Hr.
    destruct Hr as (Hc & Hres & _). unfold total_ammo. rewrite Hc, Hres. lia.
  - destruct (ranged_update_ammo dt w) as (_ & -> & _). lia.
Qed.

(** X6. The rounds of a ranged weapon are accounted for: over any run of
    [use], [reload] and [update] calls, magazine plus reserve at the end
    is magazine plus reserve at the start minus the number of [use] calls
    that answered true.  Reloading moves rounds and neither makes nor
    loses any. *)
Theorem rounds_are_accounted_for (ops : list RangedOp) (w : RangedWeapon.t) :
  total_ammo (RangedWeapon_run ops w) = (total_ammo w - shots_fired ops w)%Z.
Proof.
  revert w. induction ops as [|op ops IH]; intros w; [cbn; lia|].
  cbn [RangedWeapon_run foldl]. fold (RangedWeapon_run ops (RangedWeapon_step w op)).
  rewrite IH, ranged_step_total. cbn [shots_fired]. lia.
Qed.

Lemma ranged_step_nonneg (w : RangedWeapon.t) (op : RangedOp) :
  (0 <= RangedWeapon.ammo_current w <= RangedWeapon.ammo_max w)%Z ->
  (0 <= RangedWeapon.ammo_reserve w)%Z ->
  let w' := RangedWeapon_step w op in
  (0 <= RangedWeapon.ammo_current w' <= RangedWeapon.ammo_max w')%Z /\
  (0 <= RangedWeapon.ammo_reserve w')%Z.
Proof.
  intros Hc Hr. destruct op as [now now' rnd pos dir cb | | dt];
    cbn [RangedWeapon_step]; cbv zeta.
  - pose proof (ranged_use_ammo now now' rnd pos dir cb w) as Hu. cbv zeta in Hu.
    destruct Hu as (-> & -> & [-> | [Hpos ->]]); lia.
  - pose proof (reload_keeps_ammo w) as Hk. cbv zeta in Hk.
    destruct Hk as (-> & -> & -> & _). lia.
  - unfold RangedWeapon.update. destruct (RangedWeapon.isReloading w); [|lia].
    destruct (JS.ge _ 1); cbn; lia.
Qed.

Lemma shots_fired_nonneg (ops : list RangedOp) (w : RangedWeapon.t) :
  (0 <= shots_fired ops w)%Z.
Proof.
  revert w. induction ops as [|op ops IH]; intros w; [cbn; lia|].
  cbn [shots_fired]. specialize (IH (RangedWeapon_step w op)).
  destruct op; [destruct (fst (fst _))|..]; lia.
Qed.

(** X7. A ranged weapon that starts with [0 <= current <= max] and
    [0 <= reserve] never shows a negative magazine or reserve, whatever is
    called on it, and never fires more rounds than it held at the start. *)
Theorem ammo_never_negative (ops : list RangedOp) (w : RangedWeapon.t) :
  (0 <= RangedWeapon.ammo_current w <= RangedWeapon.ammo_max w)%Z ->
  (0 <= RangedWeapon.ammo_reserve w)%Z ->
  let w' := RangedWeapon_run ops w in
  (0 <= RangedWeapon.ammo_current w')%Z /\
  (0 <= RangedWeapon.ammo_reserve w')%Z /\
  (shots_fired ops w <= total_ammo w)%Z.
Proof.
  intros Hc Hr w'.
  assert (Hinv : (0 <= RangedWeapon.ammo_current w' <= RangedWeapon.ammo_max w')%Z /\
                 (0 <= RangedWeapon.ammo_reserve w')%Z).
  { subst w'. revert w Hc Hr. induction ops as [|op ops IH]; intros w Hc Hr; [auto|].
    cbn [RangedWeapon_run foldl]. fold (RangedWeapon_run ops (RangedWeapon_step w op)).
    destruct (ranged_step_nonneg w op Hc Hr) as [Hc' Hr']. apply IH; assumption. }
  destruct Hinv as [Hc' Hr'].
  assert (Hacc : total_ammo w' = (total_ammo w - shots_fired ops w)%Z).
  { subst w'. clear. revert w. induction ops as [|op ops IH]; intros w; [cbn; lia|].
    cbn [RangedWeapon_run foldl]. fold (RangedWeapon_run ops (RangedWeapon_step w op)).
    rewrite IH, ranged_step_total. cbn [shots_fired]. lia. }
  unfold total_ammo in *. repeat split; lia.
Qed.

End WeaponsOverTime.

Lemma ammo_never_negative_witness :
  (0 <= RangedWeapon.ammo_current one_round_pistol
     <= RangedWeapon.ammo_max one_round_pistol)%Z /\
  (0 <= RangedWeapon.ammo_reserve one_round_pistol)%Z /\
  (shots_fired [RUse 10 10 origin origin forward true;
                RUse 11 11 origin origin forward true] one_round_pistol
   <= total_ammo one_round_pistol)%Z.
Proof.
  assert (H1 : (0 <= RangedWeapon.ammo_current one_round_pistol
                  <= RangedWeapon.ammo_max one_round_pistol)%Z)
    by (split; discriminate).
  assert (H2 : (0 <= RangedWeapon.ammo_reserve one_round_pistol)%Z) by discriminate.
  split; [exact H1 | split; [exact H2|]].
  apply (ammo_never_negative
           [RUse 10 10 origin origin forward true;
            RUse 11 11 origin origin forward true] one_round_pistol H1 H2).
Defined.

Lemma no_second_use_within_cooldown_witness :
  fst (fst (AnyWeapon_use 10 10 origin origin forward true (Ranged one_round_pistol)))
    = true /\
  (1005 # 100) - 10
    < Weapon.cooldown (AnyWeapon_base (Ranged one_round_pistol)) /\
  fst (fst (AnyWeapon_use (1005 # 100) (1005 # 100) origin origin forward true
              (AnyWeapon_updates [1 # 60; 1 # 60]
                 (snd (fst (AnyWeapon_use 10 10 origin origin forward true
                              (Ranged one_round_pistol))))))) = false.
Proof.
  split; [reflexivity | split; [reflexivity|]].
  apply (no_second_use_within_cooldown (Ranged one_round_pistol) 10 10
           origin origin forward true [1 # 60; 1 # 60]);
    reflexivity.
Defined.

(** ** Reloading and swinging to the end *)

Section ReloadAndSwing.
Context `{Three}.

Lemma ranged_updates_idle (dts : list Q) (w : RangedWeapon.t) :
  RangedWeapon.isReloading w = false -> RangedWeapon_updates dts w = w.
Proof.
  intros Hw. induction dts as [|dt dts IH]; [reflexivity|].
  change (RangedWeapon_updates (dt :: dts) w)
    with (RangedWeapon_updates dts (RangedWeapon.update dt w)).
  unfold RangedWeapon.update. rewrite Hw. exact IH.
Qed.

Lemma total_time_cons (dt : Q) (dts : list Q) :
  total_time (dt :: dts) = dt + total_time dts.
Proof. reflexivity. Qed.

Lemma rounding_margin_S (n : nat) :
  rounding_margin (S n) == rounding_margin n + 2 ^ (-50).
Proof.
  unfold rounding_margin. rewrite Nat2Z.inj_succ. unfold Z.succ.
  rewrite inject_Z_plus. change (inject_Z 1) with 1. ring.
Qed.

Lemma reload_runs_to_the_end (dts : list Q) : forall (w : RangedWeapon.t),
  RangedWeapon.isReloading w = true ->
  0 < RangedWeapon.reloadTime w ->
  0 <= RangedWeapon.reloadProgress w ->
  RangedWeapon.reloadProgress w < 1 ->
  Forall (fun dt => 0 <= dt) dts ->
  1 - RangedWeapon.reloadProgress w + rounding_margin (length dts)
    <= total_time dts / RangedWeapon.reloadTime w ->
  let w' := RangedWeapon_updates dts w in
  RangedWeapon.isReloading w' = false /\
  RangedWeapon.ammo_current w'
    = Z.min (RangedWeapon.ammo_max w)
            (RangedWeapon.ammo_current w + RangedWeapon.ammo_reserve w) /\
  RangedWeapon.ammo_reserve w'
    = (total_ammo w - Z.min (RangedWeapon.ammo_max w)
                            (RangedWeapon.ammo_current w + RangedWeapon.ammo_reserve w))%Z.
Proof.
  induction dts as [|dt dts IH]; intros w Hrel HT Hp0 Hp Hdts Hsum; cbv zeta.
  - exfalso. cbn [length total_time foldr] in Hsum. unfold Qdiv in Hsum.
    assert (E : 0 * / RangedWeapon.reloadTime w == 0) by ring.
    assert (E0 : rounding_margin 0 == 0) by reflexivity.
    rewrite E, E0 in Hsum. lra.
  - change (RangedWeapon_updates (dt :: dts) w)
      with (RangedWeapon_updates dts (RangedWeapon.update dt w)).
    apply Forall_cons in Hdts as [Hdt Hdts].
    unfold RangedWeapon.update. rewrite Hrel.
    pose proof (progress_step (RangedWeapon.reloadProgress w) dt
                  (RangedWeapon.reloadTime w) HT Hp0 Hdt) as Hstep.
    cbv zeta in Hstep.
    set (p' := JS.add (RangedWeapon.reloadProgress w)
                      (JS.div dt (RangedWeapon.reloadTime w))) in *.
    destruct (JS.ge p' 1) eqn:Hdone.
    + rewrite ranged_updates_idle by reflexivity. cbn. unfold total_ammo.
      repeat split; lia.
    + apply (JS_le_false 1 p') in Hdone.
      destruct Hstep as [Hge | (Hp'0 & _ & Hlow)]; [exfalso; lra|].
      specialize (IH (RangedWeapon.set_reload true p' w) eq_refl HT Hp'0 Hdone Hdts).
      cbv zeta in IH. cbn in IH. apply IH.
      cbn [length] in Hsum. rewrite rounding_margin_S, total_time_cons in Hsum.
      assert (E : (dt + total_time dts) / RangedWeapon.reloadTime w
                  == dt / RangedWeapon.reloadTime w
                     + total_time dts / RangedWeapon.reloadTime w).
      { field. intros H0. rewrite H0 in HT. discriminate. }
      rewrite E in Hsum.
      set (m := rounding_margin (length dts)) in *. set (c := 2 ^ (-50)) in *.
      clearbody m c p'. lra.
Qed.

(** X8. A reload runs to its end, up to rounding.  For a weapon that is
    reloading, with a positive [reloadTime] and a progress from 0 to below
    1, once the time steps of the [update] calls, none of them negative,
    add up to what is left of the reload time and [2^-50] of the reload
    time more for every call, the weapon has stopped reloading, the
    magazine holds [min(max, current + reserve)] rounds and the reserve
    holds the rest. *)
Theorem reload_completes_after_reloadTime (dts : list Q) (w : RangedWeapon.t) :
  RangedWeapon.isReloading w = true ->
  0 < RangedWeapon.reloadTime w ->
  0 <= RangedWeapon.reloadProgress w ->
  RangedWeapon.reloadProgress w < 1 ->
  Forall (fun dt => 0 <= dt) dts ->
  (1 - RangedWeapon.reloadProgress w + rounding_margin (length dts))
    * RangedWeapon.reloadTime w <= total_time dts ->
  let w' := RangedWeapon_updates dts w in
  RangedWeapon.isReloading w' = false /\
  RangedWeapon.ammo_current w'
    = Z.min (RangedWeapon.ammo_max w)
            (RangedWeapon.ammo_current w + RangedWeapon.ammo_reserve w) /\
  (RangedWeapon.ammo_current w' + RangedWeapon.ammo_reserve w'
   = RangedWeapon.ammo_current w + RangedWeapon.ammo_reserve w)%Z.
Proof.
  intros Hrel HT Hp0 Hp Hdts Hsum.
  apply (Qle_shift_div_l _ _ _ HT) in Hsum.
  destruct (reload_runs_to_the_end dts w Hrel HT Hp0 Hp Hdts Hsum) as (H1 & H2 & H3).
  cbv zeta. unfold total_ammo in H3. repeat split; [exact H1 | exact H2 | lia].
Qed.

(** The margin is needed: with the pistol's reload time of 1.5 s, six
    steps of 0.25 s add up to the reload time, and the progress the code has
    added up is 0.9999999999999999: the weapon is still reloading.  One
    more step ends the reload. *)
Example reload_short_of_one :
  let dts := [1 # 4; 1 # 4; 1 # 4; 1 # 4; 1 # 4; 1 # 4] in
  RangedWeapon.reloadTime reloading_pistol == 15 # 10 /\
  total_time dts == 15 # 10 /\
  RangedWeapon.isReloading (RangedWeapon_updates dts reloading_pistol) = true /\
  RangedWeapon.reloadProgress (RangedWeapon_updates dts reloading_pistol)
    == 9007199254740991 # 9007199254740992 /\
  RangedWeapon.isReloading
    (RangedWeapon_updates (dts ++ [1 # 4]) reloading_pistol) = false.
Proof. cbv zeta. repeat split; vm_compute; reflexivity. Qed.

(** X9. A ranged weapon that is not reloading and has neither a round in
    the magazine nor one in reserve is inert: no sequence of [use],
    [reload] and [update] calls changes it, and every [use] answers
    false. *)
Theorem empty_weapon_is_inert (ops : list RangedOp) (w : RangedWeapon.t) :
  RangedWeapon.isReloading w = false ->
  (RangedWeapon.ammo_current w <= 0)%Z ->
  (RangedWeapon.ammo_reserve w <= 0)%Z ->
  RangedWeapon_run ops w = w /\ shots_fired ops w = 0%Z.
Proof.
  intros Hrel Hc Hr.
  assert (Hreload : RangedWeapon.reload w = (false, w, [])).
  { unfold RangedWeapon.reload.
    assert ((RangedWeapon.ammo_reserve w <=? 0)%Z = true) as -> by lia.
    rewrite !orb_true_r. reflexivity. }
  assert (Hstep : forall op, RangedWeapon_step w op = w /\ shots_fired [op] w = 0%Z).
  { intros [now now' rnd pos dir cb | | dt]; cbn [RangedWeapon_step shots_fired].
    - unfold RangedWeapon.use. rewrite Hrel.
      assert ((RangedWeapon.ammo_current w <=? 0)%Z = true) as -> by lia.
      rewrite Hreload. split; reflexivity.
    - rewrite Hreload. split; reflexivity.
    - unfold RangedWeapon.update. rewrite Hrel. split; reflexivity. }
  induction ops as [|op ops [IH1 IH2]]; [split; reflexivity|].
  destruct (Hstep op) as [Hs Hn]. cbn [RangedWeapon_run foldl shots_fired] in *.
  rewrite Hs. split; [exact IH1|]. rewrite IH2. lia.
Qed.

(** *** The swing *)

Lemma melee_updates_idle (dts : list Q) (w : MeleeWeapon.t) :
  MeleeWeapon.isSwinging w = false -> MeleeWeapon_updates dts w = w.
Proof.
  intros Hw. induction dts as [|dt dts IH]; [reflexivity|].
  change (MeleeWeapon_updates (dt :: dts) w)
    with (MeleeWeapon_updates dts (MeleeWeapon.update dt w)).
  unfold MeleeWeapon.update. rewrite Hw. exact IH.
Qed.

Lemma swing_runs_to_the_end (dts : list Q) : forall (w : MeleeWeapon.t),
  MeleeWeapon.isSwinging w = true ->
  0 < MeleeWeapon.swingDuration w ->
  0 <= MeleeWeapon.swingProgress w ->
  MeleeWeapon.swingProgress w < 1 ->
  Forall (fun dt => 0 <= dt) dts ->
  1 - MeleeWeapon.swingProgress w + rounding_margin (length dts)
    <= total_time dts / MeleeWeapon.swingDuration w ->
  let w' := MeleeWeapon_updates dts w in
  MeleeWeapon.isSwinging w' = false /\
  MeleeWeapon.swingProgress w' = 0 /\
  Weapon.model_rotation (MeleeWeapon.base w') = MeleeWeapon.initialRotation w.
Proof.
  induction dts as [|dt dts IH]; intros w Hsw HT Hp0 Hp Hdts Hsum; cbv zeta.
  - exfalso. cbn [length total_time foldr] in Hsum. unfold Qdiv in Hsum.
    assert (E : 0 * / MeleeWeapon.swingDuration w == 0) by ring.
    assert (E0 : rounding_margin 0 == 0) by reflexivity.
    rewrite E, E0 in Hsum. lra.
  - change (MeleeWeapon_updates (dt :: dts) w)
      with (MeleeWeapon_updates dts (MeleeWeapon.update dt w)).
    apply Forall_cons in Hdts as [Hdt Hdts].
    unfold MeleeWeapon.update. rewrite Hsw.
    pose proof (progress_step (MeleeWeapon.swingProgress w) dt
                  (MeleeWeapon.swingDuration w) HT Hp0 Hdt) as Hstep.
    cbv zeta in Hstep.
    set (p' := JS.add (MeleeWeapon.swingProgress w)
                      (JS.div dt (MeleeWeapon.swingDuration w))) in *.
    destruct (JS.ge p' 1) eqn:Hdone.
    + rewrite melee_updates_idle by reflexivity. cbn. repeat split.
    + apply (JS_le_false 1 p') in Hdone.
      destruct Hstep as [Hge | (Hp'0 & _ & Hlow)]; [exfalso; lra|].
      cbv zeta.
      match goal with
      | |- context [MeleeWeapon_updates dts ?w1] =>
          specialize (IH w1 eq_refl HT Hp'0 Hdone Hdts)
      end.
      cbv zeta in IH. cbn in IH. apply IH.
      cbn [length] in Hsum. rewrite rounding_margin_S, total_time_cons in Hsum.
      assert (E : (dt + total_time dts) / MeleeWeapon.swingDuration w
                  == dt / MeleeWeapon.swingDuration w
                     + total_time dts / MeleeWeapon.swingDuration w).
      { field. intros H0. rewrite H0 in HT. discriminate. }
      rewrite E in Hsum.
      set (m := rounding_margin (length dts)) in *. set (c := 2 ^ (-50)) in *.
      clearbody m c p'. lra.
Qed.

(** X10. A swing ends where it began, up to rounding.  After a [use] that
    answered true on a weapon with a positive [swingDuration], once the
    time steps of the [update] calls, none of them negative, add up to the
    swing duration and [2^-50] of it more for every call, the weapon is no
    longer swinging, its progress is back at 0 and the rotation of its
    model is the rotation it had before the [use]. *)
Theorem swing_ends_where_it_began (w : MeleeWeapon.t) (now now' : Q)
    (position direction : Vector3) (cb : bool) (dts : list Q) :
  let r := MeleeWeapon.use now now' position direction cb w in
  fst (fst r) = true ->
  0 < MeleeWeapon.swingDuration w ->
  Forall (fun dt => 0 <= dt) dts ->
  (1 + rounding_margin (length dts)) * MeleeWeapon.swingDuration w
    <= total_time dts ->
  let w' := MeleeWeapon_updates dts (snd (fst r)) in
  MeleeWeapon.isSwinging w' = false /\
  MeleeWeapon.swingProgress w' = 0 /\
  Weapon.model_rotation (MeleeWeapon.base w')
    = Weapon.model_rotation (MeleeWeapon.base w).
Proof.
  intros r Hok HT Hdts Hsum. subst r. revert Hok. unfold MeleeWeapon.use.
  destruct (Weapon.use now now' (MeleeWeapon.base w)) as [[[] b] evs] eqn:E;
    [|cbn; discriminate].
  intros _. apply Weapon_use_true in E as [-> _]. cbn [fst snd].
  apply (Qle_shift_div_l _ _ _ HT) in Hsum.
  match goal with
  | |- context [MeleeWeapon_updates dts ?w1] =>
      pose proof (swing_runs_to_the_end dts w1 eq_refl HT) as Hend
  end.
  cbn in Hend. apply Hend; [discriminate | reflexivity | exact Hdts | lra].
Qed.

(** The margin is needed: with a swing of 0.75 s, six steps of 0.125 s add
    up to the swing duration, and the progress the code has added up is
    0.9999999999999999: the weapon is still swinging.  One more step ends
    the swing. *)
Example swing_short_of_one :
  let dts := [1 # 8; 1 # 8; 1 # 8; 1 # 8; 1 # 8; 1 # 8] in
  let w := snd (fst (MeleeWeapon.use 1 1 origin forward true slow_melee)) in
  fst (fst (MeleeWeapon.use 1 1 origin forward true slow_melee)) = true /\
  total_time dts == MeleeWeapon.swingDuration slow_melee /\
  MeleeWeapon.isSwinging (MeleeWeapon_updates dts w) = true /\
  MeleeWeapon.swingProgress (MeleeWeapon_updates dts w)
    == 9007199254740991 # 9007199254740992 /\
  MeleeWeapon.isSwinging (MeleeWeapon_updates (dts ++ [1 # 8]) w) = false.
Proof. cbv zeta. repeat split; vm_compute; reflexivity. Qed.

(** *** No weapon tells of a hit *)

Lemma ranged_performRaycast_silent (w : RangedWeapon.t)
    (position direction : Vector3) (cb : bool) :
  RangedWeapon.performRaycast w position direction cb = [].
Proof. reflexivity. Qed.

(** X11. No call of [use], on a melee or a ranged weapon, hitscan or
    projectile, hands out a hit: the events of the call hold neither an
    impact effect nor a call of the hit callback, whatever the scene
    holds. *)
Theorem use_never_tells_of_a_hit (w : AnyWeapon) (now now' : Q)
    (random position direction : Vector3) (cb : bool) :
  forallb (fun e => negb (is_hit_event e))
    (snd (AnyWeapon_use now now' random position direction cb w)) = true.
Proof.
  destruct w as [m | r]; cbn [AnyWeapon_use].
  - unfold MeleeWeapon.use, Weapon.use.
    destruct (negb (Weapon.canUse now (MeleeWeapon.base m))); [reflexivity|].
    cbn [snd]. rewrite performHitDetection_silent, app_nil_r.
    destruct (Weapon.soundEffects_use (MeleeWeapon.base m)); reflexivity.
  - unfold RangedWeapon.use.
    destruct (RangedWeapon.isReloading r); [reflexivity|].
    destruct (RangedWeapon.ammo_current r <=? 0)%Z.
    { unfold RangedWeapon.reload. destruct (_ || _); [reflexivity|].
      destruct (Weapon.soundEffects_reload (RangedWeapon.base r)); reflexivity. }
    unfold Weapon.use.
    destruct (negb (Weapon.canUse now (RangedWeapon.base r))); [reflexivity|].
    cbn [snd]. rewrite ranged_performRaycast_silent.
    destruct (Weapon.soundEffects_use (RangedWeapon.base r)),
      (RangedWeapon.useProjectile _); reflexivity.
Qed.

End ReloadAndSwing.

Lemma reload_completes_after_reloadTime_witness :
  let w := snd (fst (RangedWeapon.reload emptied_pistol)) in
  RangedWeapon.isReloading w = true /\
  RangedWeapon.isReloading (RangedWeapon_updates [1; 1; 1] w) = false /\
  RangedWeapon.ammo_current (RangedWeapon_updates [1; 1; 1] w) = 1%Z /\
  RangedWeapon.ammo_reserve (RangedWeapon_updates [1; 1; 1] w) = 47%Z.
Proof.
  cbv zeta. split; [reflexivity|].
  destruct (reload_completes_after_reloadTime [1; 1; 1]
              (snd (fst (RangedWeapon.reload emptied_pistol))))
    as (Hr & Hc & Ht);
    [reflexivity | reflexivity | discriminate | reflexivity
    | repeat constructor; discriminate | vm_compute; discriminate |].
  split; [exact Hr|]. split; [exact Hc|]. rewrite Hc in Ht. clear Hc.
  change (RangedWeapon.ammo_current (snd (fst (RangedWeapon.reload emptied_pistol))))
    with 0%Z in Ht.
  change (RangedWeapon.ammo_reserve (snd (fst (RangedWeapon.reload emptied_pistol))))
    with 48%Z in Ht.
  change (RangedWeapon.ammo_max (snd (fst (RangedWeapon.reload emptied_pistol))))
    with 1%Z in Ht.
  lia.
Defined.

(** The pistol with magazine and reserve both spent. *)
Lemma empty_weapon_is_inert_witness :
  let w := RangedWeapon.set_ammo 0 0 one_round_pistol in
  RangedWeapon.isReloading w = false /\
  (RangedWeapon.ammo_current w <= 0)%Z /\ (RangedWeapon.ammo_reserve w <= 0)%Z /\
  RangedWeapon_run [RUse 10 10 origin origin forward true; RReload; RUpdate 3] w = w.
Proof.
  cbv zeta. split; [reflexivity | split; [discriminate | split; [discriminate|]]].
  apply (empty_weapon_is_inert
           [RUse 10 10 origin origin forward true; RReload; RUpdate 3]
           (RangedWeapon.set_ammo 0 0 one_round_pistol));
    [reflexivity | discriminate | discriminate].
Defined.

Lemma swing_ends_where_it_began_witness :
  fst (fst (MeleeWeapon.use 1 1 origin forward true default_melee)) = true /\
  0 < MeleeWeapon.swingDuration default_melee /\
  (1 + rounding_margin 2) * MeleeWeapon.swingDuration default_melee
    <= total_time [2 # 10; 2 # 10] /\
  Weapon.model_rotation
    (MeleeWeapon.base
       (MeleeWeapon_updates [2 # 10; 2 # 10]
          (snd (fst (MeleeWeapon.use 1 1 origin forward true default_melee)))))
  = Weapon.model_rotation (MeleeWeapon.base default_melee).
Proof.
  split; [reflexivity | split; [reflexivity | split; [vm_compute; discriminate|]]].
  apply (swing_ends_where_it_began default_melee 1 1 origin forward true
           [2 # 10; 2 # 10]);
    [reflexivity | reflexivity | repeat constructor; discriminate
    | vm_compute; discriminate].
Defined.

(** ** The player's weapons *)

Section PlayerWeapons.
Import Player.
Context `{Three}.

Implicit Types (p : Player.t).

Lemma same_inventory_refl p : same_inventory p p.
Proof. repeat split. Qed.

Lemma same_inventory_trans p1 p2 p3 :
  same_inventory p1 p2 -> same_inventory p2 p3 -> same_inventory p1 p3.
Proof.
  unfold same_inventory. intros (A1 & A2 & A3) (B1 & B2 & B3).
  repeat split; congruence.
Qed.

Lemma same_inventory_equipped p p' :
  same_inventory p p' -> equipped_ok p -> equipped_ok p'.
Proof. unfold same_inventory, equipped_ok. intros (-> & -> & ->). auto. Qed.

Lemma store_current_inventory (w : AnyWeapon) p :
  same_inventory p (store_current w p).
Proof.
  unfold same_inventory, store_current. cbn. rewrite length_insert. auto.
Qed.

Lemma handle_event_inventory isE p (e : WeaponEvent) :
  same_inventory p (handle_event isE p e).
Proof.
  destruct e as [which | pos nrm | hit | pos dir]; cbn [handle_event];
    [repeat split | repeat split | | repeat split].
  unfold handleWeaponHit. destruct (isE _); repeat split.
Qed.

Lemma handle_events_inventory isE (evs : list WeaponEvent) p :
  same_inventory p (foldl (handle_event isE) p evs).
Proof.
  revert p. induction evs as [|e evs IH]; intros p; [apply same_inventory_refl|].
  cbn. eapply same_inventory_trans; [apply (handle_event_inventory isE p e) | apply IH].
Qed.

Lemma useWeapon_inventory s p : same_inventory p (snd (useWeapon s p)).
Proof.
  unfold useWeapon. destruct (getCurrentWeapon p) as [[m | r]|];
    [| |apply same_inventory_refl].
  - destruct (MeleeWeapon.use _ _ _ _ _ _) as [[ok m'] evs]. cbn [snd].
    eapply same_inventory_trans; [apply store_current_inventory
                                 | apply handle_events_inventory].
  - destruct (RangedWeapon.use _ _ _ _ _ _ _) as [[ok r'] evs].
    assert (Hv : same_inventory p
              (foldl (handle_event (isEnemy s)) (store_current (Ranged r') p) evs)).
    { eapply same_inventory_trans; [apply store_current_inventory
                                   | apply handle_events_inventory]. }
    destruct ok; cbn [snd]; [|exact Hv].
    eapply same_inventory_trans; [exact Hv | repeat split].
Qed.

Lemma reloadWeapon_inventory p : same_inventory p (snd (reloadWeapon p)).
Proof.
  unfold reloadWeapon. destruct (getCurrentWeapon p) as [[m | r]|];
    try apply same_inventory_refl.
  destruct (RangedWeapon.reload r) as [[ok r'] evs].
  assert (Hv : same_inventory p (emit (map OfWeapon evs) (store_current (Ranged r') p))).
  { eapply same_inventory_trans; [apply store_current_inventory | repeat split]. }
  destruct ok; cbn [snd]; [|exact Hv].
  eapply same_inventory_trans; [exact Hv | repeat split].
Qed.

Lemma updateLook_inventory dx dy dt p : same_inventory p (updateLook dx dy dt p).
Proof.
  unfold updateLook. destruct (negb (Qeq_bool dy 0)), (negb (Qeq_bool dx 0));
    repeat split.
Qed.

Lemma takeDamage_inventory a p : same_inventory p (takeDamage a p).
Proof. unfold takeDamage. cbn. destruct (JS.le _ 0); repeat split. Qed.

Lemma getCurrentWeapon_in_range p :
  (0 <= currentWeaponIndex p < Z.of_nat (length (weapons p)))%Z ->
  exists w, getCurrentWeapon p = Some w.
Proof.
  intros Hi. unfold getCurrentWeapon.
  destruct (Nat.eqb_spec (length (weapons p)) 0) as [H0 | _]; [lia|].
  assert ((currentWeaponIndex p <? 0)%Z = false) as -> by lia.
  apply lookup_lt_is_Some_2. lia.
Qed.

(** [equipWeapon] with an index in range: it answers true, the index is
    the new one and the one model attached is that weapon's. *)
Lemma equipWeapon_in_range (i : Z) p :
  (0 <= i < Z.of_nat (length (weapons p)))%Z ->
  fst (equipWeapon i p) = true /\
  currentWeaponIndex (snd (equipWeapon i p)) = i /\
  weaponContainer (snd (equipWeapon i p)) = [Z.to_nat i] /\
  weapons (snd (equipWeapon i p)) = weapons p.
Proof.
  intros Hi. unfold equipWeapon.
  assert ((i <? 0)%Z || (Z.of_nat (length (weapons p)) <=? i)%Z = false) as ->.
  { apply orb_false_iff. lia. }
  destruct (getCurrentWeapon_in_range
              (set_currentWeaponIndex i (set_weaponContainer [] p)) Hi)
    as [w ->].
  destruct w; repeat split.
Qed.

Lemma equipWeapon_out_of_range_guard (i : Z) p :
  (i < 0 \/ Z.of_nat (length (weapons p)) <= i)%Z -> equipWeapon i p = (false, p).
Proof.
  intros Hi. unfold equipWeapon.
  assert ((i <? 0)%Z || (Z.of_nat (length (weapons p)) <=? i)%Z = true) as ->;
    [apply orb_true_iff; lia | reflexivity].
Qed.

Lemma equipWeapon_equipped (i : Z) p :
  equipped_ok p -> equipped_ok (snd (equipWeapon i p)).
Proof.
  intros Hp.
  destruct (Z_lt_dec i 0) as [Hneg | Hnn];
    [rewrite equipWeapon_out_of_range_guard by lia; exact Hp|].
  destruct (Z_le_dec (Z.of_nat (length (weapons p))) i) as [Hbig | Hin];
    [rewrite equipWeapon_out_of_range_guard by lia; exact Hp|].
  destruct (equipWeapon_in_range i p) as (_ & Hidx & Hc & Hw); [lia|].
  unfold equipped_ok. rewrite Hidx, Hc, Hw. split; [lia | reflexivity].
Qed.

Lemma nextWeapon_equipped p : equipped_ok p -> equipped_ok (snd (nextWeapon p)).
Proof.
  intros Hp. unfold nextWeapon. destruct (_ <=? 1)%Z; [exact Hp|].
  apply equipWeapon_equipped, Hp.
Qed.

Lemma previousWeapon_equipped p :
  equipped_ok p -> equipped_ok (snd (previousWeapon p)).
Proof.
  intros Hp. unfold previousWeapon. destruct (_ <=? 1)%Z; [exact Hp|].
  apply equipWeapon_equipped, Hp.
Qed.

Lemma addWeapon_equipped w p : equipped_ok p -> equipped_ok (snd (addWeapon w p)).
Proof.
  unfold equipped_ok. cbn. rewrite length_app. cbn. intros [Hi Hc].
  split; [lia | exact Hc].
Qed.

Lemma update_equipped input s dt p :
  equipped_ok p -> equipped_ok (update input s dt p).
Proof.
  intros Hp. destruct input as [i|]; [|exact Hp]. unfold update.
  set (p1 := updateLook _ _ _ p).
  assert (H1 : equipped_ok p1)
    by exact (same_inventory_equipped _ _ (updateLook_inventory _ _ _ _) Hp).
  set (p2 := if leftButton i then snd (useWeapon s p1) else p1).
  assert (H2 : equipped_ok p2).
  { subst p2. destruct (leftButton i); [|exact H1].
    exact (same_inventory_equipped _ _ (useWeapon_inventory _ _) H1). }
  set (p3 := if key_reload i then snd (reloadWeapon p2) else p2).
  assert (H3 : equipped_ok p3).
  { subst p3. destruct (key_reload i); [|exact H2].
    exact (same_inventory_equipped _ _ (reloadWeapon_inventory _) H2). }
  set (p4 := match getCurrentWeapon p3 with
             | Some (Melee m) => _ | Some (Ranged r) => _ | None => p3 end).
  assert (H4 : equipped_ok p4).
  { subst p4. destruct (getCurrentWeapon p3) as [[m | r]|]; [| |exact H3];
      exact (same_inventory_equipped _ _ (store_current_inventory _ _) H3). }
  set (p5 := if key_nextWeapon i then snd (nextWeapon p4) else p4).
  assert (H5 : equipped_ok p5).
  { subst p5. destruct (key_nextWeapon i); [apply nextWeapon_equipped|]; exact H4. }
  set (p6 := if key_previousWeapon i then snd (previousWeapon p5) else p5).
  assert (H6 : equipped_ok p6).
  { subst p6. destruct (key_previousWeapon i);
      [apply previousWeapon_equipped|]; exact H5. }
  exact H6.
Qed.

Lemma step_equipped p (op : Op) : equipped_ok p -> equipped_ok (step p op).
Proof.
  intros Hp. destruct op; cbn [step].
  - apply addWeapon_equipped, Hp.
  - apply equipWeapon_equipped, Hp.
  - apply nextWeapon_equipped, Hp.
  - apply previousWeapon_equipped, Hp.
  - exact (same_inventory_equipped _ _ (useWeapon_inventory _ _) Hp).
  - exact (same_inventory_equipped _ _ (reloadWeapon_inventory _) Hp).
  - exact (same_inventory_equipped _ _ (updateLook_inventory _ _ _ _) Hp).
  - exact (same_inventory_equipped _ _ (takeDamage_inventory _ _) Hp).
  - apply update_equipped, Hp.
Qed.

Lemma run_equipped (ops : list Op) p : equipped_ok p -> equipped_ok (run ops p).
Proof.
  revert p. induction ops as [|op ops IH]; intros p Hp; [exact Hp|].
  cbn. apply IH, step_equipped, Hp.
Qed.

Lemma constructor_equipped_ok : equipped_ok constructor.
Proof.
  split; [split; [vm_compute; discriminate | vm_compute; reflexivity]
         | reflexivity].
Qed.

(** X12. Exactly one weapon is equipped at any time.  After any sequence
    of calls on a new player, [currentWeaponIndex] points into [weapons],
    [getCurrentWeapon] answers a weapon, and the weapon container holds
    one model, that of the current weapon. *)
Theorem one_weapon_equipped (ops : list Op) :
  let p := run ops constructor in
  (0 <= currentWeaponIndex p < Z.of_nat (length (weapons p)))%Z /\
  weaponContainer p = [Z.to_nat (currentWeaponIndex p)] /\
  exists w, getCurrentWeapon p = Some w.
Proof.
  cbv zeta. destruct (run_equipped ops constructor constructor_equipped_ok)
    as [Hi Hc].
  split; [exact Hi | split; [exact Hc | apply getCurrentWeapon_in_range, Hi]].
Qed.

(** *** Cycling *)

Lemma nextWeapon_index p :
  equipped_ok p ->
  currentWeaponIndex (snd (nextWeapon p))
  = ((currentWeaponIndex p + 1) mod Z.of_nat (length (weapons p)))%Z /\
  weapons (snd (nextWeapon p)) = weapons p.
Proof.
  intros [Hi _]. unfold nextWeapon.
  destruct (Z.leb_spec (Z.of_nat (length (weapons p))) 1) as [H1 | H1].
  - cbn [snd]. assert (Z.of_nat (length (weapons p)) = 1%Z) as -> by lia.
    rewrite Z.mod_1_r. split; [lia | reflexivity].
  - rewrite Z.rem_mod_nonneg by lia.
    destruct (equipWeapon_in_range
                ((currentWeaponIndex p + 1) mod Z.of_nat (length (weapons p))) p)
      as (_ & -> & _ & ->); [|split; reflexivity].
    apply Z.mod_pos_bound. lia.
Qed.

Lemma previousWeapon_index p :
  equipped_ok p ->
  currentWeaponIndex (snd (previousWeapon p))
  = ((currentWeaponIndex p - 1) mod Z.of_nat (length (weapons p)))%Z /\
  weapons (snd (previousWeapon p)) = weapons p.
Proof.
  intros [Hi _]. unfold previousWeapon.
  destruct (Z.leb_spec (Z.of_nat (length (weapons p))) 1) as [H1 | H1].
  - cbn [snd]. assert (Z.of_nat (length (weapons p)) = 1%Z) as -> by lia.
    rewrite Z.mod_1_r. split; [lia | reflexivity].
  - rewrite Z.rem_mod_nonneg by lia.
    replace ((currentWeaponIndex p - 1 + Z.of_nat (length (weapons p)))
             mod Z.of_nat (length (weapons p)))%Z
      with ((currentWeaponIndex p - 1) mod Z.of_nat (length (weapons p)))%Z.
    2:{ rewrite <- (Z.mul_1_l (Z.of_nat (length (weapons p)))) at 2.
        rewrite Z.mod_add by lia. reflexivity. }
    destruct (equipWeapon_in_range
                ((currentWeaponIndex p - 1) mod Z.of_nat (length (weapons p))) p)
      as (_ & -> & _ & ->); [|split; reflexivity].
    apply Z.mod_pos_bound. lia.
Qed.

(** X13. Cycling wraps around and undoes itself.  In any state a new
    player can reach, [nextWeapon] moves the index to
    [(index + 1) mod weapons.length], [previousWeapon] to
    [(index - 1) mod weapons.length], and either one followed by the other
    leaves the index where it was. *)
Theorem weapon_cycling_wraps (ops : list Op) :
  let p := run ops constructor in
  let n := Z.of_nat (length (weapons p)) in
  currentWeaponIndex (snd (nextWeapon p)) = ((currentWeaponIndex p + 1) mod n)%Z /\
  currentWeaponIndex (snd (previousWeapon p)) = ((currentWeaponIndex p - 1) mod n)%Z /\
  currentWeaponIndex (snd (previousWeapon (snd (nextWeapon p)))) = currentWeaponIndex p /\
  currentWeaponIndex (snd (nextWeapon (snd (previousWeapon p)))) = currentWeaponIndex p.
Proof.
  cbv zeta. set (p := run ops constructor).
  pose proof (run_equipped ops constructor constructor_equipped_ok) as Hp.
  fold p in Hp.
  destruct (nextWeapon_index p Hp) as [Hn Hnw].
  destruct (previousWeapon_index p Hp) as [Hv Hvw].
  destruct (previousWeapon_index _ (nextWeapon_equipped p Hp)) as [Hvn _].
  destruct (nextWeapon_index _ (previousWeapon_equipped p Hp)) as [Hnv _].
  rewrite Hn, Hnw in Hvn. rewrite Hv, Hvw in Hnv.
  destruct Hp as [Hi _].
  split; [exact Hn | split; [exact Hv | split]].
  - rewrite Hvn. rewrite <- (Z.mod_small (currentWeaponIndex p)
                               (Z.of_nat (length (weapons p)))) at 2 by lia.
    rewrite Zminus_mod_idemp_l. f_equal. lia.
  - rewrite Hnv. rewrite <- (Z.mod_small (currentWeaponIndex p)
                               (Z.of_nat (length (weapons p)))) at 2 by lia.
    rewrite Zplus_mod_idemp_l. f_equal. lia.
Qed.

End PlayerWeapons.

(** ** The player and the effects *)

Section PlayerEffects.
Import Player.
Context `{Three}.

Implicit Types (p : Player.t).

Lemma melee_use_quiet (now now' : Q) (position direction : Vector3) (cb : bool)
    (m : MeleeWeapon.t) :
  forallb (fun e => negb (is_hit_event e))
    (snd (MeleeWeapon.use now now' position direction cb m)) = true.
Proof.
  unfold MeleeWeapon.use, Weapon.use.
  destruct (negb (Weapon.canUse now (MeleeWeapon.base m))); [reflexivity|].
  cbn [snd]. rewrite performHitDetection_silent, app_nil_r.
  destruct (Weapon.soundEffects_use (MeleeWeapon.base m)); reflexivity.
Qed.

Lemma ranged_reload_quiet (r : RangedWeapon.t) :
  forallb (fun e => negb (is_hit_event e)) (snd (RangedWeapon.reload r)) = true.
Proof.
  unfold RangedWeapon.reload. destruct (_ || _); [reflexivity|].
  destruct (Weapon.soundEffects_reload (RangedWeapon.base r)); reflexivity.
Qed.

Lemma ranged_use_quiet (now now' : Q) (random position direction : Vector3)
    (cb : bool) (r : RangedWeapon.t) :
  forallb (fun e => negb (is_hit_event e))
    (snd (RangedWeapon.use now now' random position direction cb r)) = true.
Proof.
  unfold RangedWeapon.use.
  destruct (RangedWeapon.isReloading r); [reflexivity|].
  destruct (RangedWeapon.ammo_current r <=? 0)%Z.
  { pose proof (ranged_reload_quiet r) as Hq.
    destruct (RangedWeapon.reload r) as [[ok r'] evs]. exact Hq. }
  unfold Weapon.use.
  destruct (negb (Weapon.canUse now (RangedWeapon.base r))); [reflexivity|].
  cbn [snd].
  destruct (Weapon.soundEffects_use (RangedWeapon.base r)),
    (RangedWeapon.useProjectile _); reflexivity.
Qed.

Lemma quietly_refl p : quietly p p.
Proof. split; [reflexivity|]. exists []. split; [symmetry; apply app_nil_r | reflexivity]. Qed.

Lemma quietly_trans p1 p2 p3 : quietly p1 p2 -> quietly p2 p3 -> quietly p1 p3.
Proof.
  intros (E1 & evs1 & O1 & Q1) (E2 & evs2 & O2 & Q2). split; [congruence|].
  exists (evs1 ++ evs2). split.
  - rewrite O2, O1. symmetry. apply app_assoc.
  - rewrite forallb_app, Q1, Q2. reflexivity.
Qed.

Lemma quietly_emit (evs : list PlayerEvent) p :
  forallb (fun e => negb (is_hit_output e)) evs = true -> quietly p (emit evs p).
Proof. intros Hq. split; [reflexivity|]. exists evs. split; [reflexivity | exact Hq]. Qed.

Lemma quietly_same_output p p' :
  effectsManager p' = effectsManager p -> output p' = output p -> quietly p p'.
Proof.
  intros He Ho. split; [exact He|]. exists []. split; [|reflexivity].
  rewrite Ho. symmetry. apply app_nil_r.
Qed.

Lemma handle_events_quietly isE (evs : list WeaponEvent) : forall p,
  forallb (fun e => negb (is_hit_event e)) evs = true ->
  quietly p (foldl (handle_event isE) p evs).
Proof.
  induction evs as [|e evs IH]; intros p Hq; [apply quietly_refl|].
  cbn [forallb] in Hq. apply andb_true_iff in Hq as [He Hq]. cbn [foldl].
  eapply quietly_trans; [|apply IH, Hq].
  destruct e as [which | pos nrm | hit | pos dir]; cbn [handle_event];
    try discriminate He; apply quietly_emit; reflexivity.
Qed.

Lemma equipWeapon_quietly i p : quietly p (snd (equipWeapon i p)).
Proof.
  unfold equipWeapon. destruct (_ || _); [apply quietly_refl|].
  destruct (getCurrentWeapon _) as [[m | r]|]; cbn [snd].
  - eapply quietly_trans; [|apply quietly_emit; reflexivity].
    apply quietly_same_output; reflexivity.
  - eapply quietly_trans; [|apply quietly_emit; reflexivity].
    apply quietly_same_output; reflexivity.
  - apply quietly_same_output; reflexivity.
Qed.

Lemma nextWeapon_quietly p : quietly p (snd (nextWeapon p)).
Proof.
  unfold nextWeapon. destruct (_ <=? 1)%Z; [apply quietly_refl | apply equipWeapon_quietly].
Qed.

Lemma previousWeapon_quietly p : quietly p (snd (previousWeapon p)).
Proof.
  unfold previousWeapon. destruct (_ <=? 1)%Z; [apply quietly_refl | apply equipWeapon_quietly].
Qed.

Lemma useWeapon_quietly s p : quietly p (snd (useWeapon s p)).
Proof.
  unfold useWeapon. destruct (getCurrentWeapon p) as [[m | r]|];
    [| |apply quietly_refl].
  - pose proof (melee_use_quiet (now s) (now' s) (camera_position s)
                  (camera_direction s) true m) as Hq.
    destruct (MeleeWeapon.use _ _ _ _ _ _) as [[ok m'] evs]. cbn [snd] in *.
    eapply quietly_trans; [|apply handle_events_quietly, Hq].
    apply quietly_same_output; reflexivity.
  - pose proof (ranged_use_quiet (now s) (now' s) (random s) (camera_position s)
                  (camera_direction s) true r) as Hq.
    destruct (RangedWeapon.use _ _ _ _ _ _ _) as [[ok r'] evs]. cbn [snd] in Hq.
    assert (Hv : quietly p
              (foldl (handle_event (isEnemy s)) (store_current (Ranged r') p) evs)).
    { eapply quietly_trans; [|apply handle_events_quietly, Hq].
      apply quietly_same_output; reflexivity. }
    destruct ok; cbn [snd]; [|exact Hv].
    eapply quietly_trans; [exact Hv | apply quietly_emit; reflexivity].
Qed.

Lemma map_OfWeapon_quiet (evs : list WeaponEvent) :
  forallb (fun e => negb (is_hit_event e)) evs = true ->
  forallb (fun e => negb (is_hit_output e)) (map OfWeapon evs) = true.
Proof.
  induction evs as [|e evs IH]; [reflexivity|]. cbn [forallb map is_hit_output].
  intros Hq. apply andb_true_iff in Hq as [-> Hq]. exact (IH Hq).
Qed.

Lemma reloadWeapon_quietly p : quietly p (snd (reloadWeapon p)).
Proof.
  unfold reloadWeapon. destruct (getCurrentWeapon p) as [[m | r]|];
    try apply quietly_refl.
  pose proof (ranged_reload_quiet r) as Hq.
  destruct (RangedWeapon.reload r) as [[ok r'] evs]. cbn [snd] in Hq.
  assert (Hv : quietly p (emit (map OfWeapon evs) (store_current (Ranged r') p))).
  { eapply quietly_trans; [|apply quietly_emit, map_OfWeapon_quiet, Hq].
    apply quietly_same_output; reflexivity. }
  destruct ok; cbn [snd]; [|exact Hv].
  eapply quietly_trans; [exact Hv | apply quietly_emit; reflexivity].
Qed.

Lemma updateLook_quietly dx dy dt p : quietly p (updateLook dx dy dt p).
Proof.
  unfold updateLook. destruct (negb (Qeq_bool dy 0)), (negb (Qeq_bool dx 0));
    apply quietly_same_output; reflexivity.
Qed.

Lemma takeDamage_quietly a p : quietly p (takeDamage a p).
Proof.
  unfold takeDamage. destruct (JS.le _ 0).
  - eapply quietly_trans; [|apply quietly_emit; reflexivity].
    apply quietly_same_output; reflexivity.
  - apply quietly_same_output; reflexivity.
Qed.

Lemma quietly_no_hit p p' : quietly p p' -> no_hit_so_far p -> no_hit_so_far p'.
Proof.
  intros (He & evs & Ho & Hq) [Hm Hout]. split; [congruence|].
  rewrite Ho, forallb_app, Hout, Hq. reflexivity.
Qed.

Lemma update_no_hit input s dt p : no_hit_so_far p -> no_hit_so_far (update input s dt p).
Proof.
  intros Hp. destruct input as [i|]; [|exact Hp]. unfold update.
  set (p1 := updateLook _ _ _ p).
  assert (H1 : no_hit_so_far p1)
    by exact (quietly_no_hit _ _ (updateLook_quietly _ _ _ _) Hp).
  set (p2 := if leftButton i then snd (useWeapon s p1) else p1).
  assert (H2 : no_hit_so_far p2).
  { subst p2. destruct (leftButton i); [|exact H1].
    exact (quietly_no_hit _ _ (useWeapon_quietly _ _) H1). }
  set (p3 := if key_reload i then snd (reloadWeapon p2) else p2).
  assert (H3 : no_hit_so_far p3).
  { subst p3. destruct (key_reload i); [|exact H2].
    exact (quietly_no_hit _ _ (reloadWeapon_quietly _) H2). }
  set (p4 := match getCurrentWeapon p3 with
             | Some (Melee m) => _ | Some (Ranged r) => _ | None => p3 end).
  assert (H4 : no_hit_so_far p4).
  { subst p4. destruct (getCurrentWeapon p3) as [[m | r]|]; exact H3. }
  set (p5 := if key_nextWeapon i then snd (nextWeapon p4) else p4).
  assert (H5 : no_hit_so_far p5).
  { subst p5. destruct (key_nextWeapon i); [|exact H4].
    exact (quietly_no_hit _ _ (nextWeapon_quietly _) H4). }
  set (p6 := if key_previousWeapon i then snd (previousWeapon p5) else p5).
  assert (H6 : no_hit_so_far p6).
  { subst p6. destruct (key_previousWeapon i); [|exact H5].
    exact (quietly_no_hit _ _ (previousWeapon_quietly _) H5). }
  destruct H6 as [Hm Hout]. split; [|exact Hout].
  cbn [effectsManager set_effectsManager]. rewrite Hm. reflexivity.
Qed.

Lemma step_no_hit p (op : Op) : no_hit_so_far p -> no_hit_so_far (step p op).
Proof.
  intros Hp. destruct op; cbn [step].
  - exact Hp.
  - exact (quietly_no_hit _ _ (equipWeapon_quietly _ _) Hp).
  - exact (quietly_no_hit _ _ (nextWeapon_quietly _) Hp).
  - exact (quietly_no_hit _ _ (previousWeapon_quietly _) Hp).
  - exact (quietly_no_hit _ _ (useWeapon_quietly _ _) Hp).
  - exact (quietly_no_hit _ _ (reloadWeapon_quietly _) Hp).
  - exact (quietly_no_hit _ _ (updateLook_quietly _ _ _ _) Hp).
  - exact (quietly_no_hit _ _ (takeDamage_quietly _ _) Hp).
  - apply update_no_hit, Hp.
Qed.

Lemma constructor_no_hit : no_hit_so_far constructor.
Proof. split; vm_compute; reflexivity. Qed.

(** X14. The player never produces a blood effect.  Whatever is called on
    a new player, with whatever enemies in front of the camera, its effects
    manager stays as constructed (no particle system, no decal), and
    nothing it writes is an enemy's damage, an impact mark or an impact
    effect: [handleWeaponHit] is never reached. *)
Theorem player_never_handles_a_hit (ops : list Op) :
  let p := run ops constructor in
  EffectsManager.activeEffects (effectsManager p) = [] /\
  effectsManager p = EffectsManager.constructor /\
  forall e, In e (output p) -> is_hit_output e = false.
Proof.
  cbv zeta.
  assert (Hrun : forall p, no_hit_so_far p -> no_hit_so_far (run ops p)).
  { induction ops as [|op ops IH]; intros p Hp; [exact Hp|].
    cbn. apply IH, step_no_hit, Hp. }
  destruct (Hrun constructor constructor_no_hit) as [Hm Hout].
  split; [rewrite Hm; reflexivity | split; [exact Hm|]].
  intros e He. rewrite forallb_forall in Hout.
  specialize (Hout e He). apply negb_true_iff in Hout. exact Hout.
Qed.

End PlayerEffects.

(** ** The input controller *)

Section InputFacts.
Import InputController.

Implicit Types (c : InputController.t) (ev : Event).

(** What an event does to the switch delay: nothing, or it arms it from
    the unarmed state, or (the timer) it disarms it. *)
Lemma step_delay c ev :
  (weaponSwitchDelay (step c ev) = weaponSwitchDelay c /\
   pendingTimers (step c ev) = pendingTimers c)
  \/ (weaponSwitchDelay c = false /\ weaponSwitchDelay (step c ev) = true /\
      pendingTimers (step c ev) = S (pendingTimers c))
  \/ (ev = SwitchDelayElapsed /\ pendingTimers c <> 0%nat /\
      weaponSwitchDelay (step c ev) = false /\
      pendingTimers (step c ev) = Nat.pred (pendingTimers c)).
Proof.
  destruct ev as [code | code | cx cy mx my w h | b | b | d | l | |]; cbn [step].
  - unfold onKeyDown.
    repeat (match goal with
            | |- context [String.eqb code ?s] => destruct (String.eqb code s)
            end; try (left; split; reflexivity));
      destruct (weaponSwitchDelay c) eqn:E; cbn [negb];
      try (left; split; [reflexivity || exact E | reflexivity]);
      right; left; repeat split.
  - unfold onKeyUp.
    repeat (match goal with
            | |- context [String.eqb code ?s] => destruct (String.eqb code s)
            end; try (left; split; reflexivity)).
  - unfold onMouseMove. cbn. destruct (isPointerLocked c); left; split; reflexivity.
  - unfold onMouseDown. destruct (Z.eqb b 0), (Z.eqb b 2); left; split; reflexivity.
  - unfold onMouseUp. destruct (Z.eqb b 0), (Z.eqb b 2); left; split; reflexivity.
  - unfold onWheel. destruct (weaponSwitchDelay c) eqn:E; cbn [negb];
      [left; split; [exact E | reflexivity]|].
    right; left. destruct (JS.gt d 0); [|destruct (JS.lt d 0)]; repeat split.
  - left. split; reflexivity.
  - destruct (Nat.eqb_spec (pendingTimers c) 0) as [H0 | H0];
      [left; split; reflexivity|].
    right; right. repeat split. exact H0.
  - left. split; reflexivity.
Qed.

Lemma step_tracks c ev : delay_tracks_timer c -> delay_tracks_timer (step c ev).
Proof.
  intros [Hle Hiff].
  destruct (step_delay c ev) as [[Hd Hp] | [(Hoff & Hon & Hp) | (_ & Hne & Hoff & Hp)]];
    unfold delay_tracks_timer.
  - rewrite Hd, Hp. auto.
  - rewrite Hon, Hp.
    assert (pendingTimers c = 0%nat).
    { destruct (pendingTimers c) as [|[|n]]; [reflexivity | | lia].
      destruct Hiff as [_ Hiff]. rewrite Hiff in Hoff by reflexivity. discriminate. }
    split; [lia | split; intros; [lia | reflexivity]].
  - rewrite Hoff, Hp. split; [lia|]. split; [discriminate | lia].
Qed.

(** X15. The switch delay cannot stick.  After any sequence of events on
    a new controller the delay flag is set exactly when one timer is
    pending to clear it, and no more than one timer is ever pending. *)
Theorem switch_delay_has_its_timer (evs : list Event) :
  let c := run evs constructor in
  (pendingTimers c <= 1)%nat /\
  (weaponSwitchDelay c = true <-> pendingTimers c = 1%nat).
Proof.
  cbv zeta.
  assert (Hrun : forall c, delay_tracks_timer c -> delay_tracks_timer (run evs c)).
  { induction evs as [|ev evs IH]; intros c Hc; [exact Hc|].
    cbn. apply IH, step_tracks, Hc. }
  apply (Hrun constructor). split; [cbn; lia|].
  cbn. split; discriminate.
Qed.

(** While the delay is set, no event raises a switch flag. *)
Lemma no_raise_during_delay c ev :
  weaponSwitchDelay c = true -> raises_switch c ev = false.
Proof.
  intros Hd. unfold raises_switch. cbv zeta.
  destruct ev as [code | code | cx cy mx my w h | b | b | d | l | |]; cbn [step].
  - unfold onKeyDown. rewrite Hd. cbn [negb].
    repeat (match goal with
            | |- context [String.eqb code ?s] => destruct (String.eqb code s)
            end; cbn [keys set_key set_keys Key_eqb triggerWeaponSelect];
            try (destruct (keys c NextWeapon), (keys c PreviousWeapon); reflexivity)).
  - unfold onKeyUp.
    repeat (match goal with
            | |- context [String.eqb code ?s] => destruct (String.eqb code s)
            end; cbn [keys set_key set_keys Key_eqb triggerWeaponSelect];
            try (destruct (keys c NextWeapon), (keys c PreviousWeapon); reflexivity)).
  - unfold onMouseMove. cbn. destruct (isPointerLocked c); cbn;
      destruct (keys c NextWeapon), (keys c PreviousWeapon); reflexivity.
  - unfold onMouseDown. destruct (Z.eqb b 0), (Z.eqb b 2); cbn;
      destruct (keys c NextWeapon), (keys c PreviousWeapon); reflexivity.
  - unfold onMouseUp. destruct (Z.eqb b 0), (Z.eqb b 2); cbn;
      destruct (keys c NextWeapon), (keys c PreviousWeapon); reflexivity.
  - unfold onWheel. rewrite Hd. cbn [negb].
    destruct (keys c NextWeapon), (keys c PreviousWeapon); reflexivity.
  - cbn. destruct (keys c NextWeapon), (keys c PreviousWeapon); reflexivity.
  - destruct (Nat.eqb (pendingTimers c) 0); cbn;
      destruct (keys c NextWeapon), (keys c PreviousWeapon); reflexivity.
  - cbn. destruct (keys c NextWeapon), (keys c PreviousWeapon); reflexivity.
Qed.

(** An event that raises a switch flag sets the delay. *)
Lemma raise_sets_delay c ev :
  raises_switch c ev = true -> weaponSwitchDelay (step c ev) = true.
Proof.
  destruct (weaponSwitchDelay c) eqn:Hd.
  { rewrite (no_raise_during_delay c ev Hd). discriminate. }
  unfold raises_switch. cbv zeta.
  destruct ev as [code | code | cx cy mx my w h | b | b | d | l | |]; cbn [step].
  - unfold onKeyDown. rewrite Hd. cbn [negb].
    repeat (match goal with
            | |- context [String.eqb code ?s] => destruct (String.eqb code s)
            end; cbn [keys set_key set_keys Key_eqb weaponSwitchDelay
                        setWeaponSwitchDelay triggerWeaponSelect];
            try reflexivity;
            try (destruct (keys c NextWeapon), (keys c PreviousWeapon); discriminate)).
  - unfold onKeyUp.
    repeat (match goal with
            | |- context [String.eqb code ?s] => destruct (String.eqb code s)
            end; cbn [keys set_key set_keys Key_eqb triggerWeaponSelect];
            try (destruct (keys c NextWeapon), (keys c PreviousWeapon); discriminate)).
  - unfold onMouseMove. cbn. destruct (isPointerLocked c); cbn;
      destruct (keys c NextWeapon), (keys c PreviousWeapon); discriminate.
  - unfold onMouseDown. destruct (Z.eqb b 0), (Z.eqb b 2); cbn;
      destruct (keys c NextWeapon), (keys c PreviousWeapon); discriminate.
  - unfold onMouseUp. destruct (Z.eqb b 0), (Z.eqb b 2); cbn;
      destruct (keys c NextWeapon), (keys c PreviousWeapon); discriminate.
  - unfold onWheel. rewrite Hd. cbn [negb]. reflexivity.
  - cbn. destruct (keys c NextWeapon), (keys c PreviousWeapon); discriminate.
  - destruct (Nat.eqb (pendingTimers c) 0); cbn;
      destruct (keys c NextWeapon), (keys c PreviousWeapon); discriminate.
  - cbn. destruct (keys c NextWeapon), (keys c PreviousWeapon); discriminate.
Qed.

(** Only the timer clears the delay. *)
Lemma delay_stays c ev :
  not_timer ev -> weaponSwitchDelay c = true -> weaponSwitchDelay (step c ev) = true.
Proof.
  intros Hev Hd.
  destruct (step_delay c ev) as [[Hs _] | [(Hoff & _) | (Heq & _)]];
    [congruence | congruence | contradiction].
Qed.

Lemma no_requests_during_delay (evs : list Event) : forall c,
  Forall not_timer evs -> weaponSwitchDelay c = true -> switch_requests evs c = 0%nat.
Proof.
  induction evs as [|ev evs IH]; intros c Hevs Hd; [reflexivity|].
  apply Forall_cons in Hevs as [Hev Hevs]. cbn [switch_requests].
  rewrite (no_raise_during_delay c ev Hd), (IH _ Hevs (delay_stays c ev Hev Hd)).
  reflexivity.
Qed.

(** What an event adds to the 'weaponselect' events dispatched. *)
Lemma step_dispatched c ev :
  dispatched (step c ev) = dispatched c ++ selections [ev].
Proof.
  destruct ev as [code | code | cx cy mx my w h | b | b | d | l | |];
    cbn [step selections]; try (rewrite app_nil_r).
  - unfold onKeyDown, selected_index.
    repeat match goal with
           | |- context [String.eqb code ?s] =>
               destruct (String.eqb_spec code s) as [-> | ?];
               [cbn; try (destruct (weaponSwitchDelay c)); cbn;
                rewrite ?app_nil_r; reflexivity|]
           end.
    rewrite app_nil_r. reflexivity.
  - unfold onKeyUp.
    repeat (match goal with
            | |- context [String.eqb code ?s] => destruct (String.eqb code s)
            end; try reflexivity).
  - unfold onMouseMove. cbn. destruct (isPointerLocked c); reflexivity.
  - unfold onMouseDown. destruct (Z.eqb b 0), (Z.eqb b 2); reflexivity.
  - unfold onMouseUp. destruct (Z.eqb b 0), (Z.eqb b 2); reflexivity.
  - unfold onWheel. destruct (weaponSwitchDelay c); cbn [negb]; [reflexivity|].
    destruct (JS.gt d 0); [|destruct (JS.lt d 0)]; reflexivity.
  - reflexivity.
  - destruct (Nat.eqb (pendingTimers c) 0); reflexivity.
  - reflexivity.
Qed.

Lemma selections_cons ev (evs : list Event) :
  selections (ev :: evs) = selections [ev] ++ selections evs.
Proof.
  destruct ev as [code | | | | | | | |]; cbn [selections]; try reflexivity.
  destruct (selected_index code); reflexivity.
Qed.

Lemma run_dispatched (evs : list Event) : forall c,
  dispatched (run evs c) = dispatched c ++ selections evs.
Proof.
  induction evs as [|ev evs IH]; intros c.
  - cbn. rewrite app_nil_r. reflexivity.
  - change (run (ev :: evs) c) with (run evs (step c ev)).
    rewrite IH, step_dispatched, (selections_cons ev evs), app_assoc.
    reflexivity.
Qed.

(** X16. One cycling request per delay window, and no delay for the digit
    keys.  In a run of events without the timer's callback (key presses
    and releases, wheel turns, mouse events, frame ends), at most one
    event raises the [nextWeapon] or the [previousWeapon] flag, and none
    does if the delay was set at the start.  The digit keys are not held
    back: every press of Digit1 to Digit5 dispatches its 'weaponselect'
    event, with the digit less one, whatever the delay flag. *)
Theorem one_switch_request_per_delay (evs : list Event) (c : InputController.t) :
  Forall not_timer evs ->
  (switch_requests evs c <= 1)%nat /\
  (weaponSwitchDelay c = true -> switch_requests evs c = 0%nat) /\
  dispatched (run evs c) = dispatched c ++ selections evs.
Proof.
  intros Hevs.
  split; [|split; [apply no_requests_during_delay, Hevs | apply run_dispatched]].
  revert c. induction evs as [|ev evs IH]; intros c; [cbn; lia|].
  apply Forall_cons in Hevs as [Hev Hevs]. cbn [switch_requests].
  destruct (raises_switch c ev) eqn:Hr.
  - rewrite (no_requests_during_delay evs _ Hevs (raise_sets_delay c ev Hr)). lia.
  - specialize (IH Hevs (step c ev)). lia.
Qed.

End InputFacts.

Lemma one_switch_request_per_delay_witness :
  Forall not_timer
    [InputController.KeyDown "KeyE"; InputController.KeyDown "Digit3";
     InputController.FrameEnd; InputController.KeyDown "KeyE";
     InputController.KeyDown "Digit1"; InputController.Wheel 1] /\
  (switch_requests
     [InputController.KeyDown "KeyE"; InputController.KeyDown "Digit3";
      InputController.FrameEnd; InputController.KeyDown "KeyE";
      InputController.KeyDown "Digit1"; InputController.Wheel 1]
     InputController.constructor <= 1)%nat /\
  InputController.dispatched
    (InputController.run
       [InputController.KeyDown "KeyE"; InputController.KeyDown "Digit3";
        InputController.FrameEnd; InputController.KeyDown "KeyE";
        InputController.KeyDown "Digit1"; InputController.Wheel 1]
       InputController.constructor)
  = [2; 0]%Z.
Proof.
  assert (Hn : Forall not_timer
    [InputController.KeyDown "KeyE"; InputController.KeyDown "Digit3";
     InputController.FrameEnd; InputController.KeyDown "KeyE";
     InputController.KeyDown "Digit1"; InputController.Wheel 1]).
  { repeat (apply Forall_cons; split; [discriminate|]). apply Forall_nil. exact I. }
  split; [exact Hn|].
  destruct (one_switch_request_per_delay _ InputController.constructor Hn)
    as (H1 & _ & H3).
  split; [exact H1 | exact H3].
Defined.

Example one_switch_request_counted :
  switch_requests
    [InputController.KeyDown "KeyE"; InputController.KeyDown "Digit3";
     InputController.FrameEnd; InputController.KeyDown "KeyE";
     InputController.KeyDown "Digit1"; InputController.Wheel 1]
    InputController.constructor = 1%nat.
Proof. vm_compute. reflexivity. Qed.

(** ** The controller and the player *)

Section InputAndPlayer.
Import Player.
Context `{Three}.

Implicit Types (p : Player.t).

Lemma same_view_refl p : same_view p p.
Proof. repeat split. Qed.

Lemma same_view_trans p1 p2 p3 : same_view p1 p2 -> same_view p2 p3 -> same_view p1 p3.
Proof.
  unfold same_view. intros (A1 & A2 & A3) (B1 & B2 & B3). repeat split; congruence.
Qed.

Lemma equipWeapon_view i p : same_view p (snd (equipWeapon i p)).
Proof.
  unfold equipWeapon. destruct (_ || _); [apply same_view_refl|].
  destruct (getCurrentWeapon _) as [[m | r]|]; repeat split.
Qed.

Lemma handle_events_view isE (evs : list WeaponEvent) p :
  same_view p (foldl (handle_event isE) p evs).
Proof.
  revert p. induction evs as [|e evs IH]; intros p; [apply same_view_refl|].
  cbn. eapply same_view_trans; [|apply IH].
  destruct e as [which | pos nrm | hit | pos dir]; cbn [handle_event];
    [repeat split | repeat split | | repeat split].
  unfold handleWeaponHit. destruct (isE _); repeat split.
Qed.

Lemma useWeapon_view s p : same_view p (snd (useWeapon s p)).
Proof.
  unfold useWeapon. destruct (getCurrentWeapon p) as [[m | r]|];
    [| |apply same_view_refl].
  - destruct (MeleeWeapon.use _ _ _ _ _ _) as [[ok m'] evs]. cbn [snd].
    eapply same_view_trans; [|apply handle_events_view]. repeat split.
  - destruct (RangedWeapon.use _ _ _ _ _ _ _) as [[ok r'] evs].
    assert (Hv : same_view p
              (foldl (handle_event (isEnemy s)) (store_current (Ranged r') p) evs)).
    { eapply same_view_trans; [|apply handle_events_view]. repeat split. }
    destruct ok; cbn [snd]; [|exact Hv].
    eapply same_view_trans; [exact Hv | repeat split].
Qed.

Lemma reloadWeapon_view p : same_view p (snd (reloadWeapon p)).
Proof.
  unfold reloadWeapon. destruct (getCurrentWeapon p) as [[m | r]|];
    try apply same_view_refl.
  destruct (RangedWeapon.reload r) as [[[] r'] evs]; repeat split.
Qed.

(** A frame without mouse movement does not turn the player. *)
Lemma update_without_movement (i : Input) s dt p :
  movementX i = 0 -> movementY i = 0 ->
  same_view p (update (Some i) s dt p).
Proof.
  intros Hx Hy. unfold update. rewrite Hx, Hy.
  change (updateLook 0 0 dt p) with p.
  set (p2 := if leftButton i then snd (useWeapon s p) else p).
  assert (H2 : same_view p p2).
  { subst p2. destruct (leftButton i); [apply useWeapon_view | apply same_view_refl]. }
  set (p3 := if key_reload i then snd (reloadWeapon p2) else p2).
  assert (H3 : same_view p2 p3).
  { subst p3. destruct (key_reload i); [apply reloadWeapon_view | apply same_view_refl]. }
  set (p4 := match getCurrentWeapon p3 with
             | Some (Melee m) => _ | Some (Ranged r) => _ | None => p3 end).
  assert (H4 : same_view p3 p4).
  { subst p4. destruct (getCurrentWeapon p3) as [[m | r]|]; repeat split. }
  set (p5 := if key_nextWeapon i then snd (nextWeapon p4) else p4).
  assert (H5 : same_view p4 p5).
  { subst p5. unfold nextWeapon. destruct (key_nextWeapon i); [|apply same_view_refl].
    destruct (_ <=? 1)%Z; [apply same_view_refl | apply equipWeapon_view]. }
  set (p6 := if key_previousWeapon i then snd (previousWeapon p5) else p5).
  assert (H6 : same_view p5 p6).
  { subst p6. unfold previousWeapon.
    destruct (key_previousWeapon i); [|apply same_view_refl].
    destruct (_ <=? 1)%Z; [apply same_view_refl | apply equipWeapon_view]. }
  repeat (eapply same_view_trans; [eassumption|]).
  repeat split.
Qed.

(** A frame without a switch key keeps the weapon that is equipped. *)
Lemma update_without_switch (i : Input) s dt p :
  key_nextWeapon i = false -> key_previousWeapon i = false ->
  same_inventory p (update (Some i) s dt p).
Proof.
  intros Hn Hv. unfold update. rewrite Hn, Hv.
  set (p1 := updateLook _ _ _ p).
  assert (H1 : same_inventory p p1) by apply updateLook_inventory.
  set (p2 := if leftButton i then snd (useWeapon s p1) else p1).
  assert (H2 : same_inventory p1 p2).
  { subst p2. destruct (leftButton i);
      [apply useWeapon_inventory | apply same_inventory_refl]. }
  set (p3 := if key_reload i then snd (reloadWeapon p2) else p2).
  assert (H3 : same_inventory p2 p3).
  { subst p3. destruct (key_reload i);
      [apply reloadWeapon_inventory | apply same_inventory_refl]. }
  set (p4 := match getCurrentWeapon p3 with
             | Some (Melee m) => _ | Some (Ranged r) => _ | None => p3 end).
  assert (H4 : same_inventory p3 p4).
  { subst p4. destruct (getCurrentWeapon p3) as [[m | r]|];
      [apply store_current_inventory | apply store_current_inventory
       | apply same_inventory_refl]. }
  repeat (eapply same_inventory_trans; [eassumption|]).
  repeat split.
Qed.

(** X17. One-shot inputs act once.  The frame that follows the
    controller's end-of-frame reset, with no event in between, neither
    turns the player nor changes the equipped weapon, whatever was pressed
    before the reset; only what is held (the fire button) still acts. *)
Theorem frame_after_reset_is_still (c : InputController.t) (s : Surroundings)
    (dt : Q) p :
  let p' := update (Some (Input_of (InputController.update c))) s dt p in
  same_view p p' /\
  currentWeaponIndex p' = currentWeaponIndex p /\
  weaponContainer p' = weaponContainer p.
Proof.
  cbv zeta. split.
  - apply update_without_movement; reflexivity.
  - apply (update_without_switch (Input_of (InputController.update c)));
      reflexivity.
Qed.

(** X18. With the pointer unlocked the mouse does not turn the player:
    the frame after a mouse move leaves body yaw, look angle and camera
    pitch as they were. *)
Theorem unlocked_mouse_does_not_turn (c : InputController.t)
    (clientX clientY mx my innerWidth innerHeight : Q)
    (s : Surroundings) (dt : Q) p :
  InputController.isPointerLocked c = false ->
  let c' := InputController.onMouseMove clientX clientY mx my
              innerWidth innerHeight c in
  same_view p (update (Some (Input_of c')) s dt p).
Proof.
  intros Hl. cbv zeta. apply update_without_movement;
    unfold InputController.onMouseMove; cbn; rewrite Hl; reflexivity.
Qed.

End InputAndPlayer.

Lemma unlocked_mouse_does_not_turn_witness :
  InputController.isPointerLocked InputController.constructor = false /\
  Player.currentLookVertical
    (Player.update
       (Some (Input_of (InputController.onMouseMove 400 300 25 (-40) 800 600
                          InputController.constructor)))
       {| now := 1; now' := 1; random := origin; camera_position := origin;
          camera_direction := forward; isEnemy := fun _ => false |}
       (1 # 60) Player.constructor)
  = Player.currentLookVertical Player.constructor.
Proof.
  split; [reflexivity|].
  apply (unlocked_mouse_does_not_turn InputController.constructor
           400 300 25 (-40) 800 600
           {| now := 1; now' := 1; random := origin; camera_position := origin;
              camera_direction := forward; isEnemy := fun _ => false |}
           (1 # 60) Player.constructor).
  reflexivity.
Defined.

(** ** Physics: the list of bodies *)

Section PhysicsBodies.

Lemma indexOf_from_absent (b : nat) (l : list nat) (i : Z) :
  b ∉ l -> indexOf_from b l i = (-1)%Z.
Proof.
  revert i. induction l as [|x l IH]; intros i Hb; [reflexivity|].
  apply not_elem_of_cons in Hb as [Hx Hl]. cbn [indexOf_from].
  destruct (Nat.eqb x b) eqn:E.
  - apply Nat.eqb_eq in E. congruence.
  - apply IH, Hl.
Qed.

Lemma indexOf_from_first (b : nat) (l1 l2 : list nat) (i : Z) :
  b ∉ l1 ->
  indexOf_from b (l1 ++ b :: l2) i = (i + Z.of_nat (length l1))%Z.
Proof.
  revert i. induction l1 as [|x l1 IH]; intros i Hb.
  - cbn. rewrite Nat.eqb_refl. lia.
  - apply not_elem_of_cons in Hb as [Hx Hl].
    cbn [app indexOf_from length]. destruct (Nat.eqb x b) eqn:E.
    + apply Nat.eqb_eq in E. congruence.
    + rewrite (IH _ Hl). lia.
Qed.

Lemma remove_by_indexOf_absent (b : nat) (l : list nat) :
  b ∉ l -> remove_by_indexOf b l = l.
Proof.
  intros Hb. unfold remove_by_indexOf, indexOf.
  rewrite (indexOf_from_absent _ _ _ Hb). reflexivity.
Qed.

Lemma remove_by_indexOf_first (b : nat) (l1 l2 : list nat) :
  b ∉ l1 -> remove_by_indexOf b (l1 ++ b :: l2) = l1 ++ l2.
Proof.
  intros Hb. unfold remove_by_indexOf, indexOf.
  rewrite (indexOf_from_first _ _ _ _ Hb).
  destruct (Z.eqb_spec (0 + Z.of_nat (length l1)) (-1)) as [E|E]; [lia|].
  cbn [negb]. replace (Z.to_nat (0 + Z.of_nat (length l1))) with (length l1) by lia.
  apply delete_middle.
Qed.

Lemma remove_by_indexOf_sublist (b : nat) (l : list nat) :
  sublist (remove_by_indexOf b l) l.
Proof.
  unfold remove_by_indexOf. destruct (negb _); [apply sublist_delete | reflexivity].
Qed.

(** X19.  [removeBody(body)] takes out the first occurrence of the body
    and nothing else: the bodies before it and after it stay, in order,
    later occurrences of the same body included. *)
Theorem removeBody_takes_first_occurrence
    (p : Physics.t) (b : nat) (l1 l2 : list nat)
    (Hbodies : Physics.bodies p = l1 ++ b :: l2) (Hfirst : b ∉ l1) :
  Physics.bodies (Physics.removeBody b p) = l1 ++ l2.
Proof.
  unfold Physics.removeBody, Physics.tell_world.
  cbn [Physics.bodies Physics.set_bodies Physics.set_world].
  rewrite Hbodies. apply remove_by_indexOf_first, Hfirst.
Qed.

(** X20.  For a body that is not in the list, [addBody] followed by
    [removeBody] gives back the list of bodies as it was, and the world
    has been told to add the body and then to remove it.  [removeBody]
    alone leaves the list as it is, and tells the world to remove the body
    all the same. *)
Theorem removeBody_undoes_addBody (p : Physics.t) (b : nat)
    (Hnew : b ∉ Physics.bodies p) :
  Physics.removeBody b (Physics.addBody b p)
  = Physics.set_world
      (Physics.world p ++ [Physics.World_addBody b; Physics.World_removeBody b])
      p /\
  Physics.removeBody b p
  = Physics.set_world (Physics.world p ++ [Physics.World_removeBody b]) p.
Proof.
  destruct p as [l w ts ms]. cbn [Physics.bodies] in Hnew.
  unfold Physics.removeBody, Physics.addBody, Physics.tell_world,
    Physics.set_bodies, Physics.set_world.
  cbn [Physics.bodies Physics.world Physics.timeStep Physics.maxSubSteps].
  rewrite (remove_by_indexOf_first b l [] Hnew), app_nil_r.
  rewrite (remove_by_indexOf_absent b l Hnew), <- app_assoc.
  split; reflexivity.
Qed.

Lemma remove_by_indexOf_head (b : nat) (l : list nat) :
  remove_by_indexOf b (b :: l) = l.
Proof.
  apply (remove_by_indexOf_first b [] l). apply not_elem_of_nil.
Qed.

(** X21.  The loop of [reset()] ends with the list of bodies empty, and
    takes one turn for each body that was in the list, whatever bodies
    they are and however often they occur: with that many turns it ends,
    with fewer it has not ended.  The world is told to remove each entry
    of the list, in the order of the list. *)
Theorem reset_empties_the_bodies (turns : nat) (p : Physics.t) :
  Physics.reset_loop turns p =
  if (length (Physics.bodies p) <=? turns)%nat
  then Some (Physics.set_world
               (Physics.world p
                ++ map Physics.World_removeBody (Physics.bodies p))
               (Physics.set_bodies [] p))
  else None.
Proof.
  revert p. induction turns as [|n IH]; intros [l w ts ms].
  - destruct l as [|b l]; [|reflexivity].
    cbn. unfold Physics.set_world, Physics.set_bodies. cbn.
    rewrite app_nil_r. reflexivity.
  - destruct l as [|b l].
    + cbn. unfold Physics.set_world, Physics.set_bodies. cbn.
      rewrite app_nil_r. reflexivity.
    + cbn [Physics.reset_loop Physics.bodies]. rewrite IH.
      unfold Physics.removeBody, Physics.tell_world, Physics.set_bodies,
        Physics.set_world.
      cbn [Physics.bodies Physics.world Physics.timeStep Physics.maxSubSteps].
      rewrite remove_by_indexOf_head. cbn [length Nat.leb map].
      rewrite <- app_assoc. reflexivity.
Qed.

End PhysicsBodies.

Lemma removeBody_takes_first_occurrence_witness :
  Physics.bodies
    (Physics.removeBody 7 (Physics.set_bodies [3; 7; 5; 7]%nat Physics.constructor))
  = [3; 5; 7]%nat.
Proof.
  apply (removeBody_takes_first_occurrence
           (Physics.set_bodies [3; 7; 5; 7]%nat Physics.constructor) 7%nat [3%nat]
           [5%nat; 7%nat]).
  - reflexivity.
  - rewrite list_elem_of_singleton. lia.
Defined.

Lemma removeBody_undoes_addBody_witness :
  Physics.bodies
    (Physics.removeBody 4 (Physics.addBody 4 (Physics.addBody 2 Physics.constructor)))
  = [2%nat] /\
  Physics.world
    (Physics.removeBody 4 (Physics.addBody 4 (Physics.addBody 2 Physics.constructor)))
  = [Physics.World_addBody 2; Physics.World_addBody 4;
     Physics.World_removeBody 4] /\
  Physics.world (Physics.removeBody 4 (Physics.addBody 2 Physics.constructor))
  = [Physics.World_addBody 2; Physics.World_removeBody 4].
Proof.
  destruct (removeBody_undoes_addBody (Physics.addBody 2 Physics.constructor) 4%nat)
    as [H1 H2].
  { unfold Physics.addBody; cbn. rewrite list_elem_of_singleton. lia. }
  rewrite H1, H2. repeat split.
Defined.

(** ** GameManager: run state, score and enemies *)

Section GameState.

Lemma step_paused_only_while_running (g : GameManager.t) (op : GameManager.Op) :
  paused_only_while_running g ->
  paused_only_while_running (GameManager.step g op).
Proof.
  unfold paused_only_while_running.
  destruct op; cbn [GameManager.step]; try (intros Hg; exact Hg).
  - unfold GameManager.start.
    destruct (GameManager.isRunning g) eqn:Er, (GameManager.isPaused g) eqn:Ep;
      cbn; rewrite ?Er, ?Ep; intros; try reflexivity; try discriminate; auto.
  - unfold GameManager.pause.
    destruct (GameManager.isRunning g) eqn:Er, (GameManager.isPaused g) eqn:Ep;
      cbn; rewrite ?Er, ?Ep; intros; try reflexivity; try discriminate; auto.
  - unfold GameManager.resume.
    destruct (GameManager.isRunning g) eqn:Er, (GameManager.isPaused g) eqn:Ep;
      cbn; rewrite ?Er, ?Ep; intros; try reflexivity; try discriminate; auto.
  - unfold GameManager.stop.
    destruct (GameManager.isRunning g) eqn:Er, (GameManager.isPaused g) eqn:Ep;
      cbn; rewrite ?Er, ?Ep; intros; try reflexivity; try discriminate; auto.
  - intros Hg. unfold GameManager.spawnEnemy. destruct (_ <=? _)%Z; exact Hg.
  - intros Hg. unfold GameManager.handleProjectileHit.
    cbn [GameManager.health GameManager.set_projectiles].
    destruct (GameManager.health g !! target); [|exact Hg].
    destruct (JS.le _ _); exact Hg.
Qed.

Lemma run_snoc (ops : list GameManager.Op) (op : GameManager.Op)
    (g : GameManager.t) :
  GameManager.run (ops ++ [op]) g = GameManager.step (GameManager.run ops g) op.
Proof. unfold GameManager.run. apply foldl_snoc. Qed.

(** X22.  Whatever is called on a new game manager, in whatever order, a
    paused game is a running one: [pause()] does nothing on a stopped
    game and [stop()] clears the pause. *)
Theorem paused_game_is_running (ops : list GameManager.Op) :
  paused_only_while_running (GameManager.run ops GameManager.constructor).
Proof.
  induction ops as [|op ops IH] using rev_ind.
  - cbn. discriminate.
  - rewrite run_snoc. apply step_paused_only_while_running, IH.
Qed.

Lemma step_score (g : GameManager.t) (op : GameManager.Op) :
  (GameManager.score g = 100 * GameManager.kills g)%Z ->
  (GameManager.score (GameManager.step g op)
   = 100 * GameManager.kills (GameManager.step g op))%Z.
Proof.
  intros Hg. destruct op; cbn [GameManager.step].
  - unfold GameManager.start. destruct (GameManager.isRunning g); exact Hg.
  - unfold GameManager.pause. destruct (_ || _); exact Hg.
  - unfold GameManager.resume. destruct (_ || _); exact Hg.
  - unfold GameManager.stop. destruct (negb _); exact Hg.
  - unfold GameManager.spawnEnemy. destruct (_ <=? _)%Z; exact Hg.
  - cbn. lia.
  - unfold GameManager.handleProjectileHit.
    cbn [GameManager.health GameManager.set_projectiles].
    destruct (GameManager.health g !! target); [|exact Hg].
    destruct (JS.le _ _); [cbn; lia | exact Hg].
  - exact Hg.
Qed.

(** X23.  Whatever is called on a new game manager, the score is 100 times
    the number of kills. *)
Theorem score_is_100_per_kill (ops : list GameManager.Op) :
  (GameManager.score (GameManager.run ops GameManager.constructor)
   = 100 * GameManager.kills (GameManager.run ops GameManager.constructor))%Z.
Proof.
  induction ops as [|op ops IH] using rev_ind.
  - reflexivity.
  - rewrite run_snoc. apply step_score, IH.
Qed.

Lemma length_remove_by_indexOf (b : nat) (l : list nat) :
  (length (remove_by_indexOf b l) <= length l)%nat.
Proof. apply sublist_length, remove_by_indexOf_sublist. Qed.

Lemma step_enemies_cap (g : GameManager.t) (op : GameManager.Op) :
  GameManager.maxEnemies g = 20%Z ->
  (Z.of_nat (length (GameManager.enemies g)) <= 20)%Z ->
  GameManager.maxEnemies (GameManager.step g op) = 20%Z /\
  (Z.of_nat (length (GameManager.enemies (GameManager.step g op))) <= 20)%Z.
Proof.
  intros Hm Hg. destruct op; cbn [GameManager.step].
  - unfold GameManager.start. destruct (GameManager.isRunning g); split; assumption.
  - unfold GameManager.pause. destruct (_ || _); split; assumption.
  - unfold GameManager.resume. destruct (_ || _); split; assumption.
  - unfold GameManager.stop. destruct (negb _); split; assumption.
  - unfold GameManager.spawnEnemy.
    destruct (Z.leb_spec (GameManager.maxEnemies g)
                (Z.of_nat (length (GameManager.enemies g)))) as [E|E];
      [split; assumption|].
    cbn [GameManager.maxEnemies GameManager.enemies]. split; [exact Hm|].
    rewrite length_app. cbn [length]. lia.
  - cbn. split; [exact Hm|].
    pose proof (length_remove_by_indexOf enemy (GameManager.enemies g)). lia.
  - unfold GameManager.handleProjectileHit.
    cbn [GameManager.health GameManager.set_projectiles].
    destruct (GameManager.health g !! target); [|split; assumption].
    destruct (JS.le _ _); [|split; assumption].
    cbn. split; [exact Hm|].
    pose proof (length_remove_by_indexOf target (GameManager.enemies g)). lia.
  - split; assumption.
Qed.

(** X24.  Whatever is called on a new game manager, the array of enemies
    never holds more than [maxEnemies] = 20 of them. *)
Theorem enemies_within_maximum (ops : list GameManager.Op) :
  (Z.of_nat (length (GameManager.enemies
                       (GameManager.run ops GameManager.constructor)))
   <= GameManager.maxEnemies (GameManager.run ops GameManager.constructor))%Z.
Proof.
  assert (H : GameManager.maxEnemies
                (GameManager.run ops GameManager.constructor) = 20%Z /\
              (Z.of_nat (length (GameManager.enemies
                 (GameManager.run ops GameManager.constructor))) <= 20)%Z).
  { induction ops as [|op ops IH] using rev_ind.
    - split; [reflexivity | cbn; lia].
    - rewrite run_snoc. destruct IH as [Hm Hl]. apply step_enemies_cap; assumption. }
  destruct H as [Hm Hl]. rewrite Hm. exact Hl.
Qed.

Lemma remove_by_indexOf_NoDup (b : nat) (l : list nat) :
  NoDup l -> NoDup (remove_by_indexOf b l) /\ b ∉ remove_by_indexOf b l.
Proof.
  intros Hl. destruct (decide (b ∈ l)) as [Hin|Hout].
  - apply list_elem_of_split_l in Hin as (l1 & l2 & -> & Hb).
    rewrite (remove_by_indexOf_first _ _ _ Hb).
    apply NoDup_app in Hl as (H1 & H12 & H2).
    apply NoDup_cons in H2 as [Hb2 H2]. split.
    + apply NoDup_app. repeat split; [exact H1 | | exact H2].
      intros x Hx Hx2. apply (H12 x Hx). right. exact Hx2.
    + rewrite elem_of_app. intros [?|?]; [exact (Hb H) | exact (Hb2 H)].
  - rewrite (remove_by_indexOf_absent _ _ Hout). split; assumption.
Qed.

Lemma remove_by_indexOf_elem (b x : nat) (l : list nat) :
  x ∈ remove_by_indexOf b l -> x ∈ l.
Proof. intros Hx. exact (elem_of_sublist _ _ _ Hx (remove_by_indexOf_sublist b l)). Qed.

Lemma step_enemies_alive (g : GameManager.t) (op : GameManager.Op) :
  enemies_distinct g -> enemies_alive g ->
  enemies_distinct (GameManager.step g op) /\
  enemies_alive (GameManager.step g op).
Proof.
  intros [Hnd Hlt] Hal. destruct op; cbn [GameManager.step].
  - unfold GameManager.start.
    destruct (GameManager.isRunning g); (split; [split|]); assumption.
  - unfold GameManager.pause. destruct (_ || _); (split; [split|]); assumption.
  - unfold GameManager.resume. destruct (_ || _); (split; [split|]); assumption.
  - unfold GameManager.stop. destruct (negb _); (split; [split|]); assumption.
  - unfold GameManager.spawnEnemy.
    destruct (_ <=? _)%Z; [(split; [split|]); assumption|].
    unfold enemies_distinct, enemies_alive.
    cbn [GameManager.enemies GameManager.health GameManager.nextEnemy].
    split; [split|].
    + apply NoDup_app. repeat split; [exact Hnd | | apply NoDup_singleton].
      intros x Hx Hx'. apply list_elem_of_singleton in Hx'. subst x.
      apply Hlt in Hx. lia.
    + intros e He. apply elem_of_app in He as [He|He].
      * apply Hlt in He. lia.
      * apply list_elem_of_singleton in He. subst e. lia.
    + intros e He. apply elem_of_app in He as [He|He].
      * destruct (Hal e He) as (h & Hh & Hpos). exists h. split; [|exact Hpos].
        rewrite lookup_insert_ne; [exact Hh|]. apply Hlt in He. lia.
      * apply list_elem_of_singleton in He. subst e. exists 100.
        rewrite lookup_insert_eq. split; [reflexivity | reflexivity].
  - unfold enemies_distinct, enemies_alive. cbn.
    destruct (remove_by_indexOf_NoDup enemy _ Hnd) as [Hnd' _].
    split; [split|].
    + exact Hnd'.
    + intros e He. apply Hlt. eapply remove_by_indexOf_elem, He.
    + intros e He. apply Hal. eapply remove_by_indexOf_elem, He.
  - unfold GameManager.handleProjectileHit.
    cbn [GameManager.health GameManager.set_projectiles].
    destruct (GameManager.health g !! target) as [h0|] eqn:Eh;
      [|(split; [split|]); assumption].
    destruct (JS.le (h0 - damage) 0) eqn:E.
    + unfold enemies_distinct, enemies_alive. cbn.
      destruct (remove_by_indexOf_NoDup target _ Hnd) as [Hnd' Hout].
      split; [split|].
      * exact Hnd'.
      * intros e He. apply Hlt. eapply remove_by_indexOf_elem, He.
      * intros e He. assert (e <> target) by (intros ->; exact (Hout He)).
        rewrite lookup_insert_ne by congruence.
        apply Hal. eapply remove_by_indexOf_elem, He.
    + apply JS_le_false in E.
      unfold enemies_distinct, enemies_alive. cbn.
      split; [split; assumption|].
      intros e He. destruct (decide (e = target)) as [->|Hne].
      * rewrite lookup_insert_eq. eexists. split; [reflexivity | exact E].
      * rewrite lookup_insert_ne by congruence. apply Hal, He.
  - (split; [split|]); assumption.
Qed.

(** X25.  Whatever is called on a new game manager, no dead enemy stays in
    the array of enemies: every enemy in it has health above zero. *)
Theorem no_dead_enemy_stays (ops : list GameManager.Op) :
  enemies_alive (GameManager.run ops GameManager.constructor).
Proof.
  assert (H : enemies_distinct (GameManager.run ops GameManager.constructor) /\
              enemies_alive (GameManager.run ops GameManager.constructor)).
  { induction ops as [|op ops IH] using rev_ind.
    - split; [split|].
      + apply NoDup_nil_2.
      + intros e He. cbn in He. apply elem_of_nil in He. contradiction.
      + intros e He. cbn in He. apply elem_of_nil in He. contradiction.
    - rewrite run_snoc. destruct IH as [Hd Ha]. apply step_enemies_alive; assumption. }
  exact (proj2 H).
Qed.

End GameState.

(** ** Player: jumping and opposite keys *)

Section Movement.

Context `{Three}.

Lemma handleCollision_no_contact (y : Q) (m : Motion) :
  y <= 5 # 10 -> handleCollision y m = m.
Proof.
  intros Hy. unfold handleCollision, JS.gt.
  apply JS_lt_false in Hy. rewrite Hy. reflexivity.
Qed.

Lemma Player_move_flags (keys : MoveKeys) (d : Vector3) (m : Motion) :
  canJump (Player_move keys d m) = (if jumps_now keys m then false else canJump m) /\
  onGround (Player_move keys d m) = (if jumps_now keys m then false else onGround m).
Proof.
  unfold Player_move. destruct (jumps_now keys m); split; reflexivity.
Qed.

(** X26.  The player does not jump twice without landing in between: over
    any frames and collisions in which no contact counts as ground (no
    contact normal with [y] above 0.5), at most one jump is applied, and
    none if the player could not jump or was not on the ground at the
    start. *)
Theorem no_second_jump_without_landing (evs : list MotionEvent) (m : Motion)
    (Hair : Forall no_ground_contact evs) :
  (jumps_applied evs m <= if canJump m && onGround m then 1 else 0)%nat.
Proof.
  revert m. induction Hair as [|ev evs Hev _ IH]; intros m.
  - cbn. lia.
  - destruct ev as [keys d|y].
    + cbn [jumps_applied Motion_step]. specialize (IH (Player_move keys d m)).
      destruct (Player_move_flags keys d m) as [Ec Eg]. rewrite Ec, Eg in IH.
      destruct (jumps_now keys m) eqn:Ej.
      * unfold jumps_now in Ej.
        destruct (k_jump keys), (canJump m), (onGround m);
          try discriminate Ej. cbn in IH |- *. lia.
      * exact IH.
    + cbn [jumps_applied Motion_step]. cbn in Hev.
      rewrite (handleCollision_no_contact _ _ Hev). apply IH.
  Qed.

(** X27.  Opposite keys cancel: in a frame in which forward and backward
    are both held or both released, and left and right likewise, the
    horizontal velocity handed to the physics body is zero, sprinting or
    not and wherever the camera looks. *)
Theorem opposite_keys_cancel (keys : MoveKeys) (d : Vector3) (m : Motion)
    (Hfb : k_forward keys = k_backward keys)
    (Hlr : k_left keys = k_right keys) :
  vx (velocity (Player_move keys d m)) == 0 /\
  vz (velocity (Player_move keys d m)) == 0.
Proof.
  unfold Player_move.
  set (pd := normalize _). set (rv := normalize (crossVectors _ _)).
  rewrite Hfb, Hlr.
  destruct (k_backward keys), (k_right keys);
    match goal with
    | |- context [JS.gt ?e 0] =>
        assert (E : JS.gt e 0 = false)
          by (apply JS_lt_false;
              unfold lengthSq, Vector3_add, Vector3_sub; cbn [vx vy vz];
              apply Qle_lteq; right; ring);
        rewrite E
    end;
    destruct (jumps_now keys m); unfold Vector3_add, Vector3_sub;
    cbn [velocity vx vy vz]; split; ring.
Qed.

End Movement.

Lemma no_second_jump_without_landing_witness :
  let jump := {| k_forward := true; k_backward := false; k_left := false;
                 k_right := false; k_jump := true; k_sprint := false |} in
  (@jumps_applied wall_world
     [Collides 1; Moves jump (vec3 0 0 (-1)); Collides (1 # 10);
      Moves jump (vec3 0 0 (-1)); Moves jump (vec3 0 0 (-1))]
     Motion_initial = 1)%nat /\
  (@jumps_applied wall_world
     [Moves jump (vec3 0 0 (-1)); Collides (1 # 10); Moves jump (vec3 0 0 (-1))]
     (@Motion_step wall_world Motion_initial (Collides 1)) <= 1)%nat.
Proof.
  cbv zeta. split; [vm_compute; reflexivity|].
  apply (@no_second_jump_without_landing wall_world).
  repeat constructor; cbn; [discriminate..].
Defined.

Lemma opposite_keys_cancel_witness :
  let keys := {| k_forward := true; k_backward := true; k_left := false;
                 k_right := false; k_jump := false; k_sprint := true |} in
  vx (velocity (@Player_move wall_world keys (vec3 3 (-1) 4) Motion_initial)) == 0 /\
  vz (velocity (@Player_move wall_world keys (vec3 3 (-1) 4) Motion_initial)) == 0.
Proof.
  cbv zeta. apply (@opposite_keys_cancel wall_world); reflexivity.
Defined.

(** ** ProceduralLevel: spawn points *)

Section SpawnPoints.





Lemma random_index_in_range (r : Q) (n : nat) :
  is_random r -> (0 < n)%nat ->
  (0 <= JS.Math_floor (r * inject_Z (Z.of_nat n))%Q < Z.of_nat n)%Z.
Proof.
  intros [H0 H1] Hn. unfold JS.Math_floor.
  assert (Hpos : 0 < inject_Z (Z.of_nat n)).
  { change 0 with (inject_Z 0). rewrite <- Zlt_Qlt. lia. }
  split.
  - change 0%Z with (Qfloor 0). apply Qfloor_resp_le. nra.
  - rewrite Zlt_Qlt.
    apply Qle_lt_trans with (r * inject_Z (Z.of_nat n)); [apply Qfloor_le|]. nra.
Qed.

Lemma getRandomSpawnPoint_stored (team : string) (r : Q)
    (lv : ProceduralLevel.t) (points : list Vector3) :
  ProceduralLevel.spawnPoints team lv = Some points -> is_random r ->
  exists pt, ProceduralLevel.getRandomSpawnPoint team r lv = Some pt /\
    match points with
    | [] => pt = if String.eqb team "teamA"
                 then ProceduralLevel.teamASpawnPoint lv
                 else ProceduralLevel.teamBSpawnPoint lv
    | _ :: _ => pt ∈ points
    end.
Proof.
  intros Hteam Hr. unfold ProceduralLevel.getRandomSpawnPoint. rewrite Hteam.
  destruct points as [|p0 points]; [eexists; split; reflexivity|].
  cbn [length Nat.eqb].
  destruct (random_index_in_range r (length (p0 :: points)) Hr) as [Hlo Hhi];
    [cbn; lia|].
  cbn [length] in Hlo, Hhi.
  destruct (Z.ltb_spec (JS.Math_floor (r * inject_Z (Z.of_nat (S (length points))))) 0)
    as [E|E]; [lia|].
  destruct (lookup_lt_is_Some_2 (p0 :: points)
              (Z.to_nat (JS.Math_floor (r * inject_Z (Z.of_nat (S (length points)))))))
    as [pt Hpt]; [cbn [length]; lia|].
  exists pt. split; [exact Hpt|]. eapply list_elem_of_lookup_2, Hpt.
Qed.

(** X29.  [getRandomSpawnPoint(team)] for one of the two teams answers one
    of the team's stored spawn points, or, when the team has none, the
    team's own spawn point; it never fails and never reads past the end of
    the array. *)
Theorem getRandomSpawnPoint_answers_a_stored_point (team : string) (r : Q)
    (lv : ProceduralLevel.t)
    (Hteam : team = "teamA" \/ team = "teamB") (Hr : is_random r) :
  exists pt points,
    ProceduralLevel.getRandomSpawnPoint team r lv = Some pt /\
    ProceduralLevel.spawnPoints team lv = Some points /\
    match points with
    | [] => pt = if String.eqb team "teamA"
                 then ProceduralLevel.teamASpawnPoint lv
                 else ProceduralLevel.teamBSpawnPoint lv
    | _ :: _ => pt ∈ points
    end.
Proof.
  assert (Hp : exists points, ProceduralLevel.spawnPoints team lv = Some points).
  { destruct Hteam as [-> | ->]; eexists; reflexivity. }
  destruct Hp as [points Hp].
  destruct (getRandomSpawnPoint_stored team r lv points Hp Hr) as (pt & Hpt & Hin).
  exists pt, points. repeat split; assumption.
Qed.


End SpawnPoints.


Lemma getRandomSpawnPoint_answers_a_stored_point_witness :
  exists pt points,
    ProceduralLevel.getRandomSpawnPoint "teamB" (3 # 4)
      ProceduralLevel.constructor = Some pt /\
    ProceduralLevel.spawnPoints "teamB" ProceduralLevel.constructor
      = Some points /\
    match points with
    | [] => pt = if String.eqb "teamB" "teamA"
                 then ProceduralLevel.teamASpawnPoint ProceduralLevel.constructor
                 else ProceduralLevel.teamBSpawnPoint ProceduralLevel.constructor
    | _ :: _ => pt ∈ points
    end.
Proof.
  apply (getRandomSpawnPoint_answers_a_stored_point "teamB" (3 # 4)
           ProceduralLevel.constructor).
  - right. reflexivity.
  - split; [discriminate | reflexivity].
Defined.

